(** * Phishing-domain discovery engine: a shallow embedding

    The Python sources embedded here are
    - [utils/validators.py]        (normalisation and the domain grammar),
    - [generators/typosquat.py]    (the typosquat variant generator),
    - [generators/idn_generator.py] (the IDN homograph generator),
    - [crawlers/whois_crawler.py]  (the WHOIS-typosquat source),
    - [crawlers/base_crawler.py]   (deduplicating save and the source runner),
    - [utils/rate_limiter.py]      (the sliding-window rate limiter),
    - [crawlers/cert_transparency.py] (the certificate-stream subscriber and
      the consumer that matches certificates against a target),
    - [main.py]                    (the loop of the discovery phase).

    Python [str] values are lists of Unicode code points, Python [int]s are
    [Z], Python sets are [gset]s.  Everything the interpreter or an external
    library decides (Unicode case mapping, the public-suffix split, the
    iteration order of a set, DNS and WHOIS answers, clock readings, the
    certificate feed) enters as a [Section] variable. *)

From Stdlib Require Import ZArith NArith Ascii String Lia.
From stdpp Require Import gmap list sorting.

#[local] Set Warnings "-notation-for-abbreviation".

Open Scope Z_scope.

(** A Python string: its code points, in order. *)
Abbreviation pystr := (list N).

(* ===================================================================== *)
(** ** Python strings *)
(* ===================================================================== *)
Module PyStr.

(** An ASCII literal as a Python string. *)
Definition lit (s : string) : pystr :=
  map N_of_ascii (list_ascii_of_string s).

Definition dot : N := 46%N.
Definition hyphen : N := 45%N.
Definition line_feed : N := 10%N.

Definition is_ascii (c : N) : bool := (c <? 128)%N.

(** [c.lower()] on an ASCII code point: only [A-Z] move. *)
Definition ascii_lower (c : N) : N :=
  if ((65 <=? c) && (c <=? 90))%N then (c + 32)%N else c.

(** [bool(p)] for a string. *)
Definition truthy (p : pystr) : bool :=
  match p with [] => false | _ => true end.

(** Boolean equality and membership on strings, for evaluation. *)
Definition str_eqb (a b : pystr) : bool := bool_decide (a = b).

Definition str_in (x : pystr) (l : list pystr) : bool :=
  existsb (str_eqb x) l.

(** [d.get(k)] on a literal dictionary, kept as its list of items. *)
Definition dict_get {V} (d : list (pystr * V)) (k : pystr) : option V :=
  snd <$> find (λ kv, str_eqb kv.1 k) d.

(** [s.endswith(p)]. *)
Definition endswith (s p : pystr) : bool :=
  (length p <=? length s)%nat && str_eqb (drop (length s - length p) s) p.

(** [s.startswith(p)]. *)
Fixpoint startswith (s p : pystr) : bool :=
  match p, s with
  | [], _ => true
  | c :: p, d :: s => (c =? d)%N && startswith s p
  | _ :: _, [] => false
  end.

(** [needle in haystack], the substring test. *)
Fixpoint contains (haystack needle : pystr) : bool :=
  startswith haystack needle
  || match haystack with
     | [] => false
     | _ :: rest => contains rest needle
     end.

(** [sep.join(parts)]. *)
Fixpoint join (sep : pystr) (parts : list pystr) : pystr :=
  match parts with
  | [] => []
  | [p] => p
  | p :: rest => p ++ sep ++ join sep rest
  end.

(** [s.split(sep)] for a one-character separator. *)
Fixpoint split_on (sep : N) (s : pystr) : list pystr :=
  match s with
  | [] => [[]]
  | c :: rest =>
      if (c =? sep)%N then [] :: split_on sep rest
      else match split_on sep rest with
           | [] => [[c]]
           | w :: ws => (c :: w) :: ws
           end
  end.

(** [Py_UNICODE_ISSPACE]: the code points [str.strip()] removes. *)
Definition is_space (c : N) : bool :=
  ((9 <=? c) && (c <=? 13) || (28 <=? c) && (c <=? 32)
   || (c =? 0x85) || (c =? 0xA0) || (c =? 0x1680)
   || (0x2000 <=? c) && (c <=? 0x200A)
   || (c =? 0x2028) || (c =? 0x2029) || (c =? 0x202F)
   || (c =? 0x205F) || (c =? 0x3000))%N.

Fixpoint lstrip (s : pystr) : pystr :=
  match s with
  | c :: rest => if is_space c then lstrip rest else s
  | [] => []
  end.

Definition rstrip (s : pystr) : pystr := reverse (lstrip (reverse s)).

(** [s.strip()]. *)
Definition strip (s : pystr) : pystr := rstrip (lstrip s).

(** Whether [s.encode('ascii')] raises: some code point is not ASCII
    ([_is_idn_domain] in cert_transparency.py). *)
Definition _is_idn_domain (s : pystr) : bool :=
  existsb (λ c, negb (is_ascii c)) s.

Section Lower.
(** [unicode_lower s i c]: the lower-case mapping CPython applies to the
    non-ASCII code point [c] found at index [i] of [s] (one to three code
    points; the string and index are there for the final-sigma rule). *)
Variable unicode_lower : pystr → nat → N → pystr.

(** [s.lower()]. *)
Definition lower (s : pystr) : pystr :=
  concat (imap (λ i c, if is_ascii c then [ascii_lower c]
                       else unicode_lower s i c) s).
End Lower.

(** The identity on non-ASCII code points: a case mapping that agrees with
    CPython on every ASCII string and on every caseless code point. *)
Definition caseless : pystr → nat → N → pystr := λ _ _ c, [c].

End PyStr.
Export PyStr.

(* ===================================================================== *)
(** ** generators/typosquat.py *)
(* ===================================================================== *)
Module Typosquat.

(** What [tldextract.extract] returns. *)
Record DomainParts := {
  subdomain : pystr;
  domain : pystr;
  suffix : pystr
}.

Definition COMMON_TLDS : list pystr :=
  map lit ["com"; "net"; "org"; "info"; "co"; "in"; "co.in";
           "xyz"; "top"; "online"; "site"; "club"; "live";
           "tech"; "store"; "website"; "space"; "pro"]%string.

Definition CHAR_SUBSTITUTIONS : list (pystr * list pystr) :=
  map (λ kv, (lit kv.1, map lit kv.2))
    [("a", ["@"; "4"]); ("e", ["3"]); ("i", ["1"; "l"; "!"]);
     ("l", ["1"; "i"]); ("o", ["0"]); ("s", ["5"; "$"]);
     ("t", ["7"]); ("g", ["9"]); ("b", ["8"])]%string.

(** The values are strings; iterating one yields its characters. *)
Definition KEYBOARD_ADJACENCY : list (pystr * pystr) :=
  map (λ kv, (lit kv.1, lit kv.2))
    [("a", "sqwz"); ("b", "vghn"); ("c", "xdfv"); ("d", "serfcx");
     ("e", "wsdr"); ("f", "drtgvc"); ("g", "ftyhhbv"); ("h", "gyujnb");
     ("i", "ujko"); ("j", "huikmn"); ("k", "jiolm"); ("l", "kop");
     ("m", "njk"); ("n", "bhjm"); ("o", "iklp"); ("p", "ol");
     ("q", "wa"); ("r", "edf t"); ("s", "awedxz"); ("t", "rfgy");
     ("u", "yhji"); ("v", "cfgb"); ("w", "qase"); ("x", "zsdc");
     ("y", "tghu"); ("z", "asx")]%string.

(** The table local to [_homograph_variants]: digit zero, then Greek and
    Cyrillic look-alikes by code point. *)
Definition homographs : list (pystr * list pystr) :=
  [(lit "o", [lit "0"; [0x3bf%N]; [0x43e%N]]);
   (lit "a", [[0x430%N]; [0x3b1%N]]);
   (lit "e", [[0x435%N]; [0x3b5%N]]);
   (lit "i", [[0x456%N]; [0x3b9%N]]);
   (lit "p", [[0x440%N]; [0x3c1%N]]);
   (lit "c", [[0x441%N]; [0x3f2%N]]);
   (lit "y", [[0x443%N]; [0x3b3%N]])].

Definition insertion_alphabet : pystr :=
  lit "abcdefghijklmnopqrstuvwxyz0123456789".

Definition prefixes : list pystr :=
  map lit [EmptyString; "www"; "secure"; "login"; "account"; "verify"; "update"]%string.

Definition suffixes : list pystr :=
  map lit [EmptyString; "login"; "secure"; "online"; "bank"; "auth"; "verify"]%string.

(** [f"{variant}.{tld}"]. *)
Definition fqdn (variant tld : pystr) : pystr := variant ++ dot :: tld.

(** The set a loop of [variants.add(x)] calls builds, given the [x]s in
    the order of the calls. *)
Definition added (xs : list pystr) : gset pystr := list_to_set xs.

(** [xs[:k]] for a Python int [k]: a negative [k] counts from the end. *)
Definition slice_to (xs : list pystr) (k : Z) : list pystr :=
  if k <? 0 then take (Z.to_nat (Z.of_nat (length xs) + k)) xs
  else take (Z.to_nat k) xs.

Section Generator.
Variable unicode_lower : pystr → nat → N → pystr.
(** [tldextract.extract], an external library over the public-suffix
    list. *)
Variable extract_domain_parts : pystr → DomainParts.
(** [list(variants)]: the order in which CPython iterates a set. *)
Variable set_iter : gset pystr → list pystr.

(** [char.lower() in table], then [table[char.lower()]]. *)
Definition lookup_lower {V} (table : list (pystr * V)) (char : N) : option V :=
  dict_get table (lower unicode_lower [char]).

(** The strings added by [_character_omission], in loop order. *)
Definition omissions (domain tld : pystr) : list pystr :=
  flat_map (λ i,
    let variant := take i domain ++ drop (i + 1) domain in
    if (3 <=? length variant)%nat then [fqdn variant tld] else [])
    (seq 0 (length domain)).

Definition _character_omission (domain tld : pystr) : gset pystr :=
  added (omissions domain tld).

Definition repetitions (domain tld : pystr) : list pystr :=
  flat_map (λ i,
    match domain !! i with
    | Some c => [fqdn (take i domain ++ [c] ++ drop i domain) tld]
    | None => []
    end) (seq 0 (length domain)).

Definition _character_repetition (domain tld : pystr) : gset pystr :=
  added (repetitions domain tld).

(** The body shared by the three table-driven operators: every
    replacement listed for the lower-cased character, at its index. *)
Definition replacements (table : list (pystr * list pystr))
    (domain tld : pystr) : list pystr :=
  concat (imap (λ i char,
    match lookup_lower table char with
    | Some reps =>
        map (λ replacement,
               fqdn (take i domain ++ replacement ++ drop (i + 1) domain) tld)
            reps
    | None => []
    end) domain).

Definition _character_substitution (domain tld : pystr) : gset pystr :=
  added (replacements CHAR_SUBSTITUTIONS domain tld).

Definition insertions (domain tld : pystr) : list pystr :=
  flat_map (λ i,
    flat_map (λ char,
      let variant := take i domain ++ [char] ++ drop i domain in
      if (length variant <=? 63)%nat then [fqdn variant tld] else [])
      insertion_alphabet)
    (seq 0 (length domain + 1)).

Definition _character_insertion (domain tld : pystr) : gset pystr :=
  added (insertions domain tld).

Definition swaps (domain tld : pystr) : list pystr :=
  flat_map (λ i,
    match domain !! i, domain !! (i + 1)%nat with
    | Some a, Some b =>
        [fqdn (<[i := b]> (<[(i + 1)%nat := a]> domain)) tld]
    | _, _ => []
    end) (seq 0 (length domain - 1)).

Definition _character_swap (domain tld : pystr) : gset pystr :=
  added (swaps domain tld).

Definition _keyboard_typos (domain tld : pystr) : gset pystr :=
  added (replacements
           (map (λ kv, (kv.1, map (λ c, [c]) kv.2)) KEYBOARD_ADJACENCY)
           domain tld).

Definition _homograph_variants (domain tld : pystr) : gset pystr :=
  added (replacements homographs domain tld).

Definition tld_variants (domain : pystr) : list pystr :=
  map (λ tld, fqdn domain tld) COMMON_TLDS.

Definition _tld_variations (domain : pystr) : gset pystr :=
  added (tld_variants domain).

Definition hyphenations (domain tld : pystr) : list pystr :=
  map (λ i, fqdn (take i domain ++ [hyphen] ++ drop i domain) tld)
      (seq 1 (length domain - 1)).

Definition _hyphenation (domain tld : pystr) : gset pystr :=
  added (hyphenations domain tld).

Definition affixed (domain tld : pystr) : list pystr :=
  flat_map (λ prefix,
    flat_map (λ suffix,
      if truthy prefix || truthy suffix then
        let parts := filter (λ p, truthy p = true) [prefix; domain; suffix] in
        [fqdn (join [hyphen] parts) tld]
      else [])
      suffixes)
    prefixes.

Definition _prefix_suffix (domain tld : pystr) : gset pystr :=
  added (affixed domain tld).

(** Everything the ten operators add, in the order of the calls. *)
Definition operator_outputs (domain tld : pystr) : list pystr :=
  omissions domain tld ++ repetitions domain tld
  ++ replacements CHAR_SUBSTITUTIONS domain tld
  ++ insertions domain tld ++ swaps domain tld
  ++ replacements
       (map (λ kv, (kv.1, map (λ c, [c]) kv.2)) KEYBOARD_ADJACENCY) domain tld
  ++ replacements homographs domain tld
  ++ tld_variants domain ++ hyphenations domain tld ++ affixed domain tld.

(** [variants] as it stands before the [# Limit variants] step. *)
Definition all_operators (domain : pystr) : gset pystr :=
  let parts := extract_domain_parts domain in
  let base_domain := Typosquat.domain parts in
  let original_tld := suffix parts in
  let variants : gset pystr := ∅ in
  let variants := variants ∪ _character_omission base_domain original_tld in
  let variants := variants ∪ _character_repetition base_domain original_tld in
  let variants := variants ∪ _character_substitution base_domain original_tld in
  let variants := variants ∪ _character_insertion base_domain original_tld in
  let variants := variants ∪ _character_swap base_domain original_tld in
  let variants := variants ∪ _keyboard_typos base_domain original_tld in
  let variants := variants ∪ _homograph_variants base_domain original_tld in
  let variants := variants ∪ _tld_variations base_domain in
  let variants := variants ∪ _hyphenation base_domain original_tld in
  let variants := variants ∪ _prefix_suffix base_domain original_tld in
  variants.

Definition generate_all_variants (domain : pystr) (max_variants : Z)
    : gset pystr :=
  let variants := all_operators domain in
  if Z.of_nat (size variants) >? max_variants
  then list_to_set (slice_to (set_iter variants) max_variants)
  else variants.
End Generator.

(** Two of the orders in which a set can be iterated: [x] comes first,
    or last, and the other elements follow in the order of [elements]. *)
Definition putting_first (x : pystr) (s : gset pystr) : list pystr :=
  if bool_decide (x ∈ s) then x :: elements (s ∖ {[x]}) else elements s.

Definition putting_last (x : pystr) (s : gset pystr) : list pystr :=
  if bool_decide (x ∈ s) then elements (s ∖ {[x]}) ++ [x] else elements s.

(** A stand-in for [tldextract] on plain host names: the suffix is the
    longest entry of [known] that the name ends with after a dot, the
    registrable label is the label before it, the rest is the subdomain. *)
Definition psl_extract (known : list pystr) (name : pystr) : DomainParts :=
  let labels := split_on dot name in
  let fits (n : nat) :=
    (0 <? n)%nat && (n <? length labels)%nat
    && str_in (join [dot] (drop (length labels - n) labels)) known in
  let n := default 0%nat (head (filter (λ n, fits n = true)
                                 (reverse (seq 0 (length labels))))) in
  let front := take (length labels - n) labels in
  {| subdomain := join [dot] (take (length front - 1) front);
     domain := default [] (last front);
     suffix := join [dot] (drop (length labels - n) labels) |}.

(** The strings of a list are all of the form [label.tld]. *)
Definition under (tld : pystr) (xs : list pystr) : Prop :=
  ∀ v, v ∈ xs → ∃ label, v = fqdn label tld.

End Typosquat.

(* ===================================================================== *)
(** ** generators/idn_generator.py *)
(* ===================================================================== *)
Module IDNGenerator.
Import Typosquat.

Definition HOMOGRAPHS : list (pystr * list pystr) :=
  [(lit "a", [[0x430%N]; [0x251%N]; [0x3b1%N]; [0xff41%N]]);
   (lit "b", [[0x42c%N]; [0x15af%N]; [0xff42%N]]);
   (lit "c", [[0x441%N]; [0x3f2%N]; [0x217d%N]; [0xff43%N]]);
   (lit "d", [[0x501%N]; [0x217e%N]; [0xff44%N]]);
   (lit "e", [[0x435%N]; [0x117%N]; [0x3b5%N]; [0xff45%N]]);
   (lit "f", [lit "f"; [0xff46%N]]);
   (lit "g", [[0x261%N]; [0x262%N]; [0xff47%N]]);
   (lit "h", [[0x4bb%N]; [0x4ba%N]; [0xff48%N]]);
   (lit "i", [[0x456%N]; [0x3b9%N]; [0x2170%N]; [0xff49%N]]);
   (lit "j", [[0x458%N]; [0x2149%N]; [0xff4a%N]]);
   (lit "k", [[0x3ba%N]; [0x43a%N]; [0xff4b%N]]);
   (lit "l", [[0x217c%N]; [0x2160%N]; [0xff4c%N]]);
   (lit "m", [lit "m"; [0x217f%N]; [0xff4d%N]]);
   (lit "n", [lit "n"; [0x578%N]; [0xff4e%N]]);
   (lit "o", [[0x43e%N]; [0x3bf%N]; [0x3c3%N]; [0x9e6%N]; [0xff4f%N]]);
   (lit "p", [[0x440%N]; [0x3c1%N]; [0x2ca3%N]; [0xff50%N]]);
   (lit "q", [lit "q"; [0x51b%N]; [0xff51%N]]);
   (lit "r", [lit "r"; [0x433%N]; [0xff52%N]]);
   (lit "s", [[0x455%N]; [0x282%N]; [0xff53%N]]);
   (lit "t", [lit "t"; [0x442%N]; [0xff54%N]]);
   (lit "u", [lit "u"; [0x3c5%N]; [0x57d%N]; [0xff55%N]]);
   (lit "v", [lit "v"; [0x3bd%N]; [0x475%N]; [0xff56%N]]);
   (lit "w", [lit "w"; [0x51d%N]; [0xff57%N]]);
   (lit "x", [lit "x"; [0x445%N]; [0x2179%N]; [0xff58%N]]);
   (lit "y", [lit "y"; [0x443%N]; [0x4af%N]; [0xff59%N]]);
   (lit "z", [lit "z"; [0x1d22%N]; [0xff5a%N]])].

(** [variants.add(x)] for each [x] in turn, returning as soon as
    [len(variants) >= max_variants]. *)
Fixpoint add_until (max_variants : Z) (xs : list pystr)
    (variants : gset pystr) : gset pystr :=
  match xs with
  | [] => variants
  | x :: xs =>
      let variants := {[x]} ∪ variants in
      if Z.of_nat (size variants) >=? max_variants then variants
      else add_until max_variants xs variants
  end.

Section Generate.
Variable unicode_lower : pystr → nat → N → pystr.

(** The first loop: the characters come from [domain_name.lower()], the
    slices from [domain_name]. *)
Definition single_substitutions (domain_name tld : pystr) : list pystr :=
  concat (imap (λ i char,
    match dict_get HOMOGRAPHS [char] with
    | Some homographs =>
        map (λ homograph,
               fqdn (take i domain_name ++ homograph
                     ++ drop (i + 1) domain_name) tld)
            homographs
    | None => []
    end) (lower unicode_lower domain_name)).

(** The second loop: positions [i < j < i + 3], the first two look-alikes
    of each. *)
Definition double_substitutions (domain_name tld : pystr) : list pystr :=
  flat_map (λ i,
    flat_map (λ j,
      match domain_name !! i, domain_name !! j with
      | Some a, Some b =>
          match dict_get HOMOGRAPHS (lower unicode_lower [a]),
                dict_get HOMOGRAPHS (lower unicode_lower [b]) with
          | Some first, Some second =>
              flat_map (λ h1,
                map (λ h2,
                  fqdn (take i domain_name ++ h1
                        ++ take (j - (i + 1)) (drop (i + 1) domain_name)
                        ++ h2 ++ drop (j + 1) domain_name) tld)
                  (take 2 second))
                (take 2 first)
          | _, _ => []
          end
      | _, _ => []
      end)
      (seq (i + 1) (min (i + 3) (length domain_name) - (i + 1))))
    (seq 0 (length domain_name)).

Definition generate_idn_variants (domain : pystr) (max_variants : Z)
    : gset pystr :=
  let parts := split_on dot domain in
  if (length parts <? 2)%nat then ∅
  else
    let domain_name := default [] (head parts) in
    let tld := join [dot] (drop 1 parts) in
    add_until max_variants
      (single_substitutions domain_name tld
       ++ double_substitutions domain_name tld) ∅.
End Generate.

End IDNGenerator.


(* ===================================================================== *)
(** ** utils/validators.py *)
(* ===================================================================== *)
Module Validators.

(** The fragment of Python's [re] syntax the validator uses.  A character
    class is its list of inclusive code-point ranges. *)
Inductive regex :=
| Void
| Eps
| Cls (ranges : list (N * N))
| Seq (r1 r2 : regex)
| Alt (r1 r2 : regex)
| Star (r : regex).

(** [(?:r)?] *)
Definition Opt (r : regex) : regex := Alt r Eps.

(** [(?:r)+] *)
Definition Plus (r : regex) : regex := Seq r (Star r).

(** [r{n}] *)
Fixpoint Times (n : nat) (r : regex) : regex :=
  match n with
  | O => Eps
  | S n => Seq r (Times n r)
  end.

(** [r{0,n}] *)
Fixpoint UpTo (n : nat) (r : regex) : regex :=
  match n with
  | O => Eps
  | S n => Opt (Seq r (UpTo n r))
  end.

(** [r{lo,hi}] *)
Definition Between (lo hi : nat) (r : regex) : regex :=
  Seq (Times lo r) (UpTo (hi - lo) r).

Definition in_ranges (c : N) (ranges : list (N * N)) : bool :=
  existsb (λ lh, (lh.1 <=? c) && (c <=? lh.2))%N ranges.

Fixpoint nullable (r : regex) : bool :=
  match r with
  | Void => false
  | Eps => true
  | Cls _ => false
  | Seq r1 r2 => nullable r1 && nullable r2
  | Alt r1 r2 => nullable r1 || nullable r2
  | Star _ => true
  end.

(** Brzozowski derivative: what is left of [r] after reading [c]. *)
Fixpoint deriv (c : N) (r : regex) : regex :=
  match r with
  | Void => Void
  | Eps => Void
  | Cls ranges => if in_ranges c ranges then Eps else Void
  | Seq r1 r2 =>
      if nullable r1 then Alt (Seq (deriv c r1) r2) (deriv c r2)
      else Seq (deriv c r1) r2
  | Alt r1 r2 => Alt (deriv c r1) (deriv c r2)
  | Star r1 => Seq (deriv c r1) (Star r1)
  end.

(** [r] matches the whole of [s]. *)
Definition fullmatch (r : regex) (s : pystr) : bool :=
  nullable (foldl (λ r c, deriv c r) r s).

(** [re.match('^' r '$', s)]: without [re.MULTILINE], [$] holds at the end
    of the string and also just before a final line feed. *)
Definition match_anchored (r : regex) (s : pystr) : bool :=
  fullmatch r s
  || match last s with
     | Some c => (c =? line_feed)%N && fullmatch r (take (length s - 1) s)
     | None => false
     end.

Definition code (s : string) : N := default 0%N (head (lit s)).

(** [[a-zA-Z0-9]] *)
Definition alnum : regex :=
  Cls [(code "a", code "z"); (code "A", code "Z"); (code "0", code "9")].

(** [[a-zA-Z0-9-]] *)
Definition alnum_hyphen : regex :=
  Cls [(code "a", code "z"); (code "A", code "Z"); (code "0", code "9");
       (hyphen, hyphen)].

(** [[a-zA-Z]] *)
Definition alpha : regex :=
  Cls [(code "a", code "z"); (code "A", code "Z")].

(** [\.] *)
Definition escaped_dot : regex := Cls [(dot, dot)].

(** [(?:[a-zA-Z0-9](?:[a-zA-Z0-9-]{0,61}[a-zA-Z0-9])?\.)+[a-zA-Z]{2,63}],
    the body of [domain_regex] between its anchors. *)
Definition domain_regex : regex :=
  Seq (Plus (Seq (Seq alnum (Opt (Seq (UpTo 61 alnum_hyphen) alnum)))
                 escaped_dot))
      (Between 2 63 alpha).

Definition is_valid_domain (domain : pystr) : bool :=
  if negb (truthy domain) || (255 <? length domain)%nat then false
  else match_anchored domain_regex domain.

(** The characters the grammar is made of: ASCII letters, digits, the
    hyphen and the dot. *)
Definition grammar_char (c : N) : bool :=
  in_ranges c [(code "a", code "z"); (code "A", code "Z");
               (code "0", code "9"); (hyphen, hyphen); (dot, dot)].

(** Every character class of [r] lies within [P]. *)
Fixpoint classes_within (P : N → bool) (r : regex) : Prop :=
  match r with
  | Void | Eps => True
  | Cls ranges => ∀ c, in_ranges c ranges = true → P c = true
  | Seq r1 r2 | Alt r1 r2 => classes_within P r1 ∧ classes_within P r2
  | Star r1 => classes_within P r1
  end.

(** A regex that visibly matches nothing. *)
Fixpoint dead (r : regex) : bool :=
  match r with
  | Void => true
  | Eps | Cls _ | Star _ => false
  | Seq r1 r2 => dead r1 || dead r2
  | Alt r1 r2 => dead r1 && dead r2
  end.

(** What is assumed of CPython's lower-casing of a non-ASCII code point:
    it yields at least one code point and never a line feed. *)
Definition lower_keeps_lines (unicode_lower : pystr → nat → N → pystr) : Prop :=
  ∀ s i c, is_ascii c = false →
    unicode_lower s i c ≠ [] ∧ line_feed ∉ unicode_lower s i c.

Section Normalize.
Variable unicode_lower : pystr → nat → N → pystr.

Definition normalize_domain (domain : pystr) : pystr :=
  if negb (truthy domain) then []
  else lower unicode_lower (strip domain).
End Normalize.

(** Replace the character codes of a goal by their values. *)
Ltac eval_codes :=
  repeat match goal with
         | |- context [code ?s] =>
             let v := eval vm_compute in (code s) in change (code s) with v
         end;
  unfold hyphen, dot, line_feed, in_ranges; cbn [existsb fst snd].

End Validators.
Export Validators.

(* ===================================================================== *)
(** ** The domain grammar in words *)
(* ===================================================================== *)
Module Grammar.

(** The words a regex matches. *)
Inductive star (L : pystr → Prop) : pystr → Prop :=
| star_nil : star L []
| star_app (s1 s2 : pystr) : L s1 → star L s2 → star L (s1 ++ s2).

Fixpoint lang (r : regex) (s : pystr) : Prop :=
  match r with
  | Void => False
  | Eps => s = []
  | Cls ranges => ∃ c, s = [c] ∧ in_ranges c ranges = true
  | Seq r1 r2 => ∃ s1 s2, s = s1 ++ s2 ∧ lang r1 s1 ∧ lang r2 s2
  | Alt r1 r2 => lang r1 s ∨ lang r2 s
  | Star r1 => star (lang r1) s
  end.

Definition is_letter (c : N) : bool :=
  ((code "a" <=? c) && (c <=? code "z")
   || (code "A" <=? c) && (c <=? code "Z"))%N.

Definition is_digit (c : N) : bool :=
  ((code "0" <=? c) && (c <=? code "9"))%N.

(** The comment above [domain_regex], rule by rule: a label is made of
    letters, digits and hyphens, does not start or end with a hyphen, and
    has 1 to 63 characters. *)
Definition is_label (label : pystr) : bool :=
  (1 <=? length label)%nat && (length label <=? 63)%nat
  && forallb (λ c, is_letter c || is_digit c || (c =? hyphen)%N) label
  && negb (bool_decide (head label = Some hyphen))
  && negb (bool_decide (last label = Some hyphen)).

(** The TLD is 2 to 63 letters. *)
Definition is_tld (tld : pystr) : bool :=
  (2 <=? length tld)%nat && (length tld <=? 63)%nat && forallb is_letter tld.

(** A name is one or more labels and a TLD, separated by dots. *)
Definition well_formed (name : pystr) : bool :=
  let parts := split_on dot name in
  (2 <=? length parts)%nat
  && forallb is_label (take (length parts - 1) parts)
  && is_tld (default [] (last parts)).

(** The words over a character class. *)
Definition word (ranges : list (N * N)) (s : pystr) : Prop :=
  Forall (λ c, in_ranges c ranges = true) s.

(** [[a-zA-Z0-9](?:[a-zA-Z0-9-]{0,61}[a-zA-Z0-9])?] *)
Definition label_regex : regex :=
  Seq alnum (Opt (Seq (UpTo 61 alnum_hyphen) alnum)).

(** [labels[0] + "." + ... + labels[-1] + "." + tld]. *)
Definition dotted (labels : list pystr) (tld : pystr) : pystr :=
  concat (map (λ label, label ++ [dot]) labels) ++ tld.

End Grammar.

(** What the tables of the generator hold that the grammar excludes. *)
Module Unusable.
(** Replacements listed in the generator's tables that no host name may
    contain: [@] for [a], [!] for [i] and [$] for [s] in
    [CHAR_SUBSTITUTIONS], and the space among the neighbours of [r] in
    [KEYBOARD_ADJACENCY]. *)
Definition unusable : list (N * N) :=
  [(code "a", code "@"); (code "i", code "!"); (code "s", code "$");
   (code "r", code " ")].
End Unusable.

(* ===================================================================== *)
(** ** Exceptions *)
(* ===================================================================== *)
Module Py.

(** A raised exception: its class and [str(e)]. *)
Record exn := Exc { exn_class : string; exn_str : pystr }.

(** The outcome of a call that may raise. *)
Inductive result (A : Type) :=
| Ok (a : A)
| Raise (e : exn).
Arguments Ok {A} a.
Arguments Raise {A} e.

Definition bind {A B} (m : result A) (k : A → result B) : result B :=
  match m with
  | Ok a => k a
  | Raise e => Raise e
  end.

(** [d[key]] on a dictionary entry that may be missing. *)
Definition getitem {A} (key : string) (v : option A) : result A :=
  match v with
  | Some a => Ok a
  | None => Raise (Exc "KeyError" (lit "'" ++ lit key ++ lit "'"))
  end.

(** [LOAD_GLOBAL name] in a module whose top level binds [globals]
    (no builtin is called [name]). *)
Definition load_global (globals : list string) (name : string) : result unit :=
  if bool_decide (name ∈ globals) then Ok tt
  else Raise (Exc "NameError"
                (lit "name '" ++ lit name ++ lit "' is not defined")).

End Py.

(** [x ← m; k] sequences calls; an exception skips the rest. *)
#[global] Instance result_bind : MBind Py.result := λ A B k m, Py.bind m k.
#[global] Instance result_ret : MRet Py.result := @Py.Ok.

(* ===================================================================== *)
(** ** utils/rate_limiter.py *)
(* ===================================================================== *)
Module RateLimiter.

(** Times are readings of [time.time()], in exact arithmetic on a fixed
    grid of ticks; [period] is in the same unit. *)
Record t := {
  calls : Z;
  period : Z;
  timestamps : list Z
}.

(** [RateLimiter(calls, period)]. *)
Definition __init__ (calls period : Z) : t :=
  {| calls := calls; period := period; timestamps := [] |}.

(** What one [__enter__] did: the limiter afterwards and the argument of
    its [time.sleep] call, if it made one. *)
Record entered := {
  limiter : t;
  slept : option Z
}.

(** [__enter__], given [now], the reading of the first [time.time()], and
    [woke], the reading of the one after [time.sleep].  [None] is the
    [IndexError] of [self.timestamps[0]] on an empty list. *)
Definition __enter__ (self : t) (now woke : Z) : option entered :=
  let current_time := now in
  let kept := filter (λ t, current_time - t < period self) (timestamps self) in
  let record (current_time : Z) (slept : option Z) :=
    {| limiter := {| calls := calls self; period := period self;
                     timestamps := kept ++ [current_time] |};
       slept := slept |} in
  if Z.of_nat (length kept) >=? calls self then
    match kept with
    | [] => None
    | oldest_call :: _ =>
        let sleep_time := period self - (current_time - oldest_call) in
        if sleep_time >? 0 then Some (record woke (Some sleep_time))
        else Some (record current_time None)
    end
  else Some (record current_time None).

(** The entries recorded within the last [period] before [now]. *)
Definition in_window (self : t) (now : Z) : list Z :=
  filter (λ t, now - t < period self) (timestamps self).

(** "At most [calls] entries recorded in the last [period]", at [now]. *)
Definition within_limit (self : t) (now : Z) : Prop :=
  Z.of_nat (length (in_window self now)) ≤ calls self.

End RateLimiter.

(* ===================================================================== *)
(** ** utils/rate_limiter.py: successive entries *)
(* ===================================================================== *)
Module Sessions.
Import RateLimiter.

(** The time an entry recorded: the timestamp it appended. *)
Definition entry_time (e : entered) : Z :=
  default 0 (last (timestamps (limiter e))).

(** Successive [with limiter:] blocks on one limiter.  [readings] holds,
    for each block, the clock on entry and the clock after its sleep; the
    result lists what each [__enter__] did, or is [None] when one of them
    raised. *)
Fixpoint enter_each (self : t) (readings : list (Z * Z))
    : option (list entered) :=
  match readings with
  | [] => Some []
  | (now, woke) :: readings =>
      e ← __enter__ self now woke;
      rest ← enter_each (limiter e) readings;
      Some (e :: rest)
  end.

(** What is assumed of the clock along such a run: it does not go back
    between one recorded entry and the next reading, and a [time.sleep]
    lasts at least as long as asked. *)
Fixpoint honest (self : t) (last_time : Z) (readings : list (Z * Z)) : Prop :=
  match readings with
  | [] => True
  | (now, woke) :: readings =>
      last_time ≤ now
      ∧ match __enter__ self now woke with
        | Some e =>
            match slept e with
            | Some sleep_time => now + sleep_time ≤ woke
            | None => True
            end
            ∧ honest (limiter e) (entry_time e) readings
        | None => True
        end
  end.

(** How many of the entry times [times] lie in the window of length
    [period] that ends at [t]. *)
Definition entries_within (period : Z) (times : list Z) (t : Z) : nat :=
  length (filter (λ u, t - u < period) times).

(** What the run keeps true: the entries the limiter still holds are all
    that matters of the history for any later window, and the limit holds
    at the last recorded time. *)
Definition inv (self : t) (history : list Z) (last_time : Z) : Prop :=
  (∀ x, last_time ≤ x →
        filter (λ u, x - u < period self) history
        = filter (λ u, x - u < period self) (timestamps self))
  ∧ Z.of_nat (entries_within (period self) (timestamps self) last_time)
    ≤ calls self.

End Sessions.

(* ===================================================================== *)
(** ** Data passed between the components *)
(* ===================================================================== *)

(** An entry of the target list (a dictionary loaded from YAML):
    [cse['name']] and [cse['primary_domain']] raise [KeyError] when the key
    is missing, the two list keys are read with [.get(key, [])]. *)
Module Target.
Record t := {
  name : option pystr;
  primary_domain : option pystr;
  keywords : list pystr;
  additional_domains : list pystr
}.
End Target.

(** JSON-like values kept in [raw_data]: a dictionary is the chain of its
    items, ended by [JEmpty]. *)
Inductive Json :=
| JNull
| JStr (s : pystr)
| JEmpty
| JItem (key : string) (value : Json) (rest : Json).

(** The dictionary a source emits for one discovered domain; the keys are
    those every source fills in, [is_idn] and [idn_original] are optional
    and read with [.get]. *)
Module DomainData.
Record t := {
  domain_name : pystr;
  url : pystr;
  target_cse_name : pystr;
  target_cse_domain : pystr;
  discovery_method : pystr;
  raw_data : Json;
  is_idn : option bool;
  idn_original : option pystr
}.
End DomainData.

(** database/models.py, the columns the crawlers write. *)
Module Models.
Record DiscoveredDomain := {
  domain_name : pystr;
  url : pystr;
  target_cse_name : pystr;
  target_cse_domain : pystr;
  source_of_detection : pystr;
  discovery_method : pystr;
  raw_data : Json;
  is_idn : bool;
  idn_original : option pystr
}.

Record CrawlerLog := {
  id : nat;
  crawler_name : pystr;
  status : string;
  end_time_set : bool;
  domains_discovered : nat;
  errors_encountered : nat;
  error_details : option (list pystr)
}.

(** The two tables, rows in insertion order. *)
Record Database := {
  discovered_domains : list DiscoveredDomain;
  crawler_logs : list CrawlerLog
}.
End Models.

(** The legitimate-domain filter as the sources that have one write it
    ([_is_legitimate_domain] in cert_transparency.py, and the same loop in
    web_search.py, paste_sites.py and social_media.py). *)
Module Legitimate.
Definition legitimate_domains (primary_domain : pystr)
    (target_cse : Target.t) : list pystr :=
  [primary_domain] ++ Target.additional_domains target_cse.

Definition matches_legit (domain legit : pystr) : bool :=
  str_eqb domain legit || endswith domain (dot :: legit).

Definition _is_legitimate_domain (domain : pystr) (target_cse : Target.t)
    : Py.result bool :=
  primary_domain ← Py.getitem "primary_domain" (Target.primary_domain target_cse);
  mret (existsb (matches_legit domain)
          (legitimate_domains primary_domain target_cse)).
End Legitimate.

(* ===================================================================== *)
(** ** crawlers/whois_crawler.py *)
(* ===================================================================== *)
Module WHOISCrawler.
Import Typosquat.

(** The names the module binds at top level: its imports and its class.
    There is no [import time]. *)
Definition module_globals : list string :=
  ["whois"; "dns"; "List"; "Dict"; "Optional"; "BaseCrawler";
   "TyposquatGenerator"; "socket"; "datetime"; "timedelta";
   "WHOISCrawler"]%string.

(** What [dns_resolver.resolve(domain, 'A')] does. *)
Inductive DnsOutcome := Answer | NXDOMAIN | NoAnswer | OtherFailure.

(** The dictionary [_get_whois_data] builds: the creation date after
    [_safe_parse], and the remaining fields. *)
Record WhoisData := {
  creation_date : option pystr;
  other_fields : Json
}.

Section Crawl.
Variable unicode_lower : pystr → nat → N → pystr.
Variable extract_domain_parts : pystr → DomainParts.
Variable set_iter : gset pystr → list pystr.
(** The network: the resolver, and [whois.whois] followed by the field
    extraction (which may raise). *)
Variable resolve : pystr → DnsOutcome.
Variable whois_query : pystr → Py.result WhoisData.
(** [(datetime.now() - created).days] for a creation date string, [None]
    when [fromisoformat] or the subtraction raises. *)
Variable age_days : pystr → option Z.

Definition _domain_exists (domain : pystr) : bool :=
  match resolve domain with
  | Answer => true
  | NXDOMAIN => false
  | NoAnswer => true
  | OtherFailure => false
  end.

(** The [try] block starts with [time.sleep(1.2)]; looking the global
    [time] up comes first, and [except Exception] turns whatever is raised
    into [None]. *)
Definition _get_whois_data (domain : pystr) : option WhoisData :=
  let attempt : Py.result WhoisData :=
    _ ← Py.load_global module_globals "time";
    w ← whois_query domain;
    mret w in
  match attempt with
  | Py.Ok w => Some w
  | Py.Raise _ => None
  end.

Definition _is_recently_registered (whois_data : WhoisData) (days : Z) : bool :=
  match creation_date whois_data with
  | None => true
  | Some created =>
      if negb (truthy created) then true
      else match age_days created with
           | Some age => age <=? days
           | None => true
           end
  end.

(** One iteration of the loop over the variants: the records it appends.
    An exception inside the [try] (here the [KeyError] of
    [target_cse['name']]) is logged and the loop continues. *)
Definition check_variant (target_cse : Target.t) (primary_domain : pystr)
    (variant_domain : pystr) : list DomainData.t :=
  if _domain_exists variant_domain then
    match _get_whois_data variant_domain with
    | Some whois_data =>
        if _is_recently_registered whois_data 90 then
          match Py.getitem "name" (Target.name target_cse) with
          | Py.Ok name =>
              [ {| DomainData.domain_name := variant_domain;
                   DomainData.url := lit "http://" ++ variant_domain;
                   DomainData.target_cse_name := name;
                   DomainData.target_cse_domain := primary_domain;
                   DomainData.discovery_method := lit "whois_typosquat";
                   DomainData.raw_data :=
                     JItem "whois" (other_fields whois_data)
                       (JItem "generation_method" (JStr (lit "typosquatting"))
                          JEmpty);
                   DomainData.is_idn := None;
                   DomainData.idn_original := None |} ]
          | Py.Raise _ => []
          end
        else []
    | None => []
    end
  else [].

Definition crawl (target_cse : Target.t) : Py.result (list DomainData.t) :=
  primary_domain ← Py.getitem "primary_domain" (Target.primary_domain target_cse);
  let variants :=
    generate_all_variants unicode_lower extract_domain_parts set_iter
      primary_domain 150 in
  mret (flat_map (check_variant target_cse primary_domain) (set_iter variants)).
End Crawl.

End WHOISCrawler.

(* ===================================================================== *)
(** ** crawlers/base_crawler.py *)
(* ===================================================================== *)
Module BaseCrawler.
Import Models.

(** The attributes [__init__] sets (the logger apart). *)
Record t := {
  name : pystr;
  rate_limiter : RateLimiter.t;
  domains_found : list pystr;
  log_id : option nat
}.

Definition __init__ (name : pystr) : t :=
  {| name := name;
     rate_limiter := RateLimiter.__init__ 10 60;
     domains_found := [];
     log_id := None |}.

(** The crawler object and the database it writes to. *)
Record World := {
  self : t;
  db : Database
}.

(** The dictionary [run] returns. *)
Record Summary := {
  crawler : pystr;
  summary_domains_found : nat;
  cses_processed : nat;
  errors : nat
}.

Definition set_db (w : World) (d : Database) : World :=
  {| self := self w; db := d |}.

Definition set_self (w : World) (c : t) : World :=
  {| self := c; db := db w |}.

(** The key the autoincrement column of [crawler_logs] gives a new row: a
    positive key that no row of the table has.  The model takes the one
    after the largest key in the table. *)
Definition next_id (logs : list CrawlerLog) : nat :=
  S (max_list (map id logs)).

(** [start_logging]: insert a [running] row and remember the id the
    database gave it. *)
Definition start_logging (w : World) : World :=
  let log_entry :=
    {| id := next_id (crawler_logs (db w));
       crawler_name := name (self w);
       status := "running";
       end_time_set := false;
       domains_discovered := 0;
       errors_encountered := 0;
       error_details := None |} in
  {| self := {| name := name (self w);
                rate_limiter := rate_limiter (self w);
                domains_found := domains_found (self w);
                log_id := Some (id log_entry) |};
     db := {| discovered_domains := discovered_domains (db w);
              crawler_logs := crawler_logs (db w) ++ [log_entry] |} |}.

(** [bool(errors)] for the optional list argument. *)
Definition given (errors : option (list pystr)) : list pystr :=
  default [] errors.

(** The row [end_logging] writes back in place of [log_entry]. *)
Definition finalized (w : World) (status : string)
    (errors : option (list pystr)) (log_entry : CrawlerLog) : CrawlerLog :=
  {| id := id log_entry;
     crawler_name := crawler_name log_entry;
     status := status;
     end_time_set := true;
     domains_discovered := length (domains_found (self w));
     errors_encountered := length (given errors);
     error_details :=
       match given errors with
       | [] => None
       | _ => errors
       end |}.

(** [query(...).filter_by(id=...).first()] followed by the update. *)
Fixpoint update_first (log_id : nat) (f : CrawlerLog → CrawlerLog)
    (logs : list CrawlerLog) : list CrawlerLog :=
  match logs with
  | [] => []
  | l :: rest =>
      if (id l =? log_id)%nat then f l :: rest
      else l :: update_first log_id f rest
  end.

Definition end_logging (status : string) (errors : option (list pystr))
    (w : World) : World :=
  match log_id (self w) with
  | None | Some O => w
  | Some log_id =>
      set_db w {| discovered_domains := discovered_domains (db w);
                  crawler_logs :=
                    update_first log_id (finalized w status errors)
                      (crawler_logs (db w)) |}
  end.

(** A target without a ['name'] key. *)
Definition nameless (cse : Target.t) : bool :=
  match Target.name cse with
  | Some _ => false
  | None => true
  end.

(** The names in the domain table, in insertion order. *)
Definition stored_names (w : World) : list pystr :=
  map Models.domain_name (discovered_domains (db w)).

(** What the steps of one run leave alone: the crawler's name, log id and
    rate limit, the log table, and every name already in the domain
    table. *)
Definition extends (w w' : World) : Prop :=
  name (self w') = name (self w)
  ∧ log_id (self w') = log_id (self w)
  ∧ crawler_logs (db w') = crawler_logs (db w)
  ∧ RateLimiter.calls (rate_limiter (self w'))
    = RateLimiter.calls (rate_limiter (self w))
  ∧ stored_names w ⊆ stored_names w'.

Section Save.
Variable unicode_lower : pystr → nat → N → pystr.

(** [save_domain]: the value returned and the state afterwards. *)
Definition save_domain (domain_data : DomainData.t) (w : World)
    : bool * World :=
  let domain_name :=
    normalize_domain unicode_lower (DomainData.domain_name domain_data) in
  if negb (is_valid_domain domain_name) then (false, w)
  else
    let existing :=
      find (λ row, str_eqb (Models.domain_name row) domain_name)
           (discovered_domains (db w)) in
    match existing with
    | Some _ => (false, w)
    | None =>
        let domain_entry :=
          {| Models.domain_name := domain_name;
             Models.url := DomainData.url domain_data;
             Models.target_cse_name := DomainData.target_cse_name domain_data;
             Models.target_cse_domain := DomainData.target_cse_domain domain_data;
             Models.source_of_detection := name (self w);
             Models.discovery_method := DomainData.discovery_method domain_data;
             Models.raw_data := DomainData.raw_data domain_data;
             Models.is_idn := default false (DomainData.is_idn domain_data);
             Models.idn_original := DomainData.idn_original domain_data |} in
        (true,
         {| self := {| name := name (self w);
                       rate_limiter := rate_limiter (self w);
                       domains_found := domains_found (self w) ++ [domain_name];
                       log_id := log_id (self w) |};
            db := {| discovered_domains :=
                       discovered_domains (db w) ++ [domain_entry];
                     crawler_logs := crawler_logs (db w) |} |})
    end.

(** [for domain_data in discovered: self.save_domain(domain_data)]. *)
Definition save_all (discovered : list DomainData.t) (w : World) : World :=
  foldl (λ w domain_data, (save_domain domain_data w).2) w discovered.

(** The abstract [crawl] of the source being run. *)
Variable crawl : Target.t → Py.result (list DomainData.t).
(** The readings of [time.time()] inside the rate limiter while the
    [i]-th target is processed: on entry, and after a sleep. *)
Variable clock : nat → Z * Z.

(** The body of the inner [try]: enter the rate limiter, crawl, save. *)
Definition crawl_one (i : nat) (cse : Target.t) (w : World)
    : Py.result unit * World :=
  match RateLimiter.__enter__ (rate_limiter (self w)) (clock i).1 (clock i).2 with
  | None => (Py.Raise (Py.Exc "IndexError" (lit "list index out of range")), w)
  | Some entered =>
      let w :=
        set_self w {| name := name (self w);
                      rate_limiter := RateLimiter.limiter entered;
                      domains_found := domains_found (self w);
                      log_id := log_id (self w) |} in
      match crawl cse with
      | Py.Raise e => (Py.Raise e, w)
      | Py.Ok discovered => (Py.Ok tt, save_all discovered w)
      end
  end.

(** The [for cse in cse_targets] loop from its [i]-th iteration on, with
    the error list so far.  [cse['name']] is read for the log line before
    the inner [try]; its [KeyError] leaves the loop. *)
Fixpoint crawl_targets (i : nat) (cse_targets : list Target.t)
    (errors : list pystr) (w : World) : Py.result (list pystr) * World :=
  match cse_targets with
  | [] => (Py.Ok errors, w)
  | cse :: rest =>
      match Py.getitem "name" (Target.name cse) with
      | Py.Raise e => (Py.Raise e, w)
      | Py.Ok cse_name =>
          match crawl_one i cse w with
          | (Py.Ok _, w) => crawl_targets (S i) rest errors w
          | (Py.Raise e, w) =>
              let error_msg :=
                lit "Error crawling " ++ cse_name ++ lit ": " ++ Py.exn_str e in
              crawl_targets (S i) rest (errors ++ [error_msg]) w
          end
      end
  end.

(** The error list a run over [cse_targets] ends with when nothing
    leaves the loop: one message per target whose [crawl] raised. *)
Definition error_messages (cse_targets : list Target.t) : list pystr :=
  flat_map (λ cse,
    match Target.name cse, crawl cse with
    | Some cse_name, Py.Raise e =>
        [lit "Error crawling " ++ cse_name ++ lit ": " ++ Py.exn_str e]
    | _, _ => []
    end) cse_targets.

Definition run (cse_targets : list Target.t) (w : World)
    : Py.result Summary * World :=
  let w := start_logging w in
  match crawl_targets 0 cse_targets [] w with
  | (Py.Ok errors, w) =>
      let w := end_logging "completed" (Some errors) w in
      (Py.Ok {| crawler := name (self w);
                summary_domains_found := length (domains_found (self w));
                cses_processed := length cse_targets;
                errors := length errors |}, w)
  | (Py.Raise e, w) =>
      let w := end_logging "failed" (Some [Py.exn_str e]) w in
      (Py.Raise e, w)
  end.
End Save.

End BaseCrawler.

(** What a run adds to the tables. *)
Module Appends.
Import BaseCrawler Models.

(** [w'] is [w] with the rows [rows] appended to the domain table by the
    crawler of [w]: the rows carry its name and valid names, the same names
    have been appended to its [domains_found], and names that were unique
    in the table still are. *)
Definition appended (w w' : World) (rows : list DiscoveredDomain) : Prop :=
  discovered_domains (db w') = discovered_domains (db w) ++ rows
  ∧ domains_found (self w')
    = domains_found (self w) ++ map Models.domain_name rows
  ∧ name (self w') = name (self w)
  ∧ Forall (λ row, source_of_detection row = name (self w)
                   ∧ is_valid_domain (Models.domain_name row) = true) rows
  ∧ (NoDup (stored_names w) → NoDup (stored_names w')).

(** The row [save_domain] writes for a finding: its normalised name and
    the fields copied from it. *)
Definition stores (unicode_lower : pystr → nat → N → pystr)
    (domain_data : DomainData.t) (row : DiscoveredDomain) : Prop :=
  Models.domain_name row
  = normalize_domain unicode_lower (DomainData.domain_name domain_data)
  ∧ Models.url row = DomainData.url domain_data
  ∧ Models.target_cse_name row = DomainData.target_cse_name domain_data
  ∧ Models.target_cse_domain row = DomainData.target_cse_domain domain_data
  ∧ Models.discovery_method row = DomainData.discovery_method domain_data.

(** A row that stores a finding returned by a successful [crawl] on one
    of the targets. *)
Definition found_by (unicode_lower : pystr → nat → N → pystr)
    (crawl : Target.t → Py.result (list DomainData.t))
    (cse_targets : list Target.t) (row : DiscoveredDomain) : Prop :=
  ∃ cse discovered domain_data,
    cse ∈ cse_targets ∧ crawl cse = Py.Ok discovered
    ∧ domain_data ∈ discovered ∧ stores unicode_lower domain_data row.

End Appends.

(* ===================================================================== *)
(** ** crawlers/cert_transparency.py: the subscriber *)
(* ===================================================================== *)
Module CertTransparencyCrawler.

(** The attributes the subscriber thread reads and writes. *)
Record t := {
  stop_monitoring : bool;
  max_retries : Z;
  retry_count : Z
}.

(** [__init__]. *)
Definition __init__ : t :=
  {| stop_monitoring := false; max_retries := 3; retry_count := 0 |}.

(** One call of [certstream.listen_for_events], as the loop sees it:
    whether the callback completed a [certificate_update] while the stop
    flag was clear (it then sets [retry_count = 0]), whether the consumer
    set the stop flag meanwhile, and whether the call ended by raising. *)
Record Connection := {
  delivered : bool;
  stopped_by_consumer : bool;
  raised : bool
}.

(** What the thread did: the connection attempts it made and the arguments
    of its [time.sleep] calls, in order. *)
Record Trace := {
  final : t;
  attempts : nat;
  sleeps : list Z
}.

(** The [while] loop of [_monitor_ct_logs] against the connections the
    feed offers; when the list runs out the thread is still inside
    [listen_for_events]. *)
Fixpoint _monitor_ct_logs (feed : list Connection) (self : t) : Trace :=
  match feed with
  | [] => {| final := self; attempts := 0; sleeps := [] |}
  | c :: feed =>
      if (retry_count self <? max_retries self) && negb (stop_monitoring self)
      then
        let retry_count := if delivered c then 0 else retry_count self in
        let stop := stop_monitoring self || stopped_by_consumer c in
        if raised c then
          let retry_count := retry_count + 1 in
          if retry_count <? max_retries self then
            let sleep_time := 5 * retry_count in
            let rest :=
              _monitor_ct_logs feed
                {| stop_monitoring := stop;
                   max_retries := max_retries self;
                   retry_count := retry_count |} in
            {| final := final rest;
               attempts := S (attempts rest);
               sleeps := sleep_time :: sleeps rest |}
          else
            {| final := {| stop_monitoring := true;
                           max_retries := max_retries self;
                           retry_count := retry_count |};
               attempts := 1;
               sleeps := [] |}
        else
          let rest :=
            _monitor_ct_logs feed
              {| stop_monitoring := stop;
                 max_retries := max_retries self;
                 retry_count := retry_count |} in
          {| final := final rest;
             attempts := S (attempts rest);
             sleeps := sleeps rest |}
      else {| final := self; attempts := 0; sleeps := [] |}
  end.

(** A connection that raised without a certificate having been processed
    and without the consumer having asked to stop. *)
Definition failed (c : Connection) : Prop :=
  raised c = true ∧ delivered c = false ∧ stopped_by_consumer c = false.

End CertTransparencyCrawler.

(* ===================================================================== *)
(** ** crawlers/cert_transparency.py: the consumer *)
(* ===================================================================== *)
Module CertStream.
Import Legitimate.

(** A [cert_data] dictionary taken from the queue: the names the
    certificate covers, and the ['raw_data'] dictionary [crawl] builds from
    its four fields. *)
Record Certificate := {
  all_domains : list pystr;
  raw : Json
}.

(** What [self.cert_queue.get(timeout=10)] does while the monitoring
    deadline has not passed: it returns a certificate, or raises
    [queue.Empty], more than 30 seconds after the start or not. *)
Inductive QueueEvent :=
| Got (cert_data : Certificate)
| Empty (inactive : bool).

Section Crawl.
Variable unicode_lower : pystr → nat → N → pystr.

(** The loop over [keywords] for one name of a certificate: the record it
    appends before [break], if any. *)
Fixpoint scan_keywords (cert_data : Certificate) (target_cse : Target.t)
    (domain domain_lower : pystr) (keywords : list pystr)
    : Py.result (option DomainData.t) :=
  match keywords with
  | [] => mret None
  | keyword :: keywords =>
      if contains domain_lower (lower unicode_lower keyword) then
        legitimate ← _is_legitimate_domain domain target_cse;
        if negb legitimate then
          name ← Py.getitem "name" (Target.name target_cse);
          primary_domain ←
            Py.getitem "primary_domain" (Target.primary_domain target_cse);
          mret (Some {| DomainData.domain_name := domain;
                        DomainData.url := lit "https://" ++ domain;
                        DomainData.target_cse_name := name;
                        DomainData.target_cse_domain := primary_domain;
                        DomainData.discovery_method :=
                          lit "certificate_transparency";
                        DomainData.raw_data := raw cert_data;
                        DomainData.is_idn := Some (_is_idn_domain domain);
                        DomainData.idn_original := None |})
        else scan_keywords cert_data target_cse domain domain_lower keywords
      else scan_keywords cert_data target_cse domain domain_lower keywords
  end.

(** The loop over the names of one certificate: the records appended to
    [discovered], and the exception that ended the loop early, if one did
    ([except Exception] logs it and goes on to the next certificate). *)
Fixpoint scan_domains (cert_data : Certificate) (target_cse : Target.t)
    (keywords : list pystr) (domains : list pystr)
    : list DomainData.t * option Py.exn :=
  match domains with
  | [] => ([], None)
  | domain :: domains =>
      match scan_keywords cert_data target_cse domain
              (lower unicode_lower domain) keywords with
      | Py.Raise e => ([], Some e)
      | Py.Ok found =>
          let later := scan_domains cert_data target_cse keywords domains in
          (option_list found ++ later.1, later.2)
      end
  end.

(** The [while] loop over the queue, until the deadline (the end of
    [events]) or the first [queue.Empty] of an inactive stream. *)
Fixpoint consume (target_cse : Target.t) (keywords : list pystr)
    (events : list QueueEvent) : list DomainData.t :=
  match events with
  | [] => []
  | Got cert_data :: events =>
      (scan_domains cert_data target_cse keywords (all_domains cert_data)).1
      ++ consume target_cse keywords events
  | Empty true :: _ => []
  | Empty false :: events => consume target_cse keywords events
  end.

(** [crawl]: the log line reads [target_cse['name']] before anything
    else. *)
Definition crawl (events : list QueueEvent) (target_cse : Target.t)
    : Py.result (list DomainData.t) :=
  _ ← Py.getitem "name" (Target.name target_cse);
  mret (consume target_cse (Target.keywords target_cse) events).

(** Some keyword occurs in the name, case-insensitively. *)
Definition matches_keyword (keywords : list pystr) (domain : pystr) : bool :=
  existsb (λ keyword,
             contains (lower unicode_lower domain) (lower unicode_lower keyword))
          keywords.

End Crawl.

(** The certificates processed: those received before the stream is
    declared inactive. *)
Fixpoint processed (events : list QueueEvent) : list Certificate :=
  match events with
  | [] => []
  | Got cert_data :: events => cert_data :: processed events
  | Empty true :: _ => []
  | Empty false :: events => processed events
  end.

End CertStream.

(* ===================================================================== *)
(** ** main.py: the discovery phase *)
(* ===================================================================== *)
Module Orchestrator.
Import BaseCrawler Models.

(** A discovery module: the crawler object, its [crawl] method and the
    clock readings inside its rate limiter. *)
Record Source := {
  state : BaseCrawler.t;
  crawl : Target.t → Py.result (list DomainData.t);
  clock : nat → Z * Z
}.

Section Discovery.
Variable unicode_lower : pystr → nat → N → pystr.

(** [crawler.run(targets)] against the shared database. *)
Definition run_source (targets : list Target.t) (source : Source)
    (database : Database) : Py.result Summary * (Source * Database) :=
  let outcome :=
    run unicode_lower (crawl source) (clock source) targets
      {| self := state source; db := database |} in
  (outcome.1,
   ({| state := self outcome.2; crawl := crawl source; clock := clock source |},
    db outcome.2)).

(** The loop of [run_discovery] over [self.crawlers]: a crawler whose
    [run] raises is logged and skipped, the others add their
    ['domains_found'] to the total. *)
Fixpoint run_discovery (targets : list Target.t) (crawlers : list Source)
    (total_found : nat) (database : Database)
    : nat * (list Source * Database) :=
  match crawlers with
  | [] => (total_found, ([], database))
  | crawler :: rest =>
      let ran := run_source targets crawler database in
      let total_found :=
        match ran.1 with
        | Py.Ok summary => (total_found + summary_domains_found summary)%nat
        | Py.Raise _ => total_found
        end in
      let later := run_discovery targets rest total_found ran.2.2 in
      (later.1, (ran.2.1 :: later.2.1, later.2.2))
  end.
End Discovery.

End Orchestrator.

(* ===================================================================== *)
(** ** Example data *)
(* ===================================================================== *)
Module Examples.

(** The target of the end-to-end scenario. *)
Definition acme : Target.t :=
  {| Target.name := Some (lit "Acme Bank");
     Target.primary_domain := Some (lit "acmebank.com");
     Target.keywords := [lit "acme"];
     Target.additional_domains := [] |}.

(** A finding for that target, as a source would emit it. *)
Definition finding (domain_name : pystr) : DomainData.t :=
  {| DomainData.domain_name := domain_name;
     DomainData.url := lit "http://" ++ domain_name;
     DomainData.target_cse_name := lit "Acme Bank";
     DomainData.target_cse_domain := lit "acmebank.com";
     DomainData.discovery_method := lit "whois_typosquat";
     DomainData.raw_data := JEmpty;
     DomainData.is_idn := None;
     DomainData.idn_original := None |}.

(** A newly constructed crawler over empty tables. *)
Definition fresh (name : pystr) : BaseCrawler.World :=
  {| BaseCrawler.self := BaseCrawler.__init__ name;
     BaseCrawler.db := {| Models.discovered_domains := [];
                          Models.crawler_logs := [] |} |}.

(** tldextract on the hosts of the examples. *)
Definition extract : pystr → Typosquat.DomainParts :=
  Typosquat.psl_extract Typosquat.COMMON_TLDS.

(** A target whose YAML entry lacks its primary domain. *)
Definition unlisted : Target.t :=
  {| Target.name := Some (lit "Unlisted");
     Target.primary_domain := None;
     Target.keywords := [];
     Target.additional_domains := [] |}.

(** The WHOIS source on a network where nothing resolves. *)
Definition offline_whois : Target.t → Py.result (list DomainData.t) :=
  WHOISCrawler.crawl caseless extract elements
    (λ _, WHOISCrawler.NXDOMAIN)
    (λ _, Py.Raise (Py.Exc "PywhoisError" (lit "no match")))
    (λ _, None).

(** A connection that delivers certificates and then breaks, and one
    that breaks before delivering anything. *)
Definition dropped : CertTransparencyCrawler.Connection :=
  {| CertTransparencyCrawler.delivered := true;
     CertTransparencyCrawler.stopped_by_consumer := false;
     CertTransparencyCrawler.raised := true |}.

Definition refused : CertTransparencyCrawler.Connection :=
  {| CertTransparencyCrawler.delivered := false;
     CertTransparencyCrawler.stopped_by_consumer := false;
     CertTransparencyCrawler.raised := true |}.

(** A clock that reads 0 throughout. *)
Definition still_clock : nat → Z * Z := λ _, (0, 0).

(** A source that fails on a target without a primary domain and reports
    three findings, two of them the same name, on any other. *)
Definition patchy (cse : Target.t) : Py.result (list DomainData.t) :=
  match Target.primary_domain cse with
  | None => Py.Raise (Py.Exc "KeyError" (lit "'primary_domain'"))
  | Some _ =>
      Py.Ok [finding (lit "acmebank-login.com");
             finding (lit "ACMEBANK-login.com ");
             finding (lit "acme-secure.net")]
  end.

(** A newly constructed crawler over a database that has been in use: the
    domain table holds a name an earlier run stored, and the log table
    the rows of the first and third run, the second one's deleted. *)
Definition restarted (name : pystr) : BaseCrawler.World :=
  let earlier (id : nat) : Models.CrawlerLog :=
    {| Models.id := id;
       Models.crawler_name := name;
       Models.status := "completed";
       Models.end_time_set := true;
       Models.domains_discovered := 1;
       Models.errors_encountered := 0;
       Models.error_details := None |} in
  {| BaseCrawler.self := BaseCrawler.__init__ name;
     BaseCrawler.db :=
       {| Models.discovered_domains :=
            Models.discovered_domains
              (BaseCrawler.db
                 (BaseCrawler.save_domain caseless
                    (finding (lit "acme-online.org")) (fresh name)).2);
          Models.crawler_logs := [earlier 1%nat; earlier 3%nat] |} |}.

(** A newly constructed crawler as a discovery module. *)
Definition source (name : pystr)
    (crawl : Target.t → Py.result (list DomainData.t))
    : Orchestrator.Source :=
  {| Orchestrator.state := BaseCrawler.__init__ name;
     Orchestrator.crawl := crawl;
     Orchestrator.clock := still_clock |}.

(** Two modules that report the same domain, spelled differently. *)
Definition both_find : list Orchestrator.Source :=
  [source (lit "cert_transparency")
     (λ _, Py.Ok [finding (lit "acmebank-login.com")]);
   source (lit "whois")
     (λ _, Py.Ok [finding (lit "ACMEBANK-login.com ")])].

Definition empty_tables : Models.Database :=
  {| Models.discovered_domains := []; Models.crawler_logs := [] |}.

End Examples.

(* ===================================================================== *)
(** * Properties *)
(* ===================================================================== *)

(** ** Strings and sets *)
Module PyStrFacts.

Lemma str_eqb_eq (a b : pystr) : str_eqb a b = true ↔ a = b.
Proof. unfold str_eqb. apply bool_decide_eq_true. Qed.

Lemma str_in_elem_of (x : pystr) (l : list pystr) :
  str_in x l = true ↔ x ∈ l.
Proof.
  unfold str_in. rewrite existsb_exists. split.
  - intros (y & Hy & Heq). apply str_eqb_eq in Heq. subst y.
    by apply list_elem_of_In.
  - intros Hx. exists x. split; [by apply list_elem_of_In | by apply str_eqb_eq].
Qed.

Lemma str_in_not_elem_of (x : pystr) (l : list pystr) :
  str_in x l = false ↔ x ∉ l.
Proof.
  rewrite <- str_in_elem_of. destruct (str_in x l); split; congruence.
Qed.

Lemma size_union_le (X Y : gset pystr) : (size (X ∪ Y) ≤ size X + size Y)%nat.
Proof.
  rewrite size_union_alt.
  assert (size (Y ∖ X) ≤ size Y)%nat as Hdiff.
  { apply subseteq_size. intros x Hx. by apply elem_of_difference in Hx as [? _]. }
  lia.
Qed.

Lemma size_added_le (xs : list pystr) :
  (size (Typosquat.added xs) ≤ length xs)%nat.
Proof.
  unfold Typosquat.added. induction xs as [|x xs IH].
  - change (size (∅ : gset pystr) ≤ 0)%nat. by rewrite size_empty.
  - change (size ({[x]} ∪ list_to_set xs : gset pystr) ≤ S (length xs))%nat.
    etrans; [apply size_union_le|]. rewrite size_singleton. lia.
Qed.

Lemma size_added (xs : list pystr) :
  size (Typosquat.added xs) = length (remove_dups xs).
Proof.
  unfold Typosquat.added.
  rewrite <- (size_list_to_set (C := gset pystr) (remove_dups xs))
    by apply NoDup_remove_dups.
  f_equal. apply set_eq. intros x.
  by rewrite !elem_of_list_to_set, elem_of_remove_dups.
Qed.

End PyStrFacts.
Import PyStrFacts.

(** ** The variant generator *)
Module TyposquatFacts.
Import Typosquat.

Section Generator.
Variable unicode_lower : pystr → nat → N → pystr.
Variable extract_domain_parts : pystr → DomainParts.
Variable set_iter : gset pystr → list pystr.

Local Notation all_operators := (all_operators unicode_lower extract_domain_parts).
Local Notation generate_all_variants :=
  (generate_all_variants unicode_lower extract_domain_parts).
Local Notation operator_outputs := (operator_outputs unicode_lower).

(** Below the cap nothing is cut: the result is the union itself. *)
Lemma generate_below_cap (domain : pystr) (max_variants : Z) :
  Z.of_nat (size (all_operators domain)) ≤ max_variants →
  generate_all_variants set_iter domain max_variants = all_operators domain.
Proof.
  intros Hle. unfold Typosquat.generate_all_variants.
  destruct (Z.gtb_spec (Z.of_nat (size (all_operators domain))) max_variants);
    [lia | done].
Qed.

(** Above the cap the result is what the first items of the iteration
    make up. *)
Lemma generate_above_cap (domain : pystr) (max_variants : Z) :
  max_variants < Z.of_nat (size (all_operators domain)) →
  generate_all_variants set_iter domain max_variants =
  list_to_set (slice_to (set_iter (all_operators domain)) max_variants).
Proof.
  intros Hlt. unfold Typosquat.generate_all_variants.
  destruct (Z.gtb_spec (Z.of_nat (size (all_operators domain))) max_variants);
    [done | lia].
Qed.

(** The slice keeps at most [k] items when [k] is not negative. *)
Lemma length_slice_to (xs : list pystr) (k : Z) :
  0 ≤ k → Z.of_nat (length (slice_to xs k)) ≤ k.
Proof.
  intros Hk. unfold slice_to.
  destruct (Z.ltb_spec k 0); [lia|]. rewrite length_take. lia.
Qed.

Lemma all_operators_added (seed : pystr) :
  all_operators seed =
  added (operator_outputs (domain (extract_domain_parts seed))
                          (suffix (extract_domain_parts seed))).
Proof.
  unfold Typosquat.all_operators, Typosquat.operator_outputs, added,
    _character_omission, _character_repetition, _character_substitution,
    _character_insertion, _character_swap, _keyboard_typos,
    _homograph_variants, _tld_variations, _hyphenation, _prefix_suffix, added.
  cbv zeta. apply set_eq. intros x.
  rewrite !elem_of_union, !elem_of_list_to_set, !elem_of_app.
  rewrite elem_of_empty. tauto.
Qed.

(** [_tld_variations] re-suffixes the label with every common TLD, the
    seed's own included. *)
Lemma tld_variations_keep_seed (seed : pystr) :
  suffix (extract_domain_parts seed) ∈ COMMON_TLDS →
  seed = fqdn (domain (extract_domain_parts seed))
              (suffix (extract_domain_parts seed)) →
  seed ∈ all_operators seed.
Proof.
  intros Htld Hseed. unfold Typosquat.all_operators. cbv zeta.
  assert (seed ∈ _tld_variations (domain (extract_domain_parts seed))).
  { unfold _tld_variations, added, tld_variants.
    apply elem_of_list_to_set. rewrite Hseed at 1.
    change (map ?f ?l) with (f <$> l). by apply list_elem_of_fmap_2. }
  do 2 apply elem_of_union_l. by apply elem_of_union_r.
Qed.

End Generator.

(** The seed and the hosts used in the examples: tldextract splits
    [acmebank.com] into the label [acmebank] and the suffix [com]. *)
Lemma acmebank_parts :
  psl_extract COMMON_TLDS (lit "acmebank.com") =
  {| subdomain := []; domain := lit "acmebank"; suffix := lit "com" |}.
Proof. vm_compute. reflexivity. Qed.

Lemma acmebank_union_size (ul : pystr → nat → N → pystr) :
  ul = caseless →
  size (all_operators ul (psl_extract COMMON_TLDS) (lit "acmebank.com")) = 450%nat.
Proof.
  intros ->. rewrite all_operators_added, acmebank_parts, size_added.
  vm_compute. reflexivity.
Qed.

(** C2 (failing input): [generate_all_variants("acmebank.com", 1000)]
    contains ["acmebank.com"], the seed itself, whatever the iteration
    order of the set: the union has 450 elements, nothing is cut, and
    [_tld_variations] has re-attached the seed's own suffix [com]. *)
Theorem generate_all_variants_returns_seed (set_iter : gset pystr → list pystr) :
  lit "acmebank.com" ∈
    generate_all_variants caseless (psl_extract COMMON_TLDS) set_iter
      (lit "acmebank.com") 1000.
Proof.
  rewrite generate_below_cap.
  - apply tld_variations_keep_seed.
    + rewrite acmebank_parts. apply str_in_elem_of. vm_compute. reflexivity.
    + rewrite acmebank_parts. vm_compute. reflexivity.
  - rewrite (acmebank_union_size caseless eq_refl). lia.
Qed.

(** C5: for every seed domain and every cap [max_variants] (a count, so
    not negative), [generate_all_variants] returns at most [max_variants]
    strings, whatever tldextract, the case mapping and the iteration
    order of the set are. *)
Theorem generate_all_variants_size
    (unicode_lower : pystr → nat → N → pystr)
    (extract_domain_parts : pystr → DomainParts)
    (set_iter : gset pystr → list pystr)
    (domain : pystr) (max_variants : Z) :
  0 ≤ max_variants →
  Z.of_nat (size (generate_all_variants unicode_lower extract_domain_parts
                    set_iter domain max_variants)) ≤ max_variants.
Proof.
  intros Hcap. unfold generate_all_variants.
  destruct (Z.gtb_spec
              (Z.of_nat (size (all_operators unicode_lower
                                 extract_domain_parts domain)))
              max_variants) as [Hcut|Hfit]; [|done].
  etrans; [|apply (length_slice_to
                     (set_iter (all_operators unicode_lower
                                  extract_domain_parts domain))
                     max_variants Hcap)].
  apply inj_le. apply (size_added_le (slice_to _ _)).
Qed.

Lemma generate_all_variants_size_witness :
  0 ≤ 150 ∧
  Z.of_nat (size (generate_all_variants caseless (psl_extract COMMON_TLDS)
                    elements (lit "acmebank.com") 150)) ≤ 150.
Proof.
  split; [lia|]. apply generate_all_variants_size. lia.
Defined.

(** What [_character_insertion] adds: one string per position and per
    letter or digit, as long as the label stays within 63 characters. *)
Lemma elem_of_insertions (domain tld v : pystr) :
  v ∈ insertions domain tld ↔
  ∃ (i : nat) (char : N),
    (i ≤ length domain)%nat ∧ char ∈ insertion_alphabet ∧
    (length domain + 1 ≤ 63)%nat ∧
    v = fqdn (take i domain ++ [char] ++ drop i domain) tld.
Proof.
  unfold insertions. rewrite list_elem_of_In, in_flat_map. split.
  - intros (i & Hi & Hv). apply in_flat_map in Hv as (char & Hc & Hv).
    apply list_elem_of_In, elem_of_seq in Hi.
    assert (length (take i domain ++ [char] ++ drop i domain)
            = length domain + 1)%nat as Hlen.
    { rewrite !length_app, length_take, length_drop. simpl. lia. }
    rewrite Hlen in Hv.
    destruct (Nat.leb_spec (length domain + 1) 63) as [Hfit|Hlong].
    + apply list_elem_of_In, list_elem_of_singleton in Hv.
      exists i, char. repeat split; [lia | by apply list_elem_of_In | done | done].
    + by apply list_elem_of_In, elem_of_nil in Hv.
  - intros (i & char & Hi & Hc & Hfit & ->). exists i. split.
    + apply list_elem_of_In, elem_of_seq. lia.
    + apply in_flat_map. exists char. split; [by apply list_elem_of_In|].
      assert (length (take i domain ++ [char] ++ drop i domain)
              = length domain + 1)%nat as Hlen.
      { rewrite !length_app, length_take, length_drop. simpl. lia. }
      rewrite Hlen.
      destruct (Nat.leb_spec (length domain + 1) 63); [|lia].
      apply list_elem_of_In, list_elem_of_singleton. done.
Qed.

(** C7 (as stated) fails: called for the seed [acmebank.com] under a cap
    of 50, the insertion operator still returns all 316 distinct
    insertions. *)
Lemma _character_insertion_ignores_cap :
  let parts := psl_extract COMMON_TLDS (lit "acmebank.com") in
  let max_variants := 50 in
  size (_character_insertion (domain parts) (suffix parts)) = 316%nat
  ∧ ¬ Z.of_nat (size (_character_insertion (domain parts) (suffix parts)))
      ≤ max_variants.
Proof.
  cbv zeta. rewrite acmebank_parts. cbn [domain suffix].
  unfold _character_insertion. rewrite size_added.
  assert (length (remove_dups (insertions (lit "acmebank") (lit "com")))
          = 316%nat) as -> by (vm_compute; reflexivity).
  split; [done | lia].
Qed.

(** C7 (amended): [_character_insertion] takes no cap and never stops
    early; it returns exactly the strings that insert one of the 36 letters
    and digits at one of the [len + 1] positions of the label, provided the
    lengthened label has at most 63 characters.  (The cap acts later, when
    [generate_all_variants] cuts the union.) *)
Theorem _character_insertion_spec (domain tld v : pystr) :
  v ∈ _character_insertion domain tld ↔
  ∃ (i : nat) (char : N),
    (i ≤ length domain)%nat ∧ char ∈ insertion_alphabet ∧
    (length domain + 1 ≤ 63)%nat ∧
    v = fqdn (take i domain ++ [char] ++ drop i domain) tld.
Proof.
  unfold _character_insertion, added.
  rewrite elem_of_list_to_set. apply elem_of_insertions.
Qed.

(** Both orders go through exactly the elements of the set. *)
Lemma putting_first_Permutation (x : pystr) (s : gset pystr) :
  putting_first x s ≡ₚ elements s.
Proof.
  unfold putting_first. case_bool_decide as Hx; [|done].
  rewrite (union_difference_singleton_L x s Hx) at 2.
  symmetry. apply elements_union_singleton.
  rewrite elem_of_difference, elem_of_singleton. tauto.
Qed.

Lemma putting_last_Permutation (x : pystr) (s : gset pystr) :
  putting_last x s ≡ₚ elements s.
Proof.
  rewrite <- (putting_first_Permutation x s).
  unfold putting_last, putting_first. case_bool_decide; [|done].
  by rewrite Permutation_app_comm.
Qed.

(** Cutting after [k] elements keeps [x] under one order and loses it
    under the other, as soon as the set has more than [k] elements. *)
Lemma cut_depends_on_order (variants : gset pystr) (x : pystr) (k : nat) :
  x ∈ variants → (S k < size variants)%nat →
  list_to_set (take (S k) (putting_first x variants))
  ≠@{gset pystr} list_to_set (take (S k) (putting_last x variants)).
Proof.
  intros Hx Hk. unfold putting_first, putting_last.
  rewrite !bool_decide_eq_true_2 by exact Hx. cbn [take]. intros Heq.
  assert (x ∈@{gset pystr}
            list_to_set (take (S k) (elements (variants ∖ {[x]}) ++ [x])))
    as Hin.
  { rewrite <- Heq. apply elem_of_list_to_set, list_elem_of_here. }
  apply elem_of_list_to_set in Hin. rewrite take_app_le in Hin.
  - apply subseteq_take, elem_of_elements, elem_of_difference in Hin as [_ Hnot].
    apply Hnot. apply elem_of_singleton. reflexivity.
  - change (length (elements (variants ∖ {[x]}))) with (size (variants ∖ {[x]})).
    rewrite size_difference, size_singleton; [lia|].
    apply singleton_subseteq_l. exact Hx.
Qed.

(** Above the cap, and for any order that goes once through the elements
    of the set, what is returned is a part of the union with exactly
    [max_variants] elements. *)
Lemma generate_all_variants_truncated
    (unicode_lower : pystr → nat → N → pystr)
    (extract_domain_parts : pystr → DomainParts)
    (set_iter : gset pystr → list pystr)
    (domain : pystr) (max_variants : Z) :
  (∀ s, set_iter s ≡ₚ elements s) →
  0 ≤ max_variants →
  max_variants
    < Z.of_nat (size (all_operators unicode_lower extract_domain_parts domain)) →
  generate_all_variants unicode_lower extract_domain_parts set_iter
      domain max_variants
    ⊆ all_operators unicode_lower extract_domain_parts domain
  ∧ Z.of_nat (size (generate_all_variants unicode_lower extract_domain_parts
                      set_iter domain max_variants)) = max_variants.
Proof.
  intros Hperm Hcap Hcut. rewrite generate_above_cap by exact Hcut.
  unfold slice_to. destruct (Z.ltb_spec max_variants 0) as [|_]; [lia|].
  set (variants := all_operators unicode_lower extract_domain_parts domain) in *.
  split.
  - intros x Hx%elem_of_list_to_set. apply subseteq_take in Hx.
    rewrite (Hperm variants) in Hx. by apply elem_of_elements.
  - rewrite size_list_to_set.
    + rewrite length_take, (Permutation_length (Hperm variants)).
      change (length (elements variants)) with (size variants). lia.
    + eapply sublist_NoDup; [|apply sublist_take].
      rewrite (Hperm variants). apply NoDup_elements.
Qed.

(** C8 (as stated) fails: for the seed [acmebank.com] and the cap 150 the
    WHOIS source passes, the union has 450 elements, and two iteration
    orders of that same set make [set(list(variants)[:150])] two different
    sets.  When the iteration starts with [acmebank.com] the result
    contains it, when the iteration ends with it the result does not. *)
Lemma generate_all_variants_order_dependent :
  generate_all_variants caseless (psl_extract COMMON_TLDS)
    (putting_first (lit "acmebank.com")) (lit "acmebank.com") 150
  ≠ generate_all_variants caseless (psl_extract COMMON_TLDS)
      (putting_last (lit "acmebank.com")) (lit "acmebank.com") 150.
Proof.
  pose proof (acmebank_union_size caseless eq_refl) as Hsize.
  rewrite !generate_above_cap by (rewrite Hsize; lia).
  unfold slice_to. change (150 <? 0) with false. cbv iota.
  change (Z.to_nat 150) with (S 149).
  apply cut_depends_on_order.
  - apply tld_variations_keep_seed.
    + rewrite acmebank_parts. apply str_in_elem_of. vm_compute. reflexivity.
    + rewrite acmebank_parts. vm_compute. reflexivity.
  - rewrite Hsize. lia.
Qed.

(** C8 (amended): two runs of [generate_all_variants] on the same seed
    and cap return the same set whenever the union of all operators has
    at most [max_variants] elements, whatever order the interpreter
    iterates sets in: both return the whole union. *)
Theorem generate_all_variants_deterministic
    (unicode_lower : pystr → nat → N → pystr)
    (extract_domain_parts : pystr → DomainParts)
    (first_run second_run : gset pystr → list pystr)
    (domain : pystr) (max_variants : Z) :
  Z.of_nat (size (all_operators unicode_lower extract_domain_parts domain))
    ≤ max_variants →
  generate_all_variants unicode_lower extract_domain_parts first_run
    domain max_variants
  = generate_all_variants unicode_lower extract_domain_parts second_run
      domain max_variants.
Proof. intros Hfit. by rewrite !generate_below_cap. Qed.

Lemma generate_all_variants_deterministic_witness :
  Z.of_nat (size (all_operators caseless (psl_extract COMMON_TLDS)
                    (lit "acmebank.com"))) ≤ 1000
  ∧ generate_all_variants caseless (psl_extract COMMON_TLDS)
      (putting_first (lit "acmebank.com")) (lit "acmebank.com") 1000
    = generate_all_variants caseless (psl_extract COMMON_TLDS)
        (putting_last (lit "acmebank.com")) (lit "acmebank.com") 1000.
Proof.
  assert (Z.of_nat (size (all_operators caseless (psl_extract COMMON_TLDS)
                            (lit "acmebank.com"))) ≤ 1000) as Hfit.
  { rewrite (acmebank_union_size caseless eq_refl). lia. }
  split; [exact Hfit|].
  apply generate_all_variants_deterministic. exact Hfit.
Defined.

End TyposquatFacts.

(** ** The validator *)
Module ValidatorsFacts.

Lemma dead_not_nullable (r : regex) : dead r = true → nullable r = false.
Proof.
  induction r as [| | ranges | r1 IH1 r2 IH2 | r1 IH1 r2 IH2 | r1 IH1];
    simpl; try done.
  - intros [H|H]%orb_true_iff; [rewrite (IH1 H) | rewrite (IH2 H)];
      [done | apply andb_false_r].
  - intros [H1 H2]%andb_true_iff. by rewrite (IH1 H1), (IH2 H2).
Qed.

Lemma dead_deriv (c : N) (r : regex) : dead r = true → dead (deriv c r) = true.
Proof.
  induction r as [| | ranges | r1 IH1 r2 IH2 | r1 IH1 r2 IH2 | r1 IH1];
    simpl; try done.
  - intros [H|H]%orb_true_iff.
    + rewrite (dead_not_nullable r1 H). simpl. by rewrite (IH1 H).
    + destruct (nullable r1); simpl; rewrite ?(IH2 H), H;
        by rewrite ?orb_true_r.
  - intros [H1 H2]%andb_true_iff. by rewrite (IH1 H1), (IH2 H2).
Qed.

Lemma dead_fullmatch (r : regex) (s : pystr) :
  dead r = true → fullmatch r s = false.
Proof.
  unfold fullmatch. revert r. induction s as [|c s IH]; intros r Hr; simpl.
  - by apply dead_not_nullable.
  - apply IH. by apply dead_deriv.
Qed.

Lemma classes_within_deriv (P : N → bool) (c : N) (r : regex) :
  classes_within P r → classes_within P (deriv c r).
Proof.
  induction r as [| | ranges | r1 IH1 r2 IH2 | r1 IH1 r2 IH2 | r1 IH1];
    simpl; try done.
  - intros _. by destruct (in_ranges c ranges).
  - intros [H1 H2]. destruct (nullable r1); simpl; auto.
  - intros [H1 H2]. auto.
  - intros H. auto.
Qed.

(** Reading a character outside every class kills the regex. *)
Lemma deriv_outside (P : N → bool) (c : N) (r : regex) :
  classes_within P r → P c = false → dead (deriv c r) = true.
Proof.
  intros Hr Hc.
  induction r as [| | ranges | r1 IH1 r2 IH2 | r1 IH1 r2 IH2 | r1 IH1];
    simpl in *; try done.
  - destruct (in_ranges c ranges) eqn:Hin; [|done].
    rewrite (Hr c Hin) in Hc. done.
  - destruct Hr as [H1 H2]. destruct (nullable r1); simpl;
      by rewrite ?(IH1 H1), ?(IH2 H2).
  - destruct Hr as [H1 H2]. by rewrite (IH1 H1), (IH2 H2).
  - by rewrite (IH1 Hr).
Qed.

(** A string the regex matches is made of characters of its classes. *)
Lemma fullmatch_chars (P : N → bool) (r : regex) (s : pystr) :
  classes_within P r → fullmatch r s = true → Forall (λ c, P c = true) s.
Proof.
  revert r. induction s as [|c s IH]; intros r Hr Hm; [constructor|].
  destruct (P c) eqn:Hc.
  - constructor; [done|]. apply (IH (deriv c r)); [|exact Hm].
    by apply classes_within_deriv.
  - exfalso. unfold fullmatch in Hm. simpl in Hm.
    pose proof (dead_fullmatch (deriv c r) s (deriv_outside P c r Hr Hc)) as Hd.
    unfold fullmatch in Hd. congruence.
Qed.

Lemma classes_within_UpTo (P : N → bool) (n : nat) (r : regex) :
  classes_within P r → classes_within P (UpTo n r).
Proof. intros Hr. induction n; simpl; auto. Qed.

Lemma classes_within_Times (P : N → bool) (n : nat) (r : regex) :
  classes_within P r → classes_within P (Times n r).
Proof. intros Hr. induction n; simpl; auto. Qed.

Lemma in_ranges_grammar (ranges : list (N * N)) :
  ranges ⊆ [(code "a", code "z"); (code "A", code "Z");
            (code "0", code "9"); (hyphen, hyphen); (dot, dot)] →
  ∀ c, in_ranges c ranges = true → grammar_char c = true.
Proof.
  intros Hsub c. unfold grammar_char, in_ranges.
  rewrite !existsb_exists. intros (lh & Hlh & Hc). exists lh. split; [|done].
  apply list_elem_of_In, Hsub. by apply list_elem_of_In.
Qed.

Lemma domain_regex_classes : classes_within grammar_char domain_regex.
Proof.
  assert (classes_within grammar_char alnum) as Halnum.
  { unfold alnum. cbn [classes_within].
    apply in_ranges_grammar. intros x Hx.
    repeat (apply elem_of_cons in Hx as [->|Hx]; [set_unfold; tauto|]).
    by apply elem_of_nil in Hx. }
  assert (classes_within grammar_char alnum_hyphen) as Hah.
  { unfold alnum_hyphen. cbn [classes_within].
    apply in_ranges_grammar. intros x Hx.
    repeat (apply elem_of_cons in Hx as [->|Hx]; [set_unfold; tauto|]).
    by apply elem_of_nil in Hx. }
  assert (classes_within grammar_char alpha) as Halpha.
  { unfold alpha. cbn [classes_within].
    apply in_ranges_grammar. intros x Hx.
    repeat (apply elem_of_cons in Hx as [->|Hx]; [set_unfold; tauto|]).
    by apply elem_of_nil in Hx. }
  assert (classes_within grammar_char escaped_dot) as Hdot.
  { unfold escaped_dot. cbn [classes_within].
    apply in_ranges_grammar. intros x Hx.
    repeat (apply elem_of_cons in Hx as [->|Hx]; [set_unfold; tauto|]).
    by apply elem_of_nil in Hx. }
  unfold domain_regex, Plus, Opt, Between.
  repeat split; auto using classes_within_UpTo, classes_within_Times.
Qed.

Lemma grammar_char_ascii (c : N) : grammar_char c = true → is_ascii c = true.
Proof.
  unfold grammar_char, is_ascii. eval_codes.
  rewrite !orb_true_iff, !andb_true_iff, !N.leb_le, N.ltb_lt. lia.
Qed.

Lemma grammar_char_not_line_feed (c : N) :
  grammar_char c = true → c ≠ line_feed.
Proof.
  unfold grammar_char. eval_codes.
  rewrite !orb_true_iff, !andb_true_iff, !N.leb_le. lia.
Qed.

(** What the validator accepts: a string of the grammar, possibly
    followed by one line feed. *)
Lemma is_valid_domain_inv (domain : pystr) :
  is_valid_domain domain = true →
  Forall (λ c, grammar_char c = true) domain
  ∨ ∃ body, domain = body ++ [line_feed]
            ∧ Forall (λ c, grammar_char c = true) body.
Proof.
  unfold is_valid_domain, match_anchored.
  destruct (negb (truthy domain) || (255 <? length domain)%nat); [done|].
  intros [Hm|Hm]%orb_true_iff.
  - left. by apply (fullmatch_chars _ _ _ domain_regex_classes).
  - right. destruct (last domain) as [c|] eqn:Hlast; [|done].
    apply andb_true_iff in Hm as [Hc Hm]. apply N.eqb_eq in Hc. subst c.
    apply last_Some in Hlast as [body ->]. exists body. split; [done|].
    rewrite length_app in Hm. simpl in Hm.
    replace (length body + 1 - 1)%nat with (length body) in Hm by lia.
    rewrite take_app_length in Hm.
    by apply (fullmatch_chars _ _ _ domain_regex_classes).
Qed.

Lemma is_valid_domain_ascii (domain : pystr) :
  is_valid_domain domain = true → Forall (λ c, is_ascii c = true) domain.
Proof.
  intros [Hg|(body & -> & Hg)]%is_valid_domain_inv.
  - eapply Forall_impl; [exact Hg|]. apply grammar_char_ascii.
  - apply Forall_app. split.
    + eapply Forall_impl; [exact Hg|]. apply grammar_char_ascii.
    + by repeat constructor.
Qed.

Lemma is_valid_domain_grammar (domain : pystr) :
  is_valid_domain domain = true → last domain ≠ Some line_feed →
  Forall (λ c, grammar_char c = true) domain.
Proof.
  intros [Hg|(body & -> & Hg)]%is_valid_domain_inv Hlast; [done|].
  by rewrite last_snoc in Hlast.
Qed.

Lemma head_lstrip (s : pystr) (c : N) :
  head (lstrip s) = Some c → is_space c = false.
Proof.
  induction s as [|a s IH]; simpl; [done|].
  destruct (is_space a) eqn:Ha; [done|]. simpl. by intros [= <-].
Qed.

Lemma last_strip (s : pystr) (c : N) :
  last (strip s) = Some c → is_space c = false.
Proof.
  unfold strip, rstrip. rewrite last_reverse. apply head_lstrip.
Qed.

Lemma ascii_lower_line_feed (c : N) : ascii_lower c = line_feed → c = line_feed.
Proof.
  unfold ascii_lower, line_feed.
  destruct ((65 <=? c) && (c <=? 90))%N eqn:Hup; [|done].
  apply andb_true_iff in Hup as [H1%N.leb_le H2%N.leb_le]. lia.
Qed.

Section Lower.
Variable unicode_lower : pystr → nat → N → pystr.
Hypothesis unicode_lower_ok : lower_keeps_lines unicode_lower.

Lemma last_lower (s : pystr) (c : N) :
  last s = Some c → c ≠ line_feed →
  last (lower unicode_lower s) ≠ Some line_feed.
Proof.
  intros [body Hs]%last_Some Hc. unfold lower.
  set (f := λ (i : nat) (c : N),
         if is_ascii c then [ascii_lower c] else unicode_lower s i c).
  rewrite Hs, imap_app, concat_app. simpl. rewrite app_nil_r.
  unfold f. destruct (is_ascii c) eqn:Hascii.
  - rewrite last_snoc. intros [= Heq]. by apply ascii_lower_line_feed in Heq.
  - destruct (unicode_lower_ok s (length body + 0)%nat c Hascii) as [Hne Hlf].
    intros Hlast. apply Hlf.
    apply last_app_Some in Hlast as [Hlast|[Hnil _]].
    + by apply last_Some_elem_of.
    + by apply last_None in Hnil.
Qed.

(** A normalised name never ends in a line feed. *)
Lemma last_normalize_domain (domain : pystr) :
  last (normalize_domain unicode_lower domain) ≠ Some line_feed.
Proof.
  unfold normalize_domain. destruct (negb (truthy domain)); [done|].
  destruct (last (strip domain)) as [c|] eqn:Hlast.
  - apply (last_lower _ c Hlast). intros ->.
    by apply last_strip in Hlast.
  - apply last_None in Hlast. rewrite Hlast. done.
Qed.

(** A normalised name the validator accepts is made of grammar
    characters only. *)
Lemma normalized_valid_grammar (domain : pystr) :
  is_valid_domain (normalize_domain unicode_lower domain) = true →
  Forall (λ c, grammar_char c = true) (normalize_domain unicode_lower domain).
Proof.
  intros Hv. apply is_valid_domain_grammar; [done|].
  apply last_normalize_domain.
Qed.
End Lower.

Lemma caseless_keeps_lines : lower_keeps_lines caseless.
Proof.
  intros s i c Hc. unfold caseless. split; [done|].
  intros Hin%list_elem_of_singleton. by rewrite <- Hin in Hc.
Qed.

End ValidatorsFacts.

(** ** Deduplicating save *)
Module SaveFacts.
Import BaseCrawler Models Examples.

Lemma find_stored_None (key : pystr) (rows : list DiscoveredDomain) :
  find (λ row, str_eqb (domain_name row) key) rows = None
  ↔ key ∉ map domain_name rows.
Proof.
  induction rows as [|row rows IH]; simpl.
  - split; [intros _; apply not_elem_of_nil | done].
  - rewrite not_elem_of_cons. destruct (str_eqb (domain_name row) key) eqn:Heq.
    + apply str_eqb_eq in Heq. split; [done|]. intros [Hne _]. by subst.
    + rewrite IH. split; [|tauto]. intros Hnot. split; [|done].
      intros ->. unfold str_eqb in Heq. by rewrite bool_decide_eq_true_2 in Heq.
Qed.

Section Save.
Variable unicode_lower : pystr → nat → N → pystr.

Local Notation normalize_domain := (normalize_domain unicode_lower).
Local Notation save_domain := (save_domain unicode_lower).
Local Notation save_all := (save_all unicode_lower).

Lemma save_domain_invalid (domain_data : DomainData.t) (w : World) :
  is_valid_domain (normalize_domain (DomainData.domain_name domain_data)) = false →
  save_domain domain_data w = (false, w).
Proof. intros Hv. unfold BaseCrawler.save_domain. by rewrite Hv. Qed.

Lemma save_domain_duplicate (domain_data : DomainData.t) (w : World) :
  normalize_domain (DomainData.domain_name domain_data) ∈ stored_names w →
  save_domain domain_data w = (false, w).
Proof.
  intros Hin. unfold BaseCrawler.save_domain.
  destruct (negb (is_valid_domain _)); [done|].
  destruct (find _ _) eqn:Hfind; [done|].
  apply find_stored_None in Hfind. done.
Qed.

Lemma save_domain_fresh (domain_data : DomainData.t) (w : World) :
  let key := normalize_domain (DomainData.domain_name domain_data) in
  is_valid_domain key = true → key ∉ stored_names w →
  (save_domain domain_data w).1 = true
  ∧ stored_names (save_domain domain_data w).2 = stored_names w ++ [key]
  ∧ domains_found (self (save_domain domain_data w).2)
    = domains_found (self w) ++ [key].
Proof.
  intros key Hv Hnew. unfold BaseCrawler.save_domain. fold key. rewrite Hv.
  apply find_stored_None in Hnew. rewrite Hnew. simpl.
  unfold stored_names. simpl. by rewrite map_app.
Qed.

(** The three ways [save_domain] can end. *)
Lemma save_domain_cases (domain_data : DomainData.t) (w : World) :
  let key := normalize_domain (DomainData.domain_name domain_data) in
  save_domain domain_data w = (false, w)
  ∨ (save_domain domain_data w).1 = true
    ∧ is_valid_domain key = true ∧ (key ∉ stored_names w)
    ∧ stored_names (save_domain domain_data w).2 = stored_names w ++ [key].
Proof.
  intros key. destruct (is_valid_domain key) eqn:Hv.
  - destruct (decide (key ∈ stored_names w)) as [Hin|Hnew].
    + left. by apply save_domain_duplicate.
    + right. destruct (save_domain_fresh domain_data w Hv Hnew) as (? & ? & ?).
      done.
  - left. by apply save_domain_invalid.
Qed.

(** Names are only ever added to the table. *)
Lemma save_domain_keeps (key : pystr) (domain_data : DomainData.t) (w : World) :
  key ∈ stored_names w → key ∈ stored_names (save_domain domain_data w).2.
Proof.
  intros Hin. destruct (save_domain_cases domain_data w) as [->|(_ & _ & _ & ->)];
    [done|]. apply elem_of_app. by left.
Qed.

Lemma save_all_keeps (key : pystr) (discovered : list DomainData.t) (w : World) :
  key ∈ stored_names w → key ∈ stored_names (save_all discovered w).
Proof.
  revert w. induction discovered as [|d ds IH]; intros w Hin; [done|].
  apply IH. by apply save_domain_keeps.
Qed.

End Save.

(** C3: [save_domain] is idempotent on the normalised key.  For a
    candidate whose trimmed, lower-cased name is valid and not yet in the
    table, the first save returns [True]; after it, and after any further
    saves, saving any candidate whose name normalises to the same key
    returns [False] and changes neither the table nor the crawler. *)
Theorem save_domain_idempotent
    (unicode_lower : pystr → nat → N → pystr)
    (w : World) (first again : DomainData.t) (between : list DomainData.t) :
  let key := normalize_domain unicode_lower (DomainData.domain_name first) in
  is_valid_domain key = true →
  key ∉ stored_names w →
  normalize_domain unicode_lower (DomainData.domain_name again) = key →
  (save_domain unicode_lower first w).1 = true
  ∧ let w' := save_all unicode_lower between
                (save_domain unicode_lower first w).2 in
    save_domain unicode_lower again w' = (false, w').
Proof.
  intros key Hv Hnew Hsame.
  destruct (save_domain_fresh unicode_lower first w Hv Hnew) as (Hsaved & Hnames & _).
  split; [exact Hsaved|]. intros w'. apply save_domain_duplicate.
  rewrite Hsame. apply save_all_keeps. fold key in Hnames. rewrite Hnames.
  apply elem_of_app. right. by apply list_elem_of_singleton.
Qed.

Lemma save_domain_idempotent_witness :
  let key := normalize_domain caseless (lit "EXAMPLE.com") in
  key = lit "example.com"
  ∧ normalize_domain caseless (lit "example.com ") = key
  ∧ (save_domain caseless (finding (lit "EXAMPLE.com")) (fresh (lit "whois"))).1
    = true
  ∧ let w' := save_all caseless []
                (save_domain caseless (finding (lit "EXAMPLE.com"))
                   (fresh (lit "whois"))).2 in
    save_domain caseless (finding (lit "example.com ")) w' = (false, w').
Proof.
  cbv zeta. split; [vm_compute; reflexivity|]. split; [vm_compute; reflexivity|].
  apply (save_domain_idempotent caseless (fresh (lit "whois"))
           (finding (lit "EXAMPLE.com")) (finding (lit "example.com ")) []).
  - vm_compute. reflexivity.
  - apply not_elem_of_nil.
  - vm_compute. reflexivity.
Defined.

Lemma _is_idn_domain_ascii (s : pystr) :
  Forall (λ c, is_ascii c = true) s → _is_idn_domain s = false.
Proof.
  unfold _is_idn_domain. induction 1 as [|c s Hc _ IH]; simpl; [done|].
  by rewrite Hc, IH.
Qed.

(** Once added, a string stays in the set [add_until] returns. *)
Lemma add_until_keeps (max_variants : Z) (xs : list pystr)
    (variants : gset pystr) (x : pystr) :
  x ∈ variants → x ∈ IDNGenerator.add_until max_variants xs variants.
Proof.
  revert variants. induction xs as [|y xs IH]; intros variants Hx; [done|].
  simpl. destruct (_ >=? _); [|apply IH]; by apply elem_of_union_r.
Qed.

(** The IDN table maps [f] to itself first, so the first thing
    [generate_idn_variants("fm.com")] adds is [fm.com]. *)
Lemma generate_idn_variants_fm :
  lit "fm.com" ∈ IDNGenerator.generate_idn_variants caseless (lit "fm.com") 100.
Proof.
  change (IDNGenerator.generate_idn_variants caseless (lit "fm.com") 100)
    with (IDNGenerator.add_until 100
            (IDNGenerator.single_substitutions caseless (lit "fm") (lit "com")
             ++ IDNGenerator.double_substitutions caseless (lit "fm") (lit "com"))
            ∅).
  assert (∃ rest,
            IDNGenerator.single_substitutions caseless (lit "fm") (lit "com")
            ++ IDNGenerator.double_substitutions caseless (lit "fm") (lit "com")
            = lit "fm.com" :: rest) as [rest ->].
  { eexists. vm_compute. reflexivity. }
  cbn [IDNGenerator.add_until].
  destruct (_ >=? _); [|apply add_until_keeps];
    apply elem_of_union_l, elem_of_singleton; reflexivity.
Qed.




End SaveFacts.

(** ** The rate limiter *)
Module RateLimiterFacts.
Import RateLimiter.

(** As time passes entries only leave the window. *)
Lemma in_window_later (self : t) (earlier now : Z) :
  earlier ≤ now →
  (length (in_window self now) ≤ length (in_window self earlier))%nat.
Proof.
  intros Hle. unfold in_window.
  induction (timestamps self) as [|x ts IH]; [done|].
  rewrite !filter_cons.
  destruct (decide (now - x < period self)) as [Hnow|Hnow];
    destruct (decide (earlier - x < period self)) as [Hearlier|Hearlier];
    simpl; lia.
Qed.

Lemma length_filter_snoc (P : Z → Prop) `{∀ x, Decision (P x)}
    (ts : list Z) (x : Z) :
  (length (filter P (ts ++ [x])) ≤ length (filter P ts) + 1)%nat.
Proof.
  rewrite filter_app, length_app, filter_cons, filter_nil.
  destruct (decide (P x)); simpl; lia.
Qed.

(** C6: the limiter keeps "at most [calls] entries recorded in the last
    [period]".  Take a limiter with room for at least one call whose
    entries respected the limit at some earlier time, a clock that has not
    gone back since, and a [time.sleep] that lasts at least as long as
    asked.  Then [__enter__] returns; it has slept exactly when the window
    was full, for the time the oldest entry still had to live; it has
    appended the time at which it returned to the entries still in the
    window; and at that time the limit holds again. *)
Theorem __enter___keeps_limit (self : t) (earlier now woke : Z) :
  1 ≤ calls self →
  within_limit self earlier →
  earlier ≤ now →
  (∀ sleep_time, 0 < sleep_time →
     (∃ oldest_call, head (in_window self now) = Some oldest_call
                     ∧ sleep_time = period self - (now - oldest_call)) →
     now + sleep_time ≤ woke) →
  ∃ entered current_time,
    __enter__ self now woke = Some entered
    ∧ timestamps (limiter entered) = in_window self now ++ [current_time]
    ∧ calls (limiter entered) = calls self
    ∧ period (limiter entered) = period self
    ∧ within_limit (limiter entered) current_time
    ∧ match slept entered with
      | Some sleep_time =>
          calls self ≤ Z.of_nat (length (in_window self now))
          ∧ (∃ oldest_call, head (in_window self now) = Some oldest_call
                            ∧ sleep_time = period self - (now - oldest_call))
          ∧ 0 < sleep_time ∧ now + sleep_time ≤ current_time
          ∧ current_time = woke
      | None =>
          Z.of_nat (length (in_window self now)) < calls self
          ∧ current_time = now
      end.
Proof.
  intros Hcalls Hlimit Hclock Hsleep.
  pose proof (in_window_later self earlier now Hclock) as Hmono.
  unfold within_limit in Hlimit. unfold __enter__.
  change (filter (λ t : Z, now - t < period self) (timestamps self))
    with (in_window self now) in *.
  destruct (Z.geb_spec (Z.of_nat (length (in_window self now))) (calls self))
    as [Hfull|Hroom].
  - destruct (in_window self now) as [|oldest_call rest] eqn:Hkept.
    { simpl in Hfull. lia. }
    assert (now - oldest_call < period self) as Hold.
    { assert (oldest_call ∈ in_window self now) as Hin
        by (rewrite Hkept; apply list_elem_of_here).
      unfold in_window in Hin. by apply list_elem_of_filter in Hin as [? _]. }
    destruct (Z.gtb_spec (period self - (now - oldest_call)) 0) as [Hpos|Hneg];
      [|lia].
    assert (now + (period self - (now - oldest_call)) ≤ woke) as Hwoke.
    { apply Hsleep; [lia|]. exists oldest_call. done. }
    eexists _, woke. split; [reflexivity|].
    cbn [limiter timestamps calls period slept].
    split; [done|]. split; [done|]. split; [done|]. split.
    2: { split; [lia|]. split; [by exists oldest_call|]. repeat split; lia. }
    unfold within_limit, in_window. cbn [timestamps period calls].
    pose proof (length_filter_snoc (λ t, woke - t < period self)
                  (oldest_call :: rest) woke) as Hsnoc.
    rewrite filter_cons in Hsnoc.
    destruct (decide (woke - oldest_call < period self)) as [Hstill|_]; [lia|].
    pose proof (length_filter (λ t, woke - t < period self) rest) as Hrest.
    simpl in Hfull, Hmono. lia.
  - eexists _, now. split; [reflexivity|].
    cbn [limiter timestamps calls period slept].
    repeat split; try done; try lia.
    unfold within_limit. unfold in_window at 1. cbn [timestamps period calls].
    pose proof (length_filter_snoc (λ t, now - t < period self)
                  (in_window self now) now) as Hsnoc.
    pose proof (length_filter (λ t, now - t < period self)
                  (in_window self now)) as Hkeep.
    lia.
Qed.

Lemma __enter___keeps_limit_witness :
  let busy := {| calls := 2; period := 60; timestamps := [0; 10] |} in
  within_limit busy 10
  ∧ ∃ entered current_time,
      __enter__ busy 20 60 = Some entered
      ∧ timestamps (limiter entered) = in_window busy 20 ++ [current_time]
      ∧ calls (limiter entered) = calls busy
      ∧ period (limiter entered) = period busy
      ∧ within_limit (limiter entered) current_time
      ∧ match slept entered with
        | Some sleep_time =>
            calls busy ≤ Z.of_nat (length (in_window busy 20))
            ∧ (∃ oldest_call, head (in_window busy 20) = Some oldest_call
                              ∧ sleep_time = period busy - (20 - oldest_call))
            ∧ 0 < sleep_time ∧ 20 + sleep_time ≤ current_time
            ∧ current_time = 60
        | None =>
            Z.of_nat (length (in_window busy 20)) < calls busy
            ∧ current_time = 20
        end.
Proof.
  intros busy.
  assert (within_limit busy 10) as Hlimit.
  { unfold within_limit.
    assert (in_window busy 10 = [0; 10]) as -> by (vm_compute; reflexivity).
    simpl. lia. }
  split; [exact Hlimit|].
  apply (__enter___keeps_limit busy 10 20 60).
  - simpl. lia.
  - exact Hlimit.
  - lia.
  - intros sleep_time _ (oldest_call & Hhead & ->).
    assert (in_window busy 20 = [0; 10]) as Hwin by (vm_compute; reflexivity).
    rewrite Hwin in Hhead. simpl in Hhead. injection Hhead as <-.
    simpl. lia.
Defined.

End RateLimiterFacts.

(** ** The WHOIS-typosquat source *)
Module WHOISCrawlerFacts.
Import WHOISCrawler Typosquat.

Section Crawl.
Variable unicode_lower : pystr → nat → N → pystr.
Variable extract_domain_parts : pystr → DomainParts.
Variable set_iter : gset pystr → list pystr.
Variable resolve : pystr → DnsOutcome.
Variable whois_query : pystr → Py.result WhoisData.
Variable age_days : pystr → option Z.

(** [time] is not among the module's globals. *)
Lemma time_is_unbound :
  Py.load_global module_globals "time"
  = Py.Raise (Py.Exc "NameError" (lit "name 'time' is not defined")).
Proof. vm_compute. reflexivity. Qed.

(** So the WHOIS lookup never gets past its first statement. *)
Lemma _get_whois_data_None (domain : pystr) :
  _get_whois_data whois_query domain = None.
Proof. unfold _get_whois_data. by rewrite time_is_unbound. Qed.

Lemma check_variant_nil (target_cse : Target.t) (primary_domain variant : pystr) :
  check_variant resolve whois_query age_days target_cse primary_domain variant
  = [].
Proof.
  unfold check_variant. rewrite _get_whois_data_None.
  by destruct (_domain_exists resolve variant).
Qed.

(** Whatever the resolver and the registry answer, [crawl] returns the
    empty list (or raises [KeyError] for a target without a primary
    domain). *)
Lemma crawl_discovers_nothing (target_cse : Target.t) (primary_domain : pystr) :
  Target.primary_domain target_cse = Some primary_domain →
  crawl unicode_lower extract_domain_parts set_iter resolve whois_query
    age_days target_cse = Py.Ok [].
Proof.
  intros Hprimary. unfold crawl. rewrite Hprimary. simpl. f_equal.
  induction (set_iter _) as [|v vs IH]; [done|].
  simpl. by rewrite check_variant_nil, IH.
Qed.

End Crawl.

(** C1: for every target profile, and whatever DNS and WHOIS answer, no
    record the WHOIS-typosquat source returns is one of the target's own
    domains: its [domain_name] neither equals the primary domain or an
    additional domain nor ends with a dot followed by one of them (the
    test [_is_legitimate_domain] makes in the other sources).
    The source has no such filter of its own, and the generator does hand
    it the seed; the property holds because whois_crawler.py never imports
    [time]: [time.sleep(1.2)] raises [NameError] inside [_get_whois_data],
    every lookup comes back [None], and the list [crawl] returns is
    empty. *)
Theorem crawl_emits_no_legitimate_domain
    (unicode_lower : pystr → nat → N → pystr)
    (extract_domain_parts : pystr → DomainParts)
    (set_iter : gset pystr → list pystr)
    (resolve : pystr → DnsOutcome)
    (whois_query : pystr → Py.result WhoisData)
    (age_days : pystr → option Z)
    (target_cse : Target.t) :
  match crawl unicode_lower extract_domain_parts set_iter resolve
          whois_query age_days target_cse with
  | Py.Ok discovered =>
      Forall (λ record,
                Legitimate._is_legitimate_domain
                  (DomainData.domain_name record) target_cse = Py.Ok false)
             discovered
  | Py.Raise _ => Target.primary_domain target_cse = None
  end.
Proof.
  destruct (Target.primary_domain target_cse) as [primary_domain|] eqn:Hprimary.
  - rewrite (crawl_discovers_nothing _ _ _ _ _ _ _ _ Hprimary). constructor.
  - unfold crawl. rewrite Hprimary. simpl. done.
Qed.

(** The end-to-end scenario: for the Acme Bank target the source returns
    normally, and neither [acmebank.com] nor [secure.acmebank.com] is among
    its records. *)
Lemma crawl_acme
    (set_iter : gset pystr → list pystr)
    (resolve : pystr → DnsOutcome)
    (whois_query : pystr → Py.result WhoisData)
    (age_days : pystr → option Z) :
  ∃ discovered,
    crawl caseless Examples.extract set_iter resolve whois_query age_days
      Examples.acme = Py.Ok discovered
    ∧ (lit "acmebank.com" ∉ map DomainData.domain_name discovered)
    ∧ (lit "secure.acmebank.com" ∉ map DomainData.domain_name discovered).
Proof.
  exists []. split; [by apply (crawl_discovers_nothing _ _ _ _ _ _ _ (lit "acmebank.com"))|].
  split; apply not_elem_of_nil.
Qed.

End WHOISCrawlerFacts.

(** ** What a run appends *)
Module AppendsFacts.
Import BaseCrawler Models Appends SaveFacts.

Lemma appended_refl (w : World) : appended w w [].
Proof.
  unfold appended. rewrite !app_nil_r. by repeat split.
Qed.

Lemma appended_trans (w1 w2 w3 : World) (rows1 rows2 : list DiscoveredDomain) :
  appended w1 w2 rows1 → appended w2 w3 rows2 →
  appended w1 w3 (rows1 ++ rows2).
Proof.
  intros (Hdb1 & Hfound1 & Hname1 & Hrows1 & Huniq1)
         (Hdb2 & Hfound2 & Hname2 & Hrows2 & Huniq2).
  unfold appended. rewrite Hdb2, Hdb1, Hfound2, Hfound1, Hname2, Hname1.
  rewrite map_app, !(assoc_L (++)). repeat split; [|by auto].
  apply Forall_app. split; [done|]. by rewrite <- Hname1.
Qed.

(** Steps that touch neither the domain table nor the list of finds. *)
Lemma appended_same (w w' : World) :
  discovered_domains (db w') = discovered_domains (db w) →
  domains_found (self w') = domains_found (self w) →
  name (self w') = name (self w) →
  appended w w' [].
Proof.
  intros Hdb Hfound Hname. unfold appended, stored_names.
  rewrite Hdb, Hfound, Hname, !app_nil_r. by repeat split.
Qed.

Lemma start_logging_appended (w : World) : appended w (start_logging w) [].
Proof. by apply appended_same. Qed.

Lemma end_logging_appended (status : string) (errors : option (list pystr))
    (w : World) :
  appended w (end_logging status errors w) [].
Proof.
  apply appended_same; unfold end_logging;
    by destruct (log_id (self w)) as [[|n]|].
Qed.

Section Run.
Variable unicode_lower : pystr → nat → N → pystr.
Variable crawl : Target.t → Py.result (list DomainData.t).
Variable clock : nat → Z * Z.

Lemma save_domain_appended (domain_data : DomainData.t) (w : World) :
  ∃ rows, appended w (save_domain unicode_lower domain_data w).2 rows.
Proof.
  unfold save_domain. cbv zeta.
  destruct (is_valid_domain _) eqn:Hvalid; cbn [negb];
    [|exists []; apply appended_refl].
  destruct (find _ _) eqn:Hfind; [exists []; apply appended_refl|].
  eexists [_]. unfold appended, stored_names. cbn.
  repeat split; [by repeat constructor|].
  intros Huniq. rewrite map_app. cbn.
  apply NoDup_app. repeat split; [done| |apply NoDup_singleton].
  intros key Hin ->%list_elem_of_singleton.
  by apply (find_stored_None _ (discovered_domains (db w))) in Hfind.
Qed.

Lemma save_all_appended (discovered : list DomainData.t) :
  ∀ w, ∃ rows, appended w (save_all unicode_lower discovered w) rows.
Proof.
  induction discovered as [|domain_data discovered IH]; intros w.
  - exists []. apply appended_refl.
  - destruct (save_domain_appended domain_data w) as [rows1 H1].
    destruct (IH (save_domain unicode_lower domain_data w).2) as [rows2 H2].
    exists (rows1 ++ rows2). by eapply appended_trans.
Qed.

Lemma crawl_one_appended (i : nat) (cse : Target.t) (w : World) :
  ∃ rows, appended w (crawl_one unicode_lower crawl clock i cse w).2 rows.
Proof.
  unfold crawl_one.
  destruct (RateLimiter.__enter__ _ _ _) as [entered|];
    [|exists []; apply appended_refl].
  set (w1 := set_self w _).
  assert (appended w w1 []) as H1 by by apply appended_same.
  destruct (crawl cse) as [discovered|e]; [|by exists []].
  destruct (save_all_appended discovered w1) as [rows H2].
  exists rows. apply (appended_trans _ _ _ [] rows H1 H2).
Qed.

Lemma crawl_targets_appended (cse_targets : list Target.t) :
  ∀ (i : nat) (errors : list pystr) (w : World),
  ∃ rows,
    appended w (crawl_targets unicode_lower crawl clock i cse_targets errors w).2
      rows.
Proof.
  induction cse_targets as [|cse rest IH]; intros i errors w; cbn.
  - exists []. apply appended_refl.
  - destruct (Py.getitem "name" (Target.name cse)) as [cse_name|e];
      [|exists []; apply appended_refl].
    destruct (crawl_one_appended i cse w) as [rows1 H1].
    destruct (crawl_one unicode_lower crawl clock i cse w) as [[[]|e] w1];
      cbn [snd] in H1.
    + destruct (IH (S i) errors w1) as [rows2 H2].
      exists (rows1 ++ rows2). by eapply appended_trans.
    + destruct (IH (S i) (errors ++ [lit "Error crawling " ++ cse_name
                                      ++ lit ": " ++ Py.exn_str e]) w1)
        as [rows2 H2].
      exists (rows1 ++ rows2). by eapply appended_trans.
Qed.

Lemma run_appended (cse_targets : list Target.t) (w : World) :
  ∃ rows, appended w (run unicode_lower crawl clock cse_targets w).2 rows.
Proof.
  unfold run.
  pose proof (start_logging_appended w) as H0.
  destruct (crawl_targets_appended cse_targets 0 [] (start_logging w))
    as [rows H1].
  destruct (crawl_targets _ _ _ _ _ _ _) as [[errors|e] w1]; cbn [snd] in H1.
  - pose proof (end_logging_appended "completed" (Some errors) w1) as H2.
    exists rows. cbn [snd].
    pose proof (appended_trans _ _ _ _ _ (appended_trans _ _ _ _ _ H0 H1) H2)
      as H.
    by rewrite app_nil_r in H.
  - pose proof (end_logging_appended "failed" (Some [Py.exn_str e]) w1) as H2.
    exists rows. cbn [snd].
    pose proof (appended_trans _ _ _ _ _ (appended_trans _ _ _ _ _ H0 H1) H2)
      as H.
    by rewrite app_nil_r in H.
Qed.

Lemma run_summary (cse_targets : list Target.t) (w : World)
    (summary : Summary) :
  (run unicode_lower crawl clock cse_targets w).1 = Py.Ok summary →
  summary_domains_found summary
  = length (domains_found
              (self (run unicode_lower crawl clock cse_targets w).2)).
Proof.
  unfold run. destruct (crawl_targets _ _ _ _ _ _ _) as [[errors|e] w1];
    cbn [fst snd]; [|done].
  by intros [= <-].
Qed.

(** Where the appended rows come from. *)
Lemma found_by_here (cse : Target.t) (rest : list Target.t)
    (row : DiscoveredDomain) :
  found_by unicode_lower crawl [cse] row →
  found_by unicode_lower crawl (cse :: rest) row.
Proof.
  intros (c & discovered & domain_data & ->%list_elem_of_singleton & ?).
  exists cse, discovered, domain_data. split; [apply list_elem_of_here | done].
Qed.

Lemma found_by_further (cse : Target.t) (rest : list Target.t)
    (row : DiscoveredDomain) :
  found_by unicode_lower crawl rest row →
  found_by unicode_lower crawl (cse :: rest) row.
Proof.
  intros (c & discovered & domain_data & Hin & ?).
  exists c, discovered, domain_data.
  split; [by apply list_elem_of_further | done].
Qed.

Lemma save_domain_from (domain_data : DomainData.t) (w : World) :
  ∃ rows,
    discovered_domains (db (save_domain unicode_lower domain_data w).2)
    = discovered_domains (db w) ++ rows
    ∧ Forall (stores unicode_lower domain_data) rows.
Proof.
  unfold save_domain. cbv zeta.
  destruct (negb _); [exists []; by rewrite app_nil_r|].
  destruct (find _ _); [exists []; by rewrite app_nil_r|].
  eexists [_]. split; [reflexivity|]. by repeat constructor.
Qed.

Lemma save_all_from (discovered : list DomainData.t) :
  ∀ w, ∃ rows,
    discovered_domains (db (save_all unicode_lower discovered w))
    = discovered_domains (db w) ++ rows
    ∧ Forall (λ row, ∃ domain_data,
                domain_data ∈ discovered
                ∧ stores unicode_lower domain_data row) rows.
Proof.
  induction discovered as [|domain_data discovered IH]; intros w.
  - exists []. by rewrite app_nil_r.
  - destruct (save_domain_from domain_data w) as (rows1 & Hdb1 & Hrows1).
    destruct (IH (save_domain unicode_lower domain_data w).2)
      as (rows2 & Hdb2 & Hrows2).
    exists (rows1 ++ rows2). split.
    + change (save_all unicode_lower (domain_data :: discovered) w)
        with (save_all unicode_lower discovered
                (save_domain unicode_lower domain_data w).2).
      by rewrite Hdb2, Hdb1, (assoc_L (++)).
    + apply Forall_app. split.
      * eapply Forall_impl; [exact Hrows1|]. intros row Hrow.
        exists domain_data. split; [apply list_elem_of_here | done].
      * eapply Forall_impl; [exact Hrows2|]. intros row (d & Hin & Hrow).
        exists d. split; [by apply list_elem_of_further | done].
Qed.

Lemma crawl_one_from (i : nat) (cse : Target.t) (w : World) :
  ∃ rows,
    discovered_domains (db (crawl_one unicode_lower crawl clock i cse w).2)
    = discovered_domains (db w) ++ rows
    ∧ Forall (found_by unicode_lower crawl [cse]) rows.
Proof.
  unfold crawl_one.
  destruct (RateLimiter.__enter__ _ _ _) as [entered|];
    [|exists []; by rewrite app_nil_r].
  destruct (crawl cse) as [discovered|e] eqn:Hcrawl;
    [|exists []; by rewrite app_nil_r].
  destruct (save_all_from discovered
              (set_self w {| name := name (self w);
                             rate_limiter := RateLimiter.limiter entered;
                             domains_found := domains_found (self w);
                             log_id := log_id (self w) |}))
    as (rows & Hdb & Hrows).
  exists rows. split; [exact Hdb|].
  eapply Forall_impl; [exact Hrows|]. intros row (domain_data & Hin & Hrow).
  exists cse, discovered, domain_data.
  split; [apply list_elem_of_here | done].
Qed.

Lemma crawl_targets_from (cse_targets : list Target.t) :
  ∀ (i : nat) (errors : list pystr) (w : World),
  ∃ rows,
    discovered_domains
      (db (crawl_targets unicode_lower crawl clock i cse_targets errors w).2)
    = discovered_domains (db w) ++ rows
    ∧ Forall (found_by unicode_lower crawl cse_targets) rows.
Proof.
  induction cse_targets as [|cse rest IH]; intros i errors w; cbn.
  - exists []. by rewrite app_nil_r.
  - destruct (Py.getitem "name" (Target.name cse)) as [cse_name|e];
      [|exists []; by rewrite app_nil_r].
    destruct (crawl_one_from i cse w) as (rows1 & Hdb1 & Hrows1).
    assert (∀ errors' w1,
              discovered_domains (db w1) = discovered_domains (db w) ++ rows1 →
              ∃ rows,
                discovered_domains
                  (db (crawl_targets unicode_lower crawl clock (S i) rest
                         errors' w1).2)
                = discovered_domains (db w) ++ rows
                ∧ Forall (found_by unicode_lower crawl (cse :: rest)) rows)
      as Hrest.
    { intros errors' w1 Hw1.
      destruct (IH (S i) errors' w1) as (rows2 & Hdb2 & Hrows2).
      exists (rows1 ++ rows2). split; [by rewrite Hdb2, Hw1, (assoc_L (++))|].
      apply Forall_app. split.
      - eapply Forall_impl; [exact Hrows1|]. apply found_by_here.
      - eapply Forall_impl; [exact Hrows2|]. apply found_by_further. }
    destruct (crawl_one unicode_lower crawl clock i cse w) as [[[]|e] w1];
      cbn [snd] in Hdb1; by apply Hrest.
Qed.

Lemma run_from (cse_targets : list Target.t) (w : World) :
  ∃ rows,
    discovered_domains (db (run unicode_lower crawl clock cse_targets w).2)
    = discovered_domains (db w) ++ rows
    ∧ Forall (found_by unicode_lower crawl cse_targets) rows.
Proof.
  unfold run.
  destruct (crawl_targets_from cse_targets 0 [] (start_logging w))
    as (rows & Hdb & Hrows).
  change (discovered_domains (db (start_logging w)))
    with (discovered_domains (db w)) in Hdb.
  exists rows. split; [|done].
  destruct (crawl_targets _ _ _ _ _ _ _) as [[errors|e] w1];
    cbn [snd] in *; rewrite <- Hdb; unfold end_logging;
    by destruct (log_id (self w1)) as [[|n]|].
Qed.

End Run.

(** X14: [run] only appends.  Whatever the source and the clock do, and whether
    the run completes or fails, the rows that were in the domain table are
    still there, in place; the rows added carry this crawler's name as
    their source and a valid name; and [domains_found] has grown by exactly
    their names.  [domains_found] is never reset, so the count a completed
    run reports is cumulative: the finds of earlier runs of the same
    crawler object plus the rows this run added. *)
Theorem run_appends
    (unicode_lower : pystr → nat → N → pystr)
    (crawl : Target.t → Py.result (list DomainData.t))
    (clock : nat → Z * Z)
    (cse_targets : list Target.t) (w : World) :
  let result := (run unicode_lower crawl clock cse_targets w).1 in
  let w' := (run unicode_lower crawl clock cse_targets w).2 in
  ∃ rows,
    discovered_domains (db w') = discovered_domains (db w) ++ rows
    ∧ domains_found (self w')
      = domains_found (self w) ++ map Models.domain_name rows
    ∧ Forall (λ row, source_of_detection row = name (self w)
                     ∧ is_valid_domain (Models.domain_name row) = true) rows
    ∧ match result with
      | Py.Ok summary =>
          summary_domains_found summary
          = (length (domains_found (self w)) + length rows)%nat
      | Py.Raise _ => True
      end.
Proof.
  cbv zeta.
  destruct (run_appended unicode_lower crawl clock cse_targets w)
    as (rows & Hdb & Hfound & _ & Hrows & _).
  exists rows. repeat split; [done..|].
  destruct (run unicode_lower crawl clock cse_targets w).1 as [summary|e] eqn:Hrun;
    [|done].
  rewrite (run_summary _ _ _ _ _ _ Hrun), Hfound.
  by rewrite length_app, length_map.
Qed.

(** X15: [run] keeps the domain table free of duplicates: if no name occurs
    twice before the run, none does after it, whatever the source returns
    (the same name twice, a name another source stored, a name in another
    case). *)
Theorem run_keeps_names_unique
    (unicode_lower : pystr → nat → N → pystr)
    (crawl : Target.t → Py.result (list DomainData.t))
    (clock : nat → Z * Z)
    (cse_targets : list Target.t) (w : World) :
  NoDup (stored_names w) →
  NoDup (stored_names (run unicode_lower crawl clock cse_targets w).2).
Proof.
  destruct (run_appended unicode_lower crawl clock cse_targets w)
    as (rows & _ & _ & _ & _ & Huniq).
  exact Huniq.
Qed.

Lemma run_keeps_names_unique_witness :
  let twice := λ _ : Target.t,
    Py.Ok [Examples.finding (lit "EXAMPLE.com");
           Examples.finding (lit "example.com ")] in
  let w := Examples.fresh (lit "whois") in
  NoDup (stored_names w)
  ∧ stored_names (run caseless twice Examples.still_clock [Examples.acme] w).2
    = [lit "example.com"]
  ∧ NoDup (stored_names
             (run caseless twice Examples.still_clock [Examples.acme] w).2).
Proof.
  intros twice w.
  assert (NoDup (stored_names w)) as Huniq by constructor.
  split; [exact Huniq|]. split; [vm_compute; reflexivity|].
  exact (run_keeps_names_unique caseless twice Examples.still_clock
           [Examples.acme] w Huniq).
Defined.

(** X16: [end_logging] finalises one row and nothing else: the crawler object
    and the domain table are untouched, the log table keeps its length, and
    every row whose id is not the crawler's [log_id] stays as it is.  A
    crawler that never started logging changes nothing at all. *)
Theorem end_logging_frame (status : string) (errors : option (list pystr))
    (w : World) :
  let w' := end_logging status errors w in
  self w' = self w
  ∧ discovered_domains (db w') = discovered_domains (db w)
  ∧ length (crawler_logs (db w')) = length (crawler_logs (db w))
  ∧ (∀ i row, crawler_logs (db w) !! i = Some row →
              Some (id row) ≠ log_id (self w) →
              crawler_logs (db w') !! i = Some row)
  ∧ (log_id (self w) = None → w' = w).
Proof.
  cbv zeta. unfold end_logging.
  destruct (log_id (self w)) as [[|n]|]; try by repeat split.
  cbn. repeat split; [| |done].
  - induction (crawler_logs (db w)) as [|l logs IH]; [done|]. cbn.
    destruct (id l =? S n)%nat; cbn; by rewrite ?IH.
  - induction (crawler_logs (db w)) as [|l logs IH]; intros i row Hrow Hid;
      [done|]. cbn.
    destruct (Nat.eqb_spec (id l) (S n)) as [Heq|Hne].
    + destruct i as [|i]; cbn in *; [|done].
      injection Hrow as ->. congruence.
    + destruct i as [|i]; cbn in *; [done|]. by apply IH.
Qed.

End AppendsFacts.

(** ** The source runner *)
Module RunFacts.
Import BaseCrawler Models Appends SaveFacts AppendsFacts.

Lemma extends_refl (w : World) : extends w w.
Proof. by repeat split. Qed.

Lemma extends_trans (w1 w2 w3 : World) :
  extends w1 w2 → extends w2 w3 → extends w1 w3.
Proof.
  intros (Hn & Hl & Hlogs & Hc & Hs) (Hn' & Hl' & Hlogs' & Hc' & Hs').
  repeat split; try congruence.
  intros k Hk. by apply Hs', Hs.
Qed.

Lemma update_first_snoc (n : nat) (f : CrawlerLog → CrawlerLog)
    (logs : list CrawlerLog) (row : CrawlerLog) :
  Forall (λ l, id l ≠ n) logs → id row = n →
  update_first n f (logs ++ [row]) = logs ++ [f row].
Proof.
  intros Hlogs Hrow. induction Hlogs as [|l logs Hl _ IH]; simpl.
  - by rewrite Hrow, Nat.eqb_refl.
  - apply Nat.eqb_neq in Hl. by rewrite Hl, IH.
Qed.

Section Run.
Variable unicode_lower : pystr → nat → N → pystr.
Variable crawl : Target.t → Py.result (list DomainData.t).
Variable clock : nat → Z * Z.

Local Notation normalize_domain := (normalize_domain unicode_lower).
Local Notation save_domain := (save_domain unicode_lower).
Local Notation save_all := (save_all unicode_lower).
Local Notation crawl_one := (crawl_one unicode_lower crawl clock).
Local Notation crawl_targets := (crawl_targets unicode_lower crawl clock).
Local Notation run := (run unicode_lower crawl clock).
Local Notation error_messages := (error_messages crawl).

Lemma save_domain_extends (domain_data : DomainData.t) (w : World) :
  extends w (save_domain domain_data w).2.
Proof.
  unfold BaseCrawler.save_domain.
  destruct (negb (is_valid_domain _)); [apply extends_refl|].
  destruct (find _ _); [apply extends_refl|].
  repeat split; try done. simpl.
  intros k Hk. unfold stored_names. simpl. rewrite map_app.
  apply elem_of_app. by left.
Qed.

Lemma save_all_extends (discovered : list DomainData.t) (w : World) :
  extends w (save_all discovered w).
Proof.
  revert w. induction discovered as [|d ds IH]; intros w; [apply extends_refl|].
  eapply extends_trans; [apply save_domain_extends | apply IH].
Qed.

(** A valid name is in the table once its candidate has been offered. *)
Lemma save_domain_stores (domain_data : DomainData.t) (w : World) :
  is_valid_domain (normalize_domain (DomainData.domain_name domain_data)) = true →
  normalize_domain (DomainData.domain_name domain_data)
    ∈ stored_names (save_domain domain_data w).2.
Proof.
  intros Hv.
  destruct (decide (normalize_domain (DomainData.domain_name domain_data)
                      ∈ stored_names w)) as [Hin|Hnew].
  - by apply save_domain_keeps.
  - destruct (save_domain_fresh unicode_lower domain_data w Hv Hnew)
      as (_ & -> & _).
    apply elem_of_app. right. by apply list_elem_of_singleton.
Qed.

Lemma save_all_stores (discovered : list DomainData.t)
    (domain_data : DomainData.t) (w : World) :
  domain_data ∈ discovered →
  is_valid_domain (normalize_domain (DomainData.domain_name domain_data)) = true →
  normalize_domain (DomainData.domain_name domain_data)
    ∈ stored_names (save_all discovered w).
Proof.
  intros Hin Hv. revert w.
  induction discovered as [|d ds IH]; intros w; [by apply elem_of_nil in Hin|].
  change (save_all (d :: ds) w) with (save_all ds (save_domain d w).2).
  apply elem_of_cons in Hin as [->|Hin].
  - apply save_all_keeps. by apply save_domain_stores.
  - by apply IH.
Qed.

(** With room for at least one call the rate limiter lets the caller in. *)
Lemma __enter___returns (rl : RateLimiter.t) (now woke : Z) :
  1 ≤ RateLimiter.calls rl →
  ∃ entered, RateLimiter.__enter__ rl now woke = Some entered
             ∧ RateLimiter.calls (RateLimiter.limiter entered)
               = RateLimiter.calls rl.
Proof.
  intros Hcalls. unfold RateLimiter.__enter__.
  destruct (filter (λ t, now - t < RateLimiter.period rl)
              (RateLimiter.timestamps rl)) as [|oldest_call rest]; simpl.
  - destruct (Z.geb_spec (Z.of_nat 0) (RateLimiter.calls rl)); [simpl in *; lia|].
    eexists. split; reflexivity.
  - destruct (_ >=? _); [|eexists; split; reflexivity].
    destruct (_ >? 0); eexists; split; reflexivity.
Qed.

(** One target: the limiter is entered, and either [crawl] raised or all
    it found has been offered to [save_domain]. *)
Lemma crawl_one_spec (i : nat) (cse : Target.t) (w : World) :
  1 ≤ RateLimiter.calls (rate_limiter (self w)) →
  ∃ w1, extends w w1
    ∧ crawl_one i cse w =
        match crawl cse with
        | Py.Raise e => (Py.Raise e, w1)
        | Py.Ok discovered => (Py.Ok tt, save_all discovered w1)
        end.
Proof.
  intros Hcalls. unfold BaseCrawler.crawl_one.
  destruct (__enter___returns (rate_limiter (self w)) (clock i).1 (clock i).2 Hcalls)
    as (entered & -> & Hsame).
  eexists. split; [|reflexivity].
  repeat split; try done.
Qed.

Lemma error_messages_cons (cse : Target.t) (rest : list Target.t) :
  error_messages (cse :: rest) =
  match Target.name cse, crawl cse with
  | Some cse_name, Py.Raise e =>
      [lit "Error crawling " ++ cse_name ++ lit ": " ++ Py.exn_str e]
  | _, _ => []
  end ++ error_messages rest.
Proof. reflexivity. Qed.

Lemma getitem_name_missing {A} :
  Py.getitem "name" (@None A) = Py.Raise (Py.Exc "KeyError" (lit "'name'")).
Proof. reflexivity. Qed.

Local Opaque lit Py.getitem.

Lemma getitem_name_present {A} (a : A) : Py.getitem "name" (Some a) = Py.Ok a.
Proof. Local Transparent Py.getitem. reflexivity. Qed.

Local Opaque Py.getitem.

(** The loop: it stops at the first target without a name, and otherwise
    goes through every target, collecting one message per failed crawl. *)
Lemma crawl_targets_spec (cse_targets : list Target.t) :
  ∀ (i : nat) (errors : list pystr) (w : World),
  1 ≤ RateLimiter.calls (rate_limiter (self w)) →
  ∃ w', extends w w'
    ∧ match find nameless cse_targets with
      | None =>
          crawl_targets i cse_targets errors w
            = (Py.Ok (errors ++ error_messages cse_targets), w')
          ∧ ∀ cse discovered domain_data,
              cse ∈ cse_targets → crawl cse = Py.Ok discovered →
              domain_data ∈ discovered →
              is_valid_domain
                (normalize_domain (DomainData.domain_name domain_data)) = true →
              normalize_domain (DomainData.domain_name domain_data)
                ∈ stored_names w'
      | Some _ =>
          crawl_targets i cse_targets errors w
            = (Py.Raise (Py.Exc "KeyError" (lit "'name'")), w')
      end.
Proof.
  induction cse_targets as [|cse rest IH]; intros i errors w Hcalls.
  - exists w. split; [apply extends_refl|]. simpl. split.
    + by rewrite app_nil_r.
    + intros cse ? ? Hin. by apply elem_of_nil in Hin.
  - rewrite error_messages_cons. simpl. unfold nameless at 1.
    destruct (Target.name cse) as [cse_name|] eqn:Hname;
      rewrite ?getitem_name_present, ?getitem_name_missing; simpl.
    + destruct (crawl_one_spec i cse w Hcalls) as (w1 & Hw1 & ->).
      destruct (crawl cse) as [discovered|e] eqn:Hcrawl.
      * pose proof (save_all_extends discovered w1) as Hsaved.
        assert (extends w (save_all discovered w1)) as Hw2
          by (eapply extends_trans; eassumption).
        destruct (IH (S i) errors (save_all discovered w1)) as (w' & Hw' & Hrest).
        { destruct Hw2 as (_ & _ & _ & -> & _). done. }
        exists w'. split; [eapply extends_trans; eassumption|].
        destruct (find nameless rest); [done|].
        destruct Hrest as [-> Hstored]. split; [done|].
        intros cse' discovered' domain_data [->|Hin]%elem_of_cons Hc Hd Hv.
        -- rewrite Hcrawl in Hc. injection Hc as <-.
           destruct Hw' as (_ & _ & _ & _ & Hsub). apply Hsub.
           by apply save_all_stores.
        -- by eapply Hstored.
      * destruct (IH (S i)
                    (errors ++ [lit "Error crawling " ++ cse_name ++ lit ": "
                                  ++ Py.exn_str e]) w1)
          as (w' & Hw' & Hrest).
        { destruct Hw1 as (_ & _ & _ & -> & _). done. }
        exists w'. split; [eapply extends_trans; eassumption|].
        destruct (find nameless rest); [done|].
        destruct Hrest as [-> Hstored]. split; [by rewrite <- app_assoc|].
        intros cse' discovered' domain_data [->|Hin]%elem_of_cons Hc Hd Hv.
        -- congruence.
        -- by eapply Hstored.
    + exists w. split; [apply extends_refl | reflexivity].
Qed.

Local Transparent lit Py.getitem.

(** The key of a new row is the key of no row in the table. *)
Lemma next_id_fresh (logs : list CrawlerLog) :
  Forall (λ l, id l ≠ next_id logs) logs.
Proof.
  apply Forall_forall. intros l Hl. unfold next_id.
  assert (id l ≤ max_list (map id logs))%nat; [|lia].
  apply max_list_elem_of_le.
  change (map id logs) with (id <$> logs). by apply list_elem_of_fmap_2.
Qed.

(** So [end_logging] finds the row its own [start_logging] inserted. *)
Lemma end_logging_last (status : string) (errors : list pystr) (w : World)
    (logs : list CrawlerLog) (row : CrawlerLog) :
  log_id (self w) = Some (next_id logs) →
  crawler_logs (db w) = logs ++ [row] →
  id row = next_id logs →
  self (end_logging status (Some errors) w) = self w
  ∧ crawler_logs (db (end_logging status (Some errors) w))
    = logs ++ [finalized w status (Some errors) row].
Proof.
  intros Hid Hlogs Hrow. unfold end_logging. rewrite Hid.
  unfold next_id at 1. cbn [set_db self db crawler_logs].
  split; [done|]. rewrite Hlogs. apply update_first_snoc; [|done].
  apply next_id_fresh.
Qed.

(** What [run] returns and how it leaves the log table, with the number
    of finds as the crawler holds it afterwards. *)
Lemma run_outcome (cse_targets : list Target.t) (w : World) :
  1 ≤ RateLimiter.calls (rate_limiter (self w)) →
  let result := (run cse_targets w).1 in
  let w' := (run cse_targets w).2 in
  let log_row (status : string) (errors : list pystr) :=
    {| id := next_id (crawler_logs (db w));
       crawler_name := name (self w);
       status := status;
       end_time_set := true;
       domains_discovered := length (domains_found (self w'));
       errors_encountered := length errors;
       error_details := match errors with [] => None | _ => Some errors end |} in
  match find nameless cse_targets with
  | None =>
      result = Py.Ok {| crawler := name (self w);
                        summary_domains_found := length (domains_found (self w'));
                        cses_processed := length cse_targets;
                        errors := length (error_messages cse_targets) |}
      ∧ crawler_logs (db w')
        = crawler_logs (db w)
          ++ [log_row "completed"%string (error_messages cse_targets)]
      ∧ ∀ cse discovered domain_data,
          cse ∈ cse_targets → crawl cse = Py.Ok discovered →
          domain_data ∈ discovered →
          is_valid_domain (normalize_domain
                             (DomainData.domain_name domain_data)) = true →
          normalize_domain (DomainData.domain_name domain_data)
            ∈ stored_names w'
  | Some _ =>
      result = Py.Raise (Py.Exc "KeyError" (lit "'name'"))
      ∧ crawler_logs (db w')
        = crawler_logs (db w) ++ [log_row "failed"%string [lit "'name'"]]
  end.
Proof.
  intros Hcalls. cbv zeta. unfold BaseCrawler.run.
  set (w0 := start_logging w).
  destruct (crawl_targets_spec cse_targets 0 [] w0)
    as (w2 & (Hname & Hlogid & Hlogs & _ & Hstored) & Hloop); [exact Hcalls|].
  destruct (find nameless cse_targets) as [bad|].
  - rewrite Hloop. cbn [fst snd Py.exn_str].
    destruct (end_logging_last "failed" [lit "'name'"] w2
                (crawler_logs (db w)) _ Hlogid Hlogs eq_refl)
      as [Hself Hrow].
    split; [done|]. rewrite Hrow. unfold finalized. rewrite Hself. done.
  - destruct Hloop as [Hloop Hfound]. cbn [app] in Hloop.
    rewrite Hloop. cbn [fst snd].
    destruct (end_logging_last "completed" (error_messages cse_targets) w2
                (crawler_logs (db w)) _ Hlogid Hlogs eq_refl)
      as [Hself Hrow].
    rewrite Hself. split; [by rewrite Hname|]. split.
    + rewrite Hrow. unfold finalized. cbn [given default id crawler_name].
      unfold w0. simpl. done.
    + intros cse discovered domain_data Hin Hcrawl Hd Hv.
      unfold stored_names, end_logging. destruct (log_id (self w2)) as [[|n]|];
        by eapply Hfound.
Qed.

End Run.

(** C4: [run] isolates per-target errors.  Take a crawler whose rate
    limiter admits at least one call.  The run appends rows to the domain
    table, each storing a finding that a successful [crawl] on one of the
    targets returned, and appends their names to [domains_found]; the
    number of domains found that it reports is the length of that list
    afterwards, the finds the crawler held before plus the rows of this
    run.  If every target has a name, [run] returns its summary with that
    number: every target has been processed (each valid name a successful
    [crawl] found is in the domain table), each [crawl] that raised has
    left one message in the error list and stopped nothing, and the run's
    log row is finalised with status [completed], the number of domains
    found and the number of errors.  If a target has no name, the
    [KeyError] of [cse['name']] leaves the loop: the log row is finalised
    with status [failed], the number of domains found up to there and the
    exception's message, and the exception is re-raised. *)
Theorem run_isolates_target_errors
    (unicode_lower : pystr → nat → N → pystr)
    (crawl : Target.t → Py.result (list DomainData.t))
    (clock : nat → Z * Z)
    (cse_targets : list Target.t) (w : World) :
  1 ≤ RateLimiter.calls (rate_limiter (self w)) →
  let result := (run unicode_lower crawl clock cse_targets w).1 in
  let w' := (run unicode_lower crawl clock cse_targets w).2 in
  ∃ rows,
    discovered_domains (db w') = discovered_domains (db w) ++ rows
    ∧ Forall (found_by unicode_lower crawl cse_targets) rows
    ∧ domains_found (self w')
      = domains_found (self w) ++ map Models.domain_name rows
    ∧ let found := (length (domains_found (self w)) + length rows)%nat in
      let log_row (status : string) (errors : list pystr) :=
        {| id := next_id (crawler_logs (db w));
           crawler_name := name (self w);
           status := status;
           end_time_set := true;
           domains_discovered := found;
           errors_encountered := length errors;
           error_details :=
             match errors with [] => None | _ => Some errors end |} in
      match find nameless cse_targets with
      | None =>
          result = Py.Ok {| crawler := name (self w);
                            summary_domains_found := found;
                            cses_processed := length cse_targets;
                            errors := length (error_messages crawl cse_targets) |}
          ∧ crawler_logs (db w')
            = crawler_logs (db w)
              ++ [log_row "completed"%string (error_messages crawl cse_targets)]
          ∧ ∀ cse discovered domain_data,
              cse ∈ cse_targets → crawl cse = Py.Ok discovered →
              domain_data ∈ discovered →
              is_valid_domain (normalize_domain unicode_lower
                                 (DomainData.domain_name domain_data)) = true →
              normalize_domain unicode_lower (DomainData.domain_name domain_data)
                ∈ stored_names w'
      | Some _ =>
          result = Py.Raise (Py.Exc "KeyError" (lit "'name'"))
          ∧ crawler_logs (db w')
            = crawler_logs (db w) ++ [log_row "failed"%string [lit "'name'"]]
      end.
Proof.
  intros Hcalls. cbv zeta.
  destruct (run_appended unicode_lower crawl clock cse_targets w)
    as (rows & Hdb & Hfound & _ & _ & _).
  destruct (run_from unicode_lower crawl clock cse_targets w)
    as (rows' & Hdb' & Hfrom).
  assert (rows' = rows) as ->.
  { rewrite Hdb in Hdb'. by apply app_inv_head in Hdb'. }
  exists rows. split; [exact Hdb|]. split; [exact Hfrom|].
  split; [exact Hfound|].
  pose proof (run_outcome unicode_lower crawl clock cse_targets w Hcalls)
    as Hrun.
  cbv zeta in Hrun. rewrite Hfound, length_app, length_map in Hrun.
  exact Hrun.
Qed.

Lemma run_isolates_target_errors_witness :
  let crawl := Examples.patchy in
  let cse_targets := [Examples.unlisted; Examples.acme] in
  let w := Examples.restarted (lit "whois") in
  let result := (run caseless crawl Examples.still_clock cse_targets w).1 in
  let w' := (run caseless crawl Examples.still_clock cse_targets w).2 in
  1 ≤ RateLimiter.calls (rate_limiter (self w))
  ∧ stored_names w'
    = [lit "acme-online.org"; lit "acmebank-login.com"; lit "acme-secure.net"]
  ∧ map (λ l, (id l, status l, domains_discovered l, errors_encountered l))
        (crawler_logs (db w'))
    = [(1, "completed"%string, 1, 0); (3, "completed"%string, 1, 0);
       (4, "completed"%string, 2, 1)]%nat
  ∧ option_map summary_domains_found
      (match result with Py.Ok summary => Some summary | Py.Raise _ => None end)
    = Some 2%nat
  ∧ ∃ rows,
      discovered_domains (db w') = discovered_domains (db w) ++ rows
      ∧ Forall (found_by caseless crawl cse_targets) rows
      ∧ domains_found (self w')
        = domains_found (self w) ++ map Models.domain_name rows
      ∧ let found := (length (domains_found (self w)) + length rows)%nat in
        let log_row (status : string) (errors : list pystr) :=
          {| id := next_id (crawler_logs (db w));
             crawler_name := name (self w);
             status := status;
             end_time_set := true;
             domains_discovered := found;
             errors_encountered := length errors;
             error_details :=
               match errors with [] => None | _ => Some errors end |} in
        match find nameless cse_targets with
        | None =>
            result = Py.Ok {| crawler := name (self w);
                              summary_domains_found := found;
                              cses_processed := length cse_targets;
                              errors := length (error_messages crawl cse_targets) |}
            ∧ crawler_logs (db w')
              = crawler_logs (db w)
                ++ [log_row "completed"%string
                      (error_messages crawl cse_targets)]
            ∧ ∀ cse discovered domain_data,
                cse ∈ cse_targets → crawl cse = Py.Ok discovered →
                domain_data ∈ discovered →
                is_valid_domain (normalize_domain caseless
                                   (DomainData.domain_name domain_data)) = true →
                normalize_domain caseless (DomainData.domain_name domain_data)
                  ∈ stored_names w'
        | Some _ =>
            result = Py.Raise (Py.Exc "KeyError" (lit "'name'"))
            ∧ crawler_logs (db w')
              = crawler_logs (db w) ++ [log_row "failed"%string [lit "'name'"]]
        end.
Proof.
  cbv zeta.
  assert (1 ≤ RateLimiter.calls
                (rate_limiter (self (Examples.restarted (lit "whois")))))
    as Hcalls by (simpl; lia).
  split; [exact Hcalls|]. split; [vm_compute; reflexivity|].
  split; [vm_compute; reflexivity|]. split; [vm_compute; reflexivity|].
  exact (run_isolates_target_errors caseless Examples.patchy
           Examples.still_clock [Examples.unlisted; Examples.acme]
           (Examples.restarted (lit "whois")) Hcalls).
Defined.

End RunFacts.

(** ** The certificate-stream subscriber *)
Module CertTransparencyFacts.
Import CertTransparencyCrawler.

(** C9 (as stated) fails: with [max_retries = 3], a feed whose connection
    breaks five times, each time after delivering a certificate, is retried
    every time.  Each delivery resets [retry_count], so the thread makes
    five attempts, sleeps 5 seconds after each (the delay never grows) and
    never sets the stop flag. *)
Lemma subscriber_retries_past_max_retries :
  let trace := _monitor_ct_logs (replicate 5 Examples.dropped) __init__ in
  max_retries __init__ = 3
  ∧ attempts trace = 5%nat
  ∧ sleeps trace = [5; 5; 5; 5; 5]
  ∧ stop_monitoring (final trace) = false.
Proof. vm_compute. repeat split; reflexivity. Qed.

Lemma gives_up_after (k : nat) :
  ∀ (feed : list Connection) (self : t),
    stop_monitoring self = false →
    0 ≤ retry_count self →
    max_retries self - retry_count self = Z.of_nat (S k) →
    (S k ≤ length feed)%nat →
    Forall failed (take (S k) feed) →
    attempts (_monitor_ct_logs feed self) = S k
    ∧ length (sleeps (_monitor_ct_logs feed self)) = k
    ∧ Forall (λ sleep_time, 0 < sleep_time) (sleeps (_monitor_ct_logs feed self))
    ∧ stop_monitoring (final (_monitor_ct_logs feed self)) = true
    ∧ retry_count (final (_monitor_ct_logs feed self)) = max_retries self.
Proof.
  induction k as [|k IH]; intros feed self Hstop Hcount Hleft Hlen Hfailed;
    (destruct feed as [|c feed]; [simpl in Hlen; lia|]);
    apply Forall_cons in Hfailed as [(Hraised & Hdelivered & Hconsumer) Hfailed];
    simpl; rewrite Hstop, Hdelivered, Hraised, Hconsumer; simpl;
    (destruct (Z.ltb_spec (retry_count self) (max_retries self)); [|lia]); simpl.
  - destruct (Z.ltb_spec (retry_count self + 1) (max_retries self)); [lia|].
    simpl. repeat split; [constructor | lia].
  - destruct (Z.ltb_spec (retry_count self + 1) (max_retries self)); [|lia].
    simpl.
    destruct (IH feed {| stop_monitoring := false;
                         max_retries := max_retries self;
                         retry_count := retry_count self + 1 |})
      as (Hattempts & Hsleeps & Hpositive & Hflag & Hfinal);
      simpl; try done; try lia.
    { simpl in Hlen. lia. }
    rewrite Hattempts, Hsleeps. repeat split; try done.
    constructor; [lia | done].
Qed.

(** C9 (amended): after a connection attempt fails the subscriber sleeps
    and tries again; once [max_retries] attempts in a row have failed,
    with no certificate processed in between, it has made exactly
    [max_retries] attempts, slept a positive time between consecutive
    ones, and set the stop flag.  (Processing a certificate sets the count
    back to zero, so the attempts of a whole run are not bounded.) *)
Theorem subscriber_gives_up (feed : list Connection) (self : t) :
  stop_monitoring self = false →
  retry_count self = 0 →
  1 ≤ max_retries self →
  (Z.to_nat (max_retries self) ≤ length feed)%nat →
  Forall failed (take (Z.to_nat (max_retries self)) feed) →
  let trace := _monitor_ct_logs feed self in
  Z.of_nat (attempts trace) = max_retries self
  ∧ Z.of_nat (length (sleeps trace)) = max_retries self - 1
  ∧ Forall (λ sleep_time, 0 < sleep_time) (sleeps trace)
  ∧ stop_monitoring (final trace) = true.
Proof.
  intros Hstop Hcount Hmax Hlen Hfailed trace. subst trace.
  destruct (Z.to_nat (max_retries self)) as [|k] eqn:Hk; [lia|].
  destruct (gives_up_after k feed self) as (Ha & Hs & Hp & Hf & _);
    try done; try lia.
  rewrite Ha, Hs. repeat split; try done; lia.
Qed.

Lemma subscriber_gives_up_witness :
  let feed := replicate 3 Examples.refused in
  Forall failed (take (Z.to_nat (max_retries __init__)) feed)
  ∧ let trace := _monitor_ct_logs feed __init__ in
    Z.of_nat (attempts trace) = max_retries __init__
    ∧ Z.of_nat (length (sleeps trace)) = max_retries __init__ - 1
    ∧ Forall (λ sleep_time, 0 < sleep_time) (sleeps trace)
    ∧ stop_monitoring (final trace) = true.
Proof.
  intros feed.
  assert (Forall failed (take (Z.to_nat (max_retries __init__)) feed)) as Hfailed.
  { vm_compute. repeat constructor. }
  split; [exact Hfailed|].
  apply (subscriber_gives_up feed __init__).
  - reflexivity.
  - reflexivity.
  - simpl. lia.
  - vm_compute. lia.
  - exact Hfailed.
Defined.

End CertTransparencyFacts.

(** ** Splitting a string *)
Module SplitFacts.

Lemma split_on_cons_sep (sep : N) (s : pystr) :
  split_on sep (sep :: s) = [] :: split_on sep s.
Proof. cbn. by rewrite N.eqb_refl. Qed.

Lemma split_on_not_nil (sep : N) (s : pystr) : split_on sep s ≠ [].
Proof.
  destruct s as [|c s]; cbn; [done|].
  destruct (c =? sep)%N; [done|]. by destruct (split_on sep s).
Qed.

Lemma split_on_app_sep (sep : N) (label rest : pystr) :
  sep ∉ label →
  split_on sep (label ++ sep :: rest) = label :: split_on sep rest.
Proof.
  induction label as [|c label IH]; intros Hsep.
  - apply split_on_cons_sep.
  - apply not_elem_of_cons in Hsep as [Hc Hs]. cbn.
    destruct (N.eqb_spec c sep); [congruence|]. by rewrite (IH Hs).
Qed.

Lemma split_on_no_sep (sep : N) (s : pystr) :
  sep ∉ s → split_on sep s = [s].
Proof.
  induction s as [|c s IH]; intros Hsep; [done|]. cbn.
  apply not_elem_of_cons in Hsep as [Hc Hs].
  destruct (N.eqb_spec c sep); [congruence|]. by rewrite (IH Hs).
Qed.

End SplitFacts.

(** ** The ten operators, one by one *)
Module OperatorFacts.
Import Typosquat TyposquatFacts.

Lemma fqdn_inj (a b tld : pystr) : fqdn a tld = fqdn b tld → a = b.
Proof. unfold fqdn. apply app_inv_tail. Qed.

(** *** Omission *)

Lemma elem_of_omissions (domain tld v : pystr) :
  v ∈ omissions domain tld ↔
  (4 ≤ length domain)%nat
  ∧ ∃ i : nat, (i < length domain)%nat
               ∧ v = fqdn (take i domain ++ drop (i + 1) domain) tld.
Proof.
  unfold omissions. rewrite list_elem_of_In, in_flat_map.
  assert (∀ i, (i < length domain)%nat →
               length (take i domain ++ drop (i + 1) domain)
               = (length domain - 1)%nat) as Hlen.
  { intros i Hi. rewrite length_app, length_take, length_drop. lia. }
  split.
  - intros (i & Hi & Hv). apply list_elem_of_In, elem_of_seq in Hi.
    cbv zeta in Hv. rewrite Hlen in Hv by lia.
    destruct (Nat.leb_spec 3 (length domain - 1)) as [Hfit|Hshort].
    + apply list_elem_of_In, list_elem_of_singleton in Hv.
      split; [lia|]. exists i. split; [lia | done].
    + by apply list_elem_of_In, elem_of_nil in Hv.
  - intros (Hfit & i & Hi & ->). exists i. split.
    + apply list_elem_of_In, elem_of_seq. lia.
    + cbv zeta. rewrite Hlen by lia.
      destruct (Nat.leb_spec 3 (length domain - 1)); [|lia].
      apply list_elem_of_In, list_elem_of_singleton. done.
Qed.

(** X1: [_character_omission] drops one character of the label, at each of
    its positions, and does so only for labels of four characters or more:
    the guard [len(variant) >= 3] does not depend on the position, so a
    shorter label yields nothing at all. *)
Theorem _character_omission_spec (domain tld v : pystr) :
  v ∈ _character_omission domain tld ↔
  (4 ≤ length domain)%nat
  ∧ ∃ i : nat, (i < length domain)%nat
               ∧ v = fqdn (take i domain ++ drop (i + 1) domain) tld.
Proof.
  unfold _character_omission, added.
  rewrite elem_of_list_to_set. apply elem_of_omissions.
Qed.

(** *** Transposition *)

Lemma elem_of_swaps (domain tld v : pystr) :
  v ∈ swaps domain tld ↔
  ∃ (i : nat) (a b : N),
    domain !! i = Some a ∧ domain !! (i + 1)%nat = Some b
    ∧ v = fqdn (<[i := b]> (<[(i + 1)%nat := a]> domain)) tld.
Proof.
  unfold swaps. rewrite list_elem_of_In, in_flat_map. split.
  - intros (i & _ & Hv).
    destruct (domain !! i) as [a|] eqn:Ha;
      [|by apply list_elem_of_In, elem_of_nil in Hv].
    destruct (domain !! (i + 1)%nat) as [b|] eqn:Hb;
      [|by apply list_elem_of_In, elem_of_nil in Hv].
    apply list_elem_of_In, list_elem_of_singleton in Hv.
    by exists i, a, b.
  - intros (i & a & b & Ha & Hb & ->). exists i. split.
    + apply list_elem_of_In, elem_of_seq.
      apply lookup_lt_Some in Hb. lia.
    + rewrite Ha, Hb. apply list_elem_of_In, list_elem_of_singleton. done.
Qed.

(** X2: [_character_swap] only reorders: the label of every variant it returns
    is a permutation of the seed label (so it has the same length and the
    same characters). *)
Theorem _character_swap_permutes (domain tld v : pystr) :
  v ∈ _character_swap domain tld →
  ∃ label, v = fqdn label tld ∧ label ≡ₚ domain.
Proof.
  unfold _character_swap, added. rewrite elem_of_list_to_set, elem_of_swaps.
  intros (i & a & b & Ha & Hb & ->). eexists. split; [done|].
  by apply Permutation_insert_swap.
Qed.

Lemma _character_swap_permutes_witness :
  lit "amcebank.com" ∈ _character_swap (lit "acmebank") (lit "com")
  ∧ ∃ label, lit "amcebank.com" = fqdn label (lit "com")
             ∧ label ≡ₚ lit "acmebank".
Proof.
  assert (lit "amcebank.com" ∈ _character_swap (lit "acmebank") (lit "com"))
    as Hin.
  { unfold _character_swap, added. apply elem_of_list_to_set, str_in_elem_of.
    vm_compute. reflexivity. }
  split; [exact Hin|].
  exact (_character_swap_permutes (lit "acmebank") (lit "com")
           (lit "amcebank.com") Hin).
Defined.

(** X3: [_character_swap] returns the seed label unchanged exactly when the
    label has a doubled letter: swapping two equal neighbours is not
    skipped. *)
Theorem _character_swap_returns_seed (domain tld : pystr) :
  fqdn domain tld ∈ _character_swap domain tld ↔
  ∃ (i : nat) (c : N),
    domain !! i = Some c ∧ domain !! (i + 1)%nat = Some c.
Proof.
  unfold _character_swap, added. rewrite elem_of_list_to_set, elem_of_swaps.
  split.
  - intros (i & a & b & Ha & Hb & Heq). apply fqdn_inj in Heq.
    exists i, a. split; [done|].
    assert (domain !! i = Some b) as Hb'.
    { rewrite Heq at 1. apply list_lookup_insert_eq.
      rewrite length_insert. by apply lookup_lt_Some in Ha. }
    congruence.
  - intros (i & c & Ha & Hb). exists i, c, c. repeat split; [done..|].
    by rewrite (list_insert_id _ (i + 1) c Hb), (list_insert_id _ i c Ha).
Qed.

(** *** Prefixes and suffixes *)

Lemma elem_of_affixed (domain tld v : pystr) :
  v ∈ affixed domain tld →
  ∃ prefix suffix : pystr,
    truthy prefix || truthy suffix = true
    ∧ v = fqdn (join [hyphen]
                  (filter (λ p, truthy p = true) [prefix; domain; suffix])) tld.
Proof.
  unfold affixed. rewrite list_elem_of_In, in_flat_map.
  intros (prefix & _ & Hv). apply in_flat_map in Hv as (suffix & _ & Hv).
  exists prefix, suffix.
  destruct (truthy prefix || truthy suffix);
    [|by apply list_elem_of_In, elem_of_nil in Hv].
  by apply list_elem_of_In, list_elem_of_singleton in Hv.
Qed.

Lemma length_affix (prefix domain suffix : pystr) :
  truthy prefix || truthy suffix = true →
  (length domain
   < length (join [hyphen]
               (filter (λ p, truthy p = true) [prefix; domain; suffix])))%nat.
Proof.
  destruct prefix as [|p prefix], domain as [|d domain],
    suffix as [|s suffix]; cbn; try discriminate; intros _;
    repeat case_decide; try done;
    cbn; rewrite ?length_app; cbn; rewrite ?length_app; cbn; lia.
Qed.

(** X4: [_prefix_suffix] never returns the name it was given: every string it
    adds has a longer label, the pair of empty affixes being skipped. *)
Theorem _prefix_suffix_lengthens (domain tld v : pystr) :
  v ∈ _prefix_suffix domain tld →
  ∃ label, v = fqdn label tld ∧ (length domain < length label)%nat.
Proof.
  unfold _prefix_suffix, added. rewrite elem_of_list_to_set.
  intros (prefix & suffix & Haffix & ->)%elem_of_affixed.
  eexists. split; [done|]. by apply length_affix.
Qed.

Lemma _prefix_suffix_lengthens_witness :
  lit "secure-acmebank.com" ∈ _prefix_suffix (lit "acmebank") (lit "com")
  ∧ ∃ label, lit "secure-acmebank.com" = fqdn label (lit "com")
             ∧ (length (lit "acmebank") < length label)%nat.
Proof.
  assert (lit "secure-acmebank.com"
            ∈ _prefix_suffix (lit "acmebank") (lit "com")) as Hin.
  { unfold _prefix_suffix, added. apply elem_of_list_to_set, str_in_elem_of.
    vm_compute. reflexivity. }
  split; [exact Hin|].
  exact (_prefix_suffix_lengthens (lit "acmebank") (lit "com")
           (lit "secure-acmebank.com") Hin).
Defined.

(** *** What every variant looks like *)

Lemma under_flat_map {A} (tld : pystr) (f : A → list pystr) (l : list A) :
  (∀ x, under tld (f x)) → under tld (flat_map f l).
Proof.
  intros Hf v Hv. apply list_elem_of_In, in_flat_map in Hv as (x & _ & Hv).
  apply (Hf x). by apply list_elem_of_In.
Qed.

Lemma under_nil (tld : pystr) : under tld [].
Proof. intros v Hv. by apply elem_of_nil in Hv. Qed.

Lemma under_singleton (tld label : pystr) : under tld [fqdn label tld].
Proof. intros v ->%list_elem_of_singleton. by eexists. Qed.

Lemma under_app (tld : pystr) (xs ys : list pystr) :
  under tld xs → under tld ys → under tld (xs ++ ys).
Proof. intros Hx Hy v [?|?]%elem_of_app; [by apply Hx | by apply Hy]. Qed.

Section Shape.
Variable unicode_lower : pystr → nat → N → pystr.

Lemma under_replacements (table : list (pystr * list pystr))
    (domain tld : pystr) :
  under tld (replacements unicode_lower table domain tld).
Proof.
  intros v Hv. unfold replacements in Hv.
  apply list_elem_of_In, in_concat in Hv as (l & Hl & Hv).
  apply list_elem_of_In, elem_of_lookup_imap in Hl as (i & char & -> & _).
  destruct (lookup_lower unicode_lower table char);
    [|by apply list_elem_of_In, elem_of_nil in Hv].
  apply in_map_iff in Hv as (replacement & <- & _). by eexists.
Qed.

Lemma under_omissions (domain tld : pystr) : under tld (omissions domain tld).
Proof.
  apply under_flat_map. intros i. cbv zeta.
  destruct (3 <=? _)%nat; [apply under_singleton | apply under_nil].
Qed.

Lemma under_repetitions (domain tld : pystr) :
  under tld (repetitions domain tld).
Proof.
  apply under_flat_map. intros i.
  destruct (domain !! i); [apply under_singleton | apply under_nil].
Qed.

Lemma under_insertions (domain tld : pystr) : under tld (insertions domain tld).
Proof.
  apply under_flat_map. intros i. apply under_flat_map. intros char.
  cbv zeta. destruct (_ <=? 63)%nat; [apply under_singleton | apply under_nil].
Qed.

Lemma under_swaps (domain tld : pystr) : under tld (swaps domain tld).
Proof.
  apply under_flat_map. intros i.
  destruct (domain !! i), (domain !! (i + 1)%nat);
    try apply under_singleton; apply under_nil.
Qed.

Lemma under_hyphenations (domain tld : pystr) :
  under tld (hyphenations domain tld).
Proof.
  intros v Hv. unfold hyphenations in Hv.
  apply list_elem_of_In, in_map_iff in Hv as (i & <- & _). by eexists.
Qed.

Lemma under_affixed (domain tld : pystr) : under tld (affixed domain tld).
Proof.
  apply under_flat_map. intros prefix. apply under_flat_map. intros suffix.
  destruct (truthy prefix || truthy suffix);
    [apply under_singleton | apply under_nil].
Qed.

Lemma operator_outputs_shape (domain tld v : pystr) :
  v ∈ operator_outputs unicode_lower domain tld →
  (∃ label, v = fqdn label tld)
  ∨ (∃ common, common ∈ COMMON_TLDS ∧ v = fqdn domain common).
Proof.
  unfold operator_outputs. rewrite !elem_of_app.
  intros [Hv|[Hv|[Hv|[Hv|[Hv|[Hv|[Hv|[Hv|[Hv|Hv]]]]]]]]].
  - left. by apply (under_omissions domain tld).
  - left. by apply (under_repetitions domain tld).
  - left. by apply (under_replacements CHAR_SUBSTITUTIONS domain tld).
  - left. by apply (under_insertions domain tld).
  - left. by apply (under_swaps domain tld).
  - left. by eapply under_replacements.
  - left. by apply (under_replacements homographs domain tld).
  - right. unfold tld_variants in Hv.
    apply list_elem_of_In, in_map_iff in Hv as (common & <- & Hc).
    exists common. split; [by apply list_elem_of_In | done].
  - left. by apply (under_hyphenations domain tld).
  - left. by apply (under_affixed domain tld).
Qed.

Variable extract_domain_parts : pystr → DomainParts.

Lemma all_operators_shape (seed v : pystr) :
  v ∈ all_operators unicode_lower extract_domain_parts seed →
  (∃ label, v = fqdn label (suffix (extract_domain_parts seed)))
  ∨ (∃ tld, tld ∈ COMMON_TLDS
            ∧ v = fqdn (domain (extract_domain_parts seed)) tld).
Proof.
  rewrite all_operators_added. unfold added.
  rewrite elem_of_list_to_set. apply operator_outputs_shape.
Qed.

End Shape.

(** X5: Every variant [generate_all_variants] returns ends with a dot and the
    seed's own public suffix, or is the seed's registrable label followed
    by a dot and one of the 18 common TLDs: only [_tld_variations] changes
    the suffix, and it changes nothing else.  The iteration of a set is
    assumed to yield only members of the set. *)
Theorem generate_all_variants_shape
    (unicode_lower : pystr → nat → N → pystr)
    (extract_domain_parts : pystr → DomainParts)
    (set_iter : gset pystr → list pystr)
    (seed : pystr) (max_variants : Z) (v : pystr) :
  (∀ s x, x ∈ set_iter s → x ∈ s) →
  v ∈ generate_all_variants unicode_lower extract_domain_parts set_iter
        seed max_variants →
  (∃ label, v = fqdn label (suffix (extract_domain_parts seed)))
  ∨ (∃ tld, tld ∈ COMMON_TLDS
            ∧ v = fqdn (domain (extract_domain_parts seed)) tld).
Proof.
  intros Hiter Hv. apply all_operators_shape with unicode_lower.
  unfold generate_all_variants in Hv. cbv zeta in Hv.
  destruct (_ >? _); [|done].
  apply elem_of_list_to_set in Hv. apply Hiter.
  unfold slice_to in Hv. destruct (max_variants <? 0);
    by apply elem_of_take in Hv as (? & ?%list_elem_of_lookup_2 & ?).
Qed.

Lemma generate_all_variants_shape_witness :
  let seed := lit "www.acmebank.com" in
  let v := lit "acmebank.net" in
  (∀ (s : gset pystr) x, x ∈ elements s → x ∈ s)
  ∧ v ∈ generate_all_variants caseless (psl_extract COMMON_TLDS) elements
          seed 1000
  ∧ ((∃ label, v = fqdn label (suffix (psl_extract COMMON_TLDS seed)))
     ∨ (∃ tld, tld ∈ COMMON_TLDS
               ∧ v = fqdn (domain (psl_extract COMMON_TLDS seed)) tld)).
Proof.
  cbv zeta.
  assert (∀ (s : gset pystr) x, x ∈ elements s → x ∈ s) as Hiter.
  { intros s x. apply elem_of_elements. }
  assert (psl_extract COMMON_TLDS (lit "www.acmebank.com") =
          {| subdomain := lit "www"; domain := lit "acmebank";
             suffix := lit "com" |}) as Hparts
    by (vm_compute; reflexivity).
  assert (lit "acmebank.net"
            ∈ generate_all_variants caseless (psl_extract COMMON_TLDS)
                elements (lit "www.acmebank.com") 1000) as Hin.
  { rewrite generate_below_cap.
    - rewrite all_operators_added, Hparts. cbn [domain suffix].
      apply elem_of_list_to_set, str_in_elem_of. vm_compute. reflexivity.
    - rewrite all_operators_added, Hparts, size_added. cbn [domain suffix].
      assert (length (remove_dups (operator_outputs caseless (lit "acmebank")
                                     (lit "com"))) = 450%nat) as ->
        by (vm_compute; reflexivity).
      lia. }
  split; [exact Hiter|]. split; [exact Hin|].
  exact (generate_all_variants_shape caseless (psl_extract COMMON_TLDS)
           elements (lit "www.acmebank.com") 1000 (lit "acmebank.net")
           Hiter Hin).
Defined.

(** *** A negative cap *)

Lemma size_take_iter (set_iter : gset pystr → list pystr)
    (s : gset pystr) (n : nat) :
  set_iter s ≡ₚ elements s →
  size (list_to_set (C := gset pystr) (take n (set_iter s)))
  = Nat.min n (size s).
Proof.
  intros Hperm. rewrite size_list_to_set.
  - rewrite length_take. unfold size, set_size. cbn. by rewrite Hperm.
  - apply (sublist_NoDup _ (set_iter s)); [|apply sublist_take].
    rewrite Hperm. apply NoDup_elements.
Qed.

(** X6: A negative [max_variants] does not empty the result: Python's slice
    [[:max_variants]] then drops that many variants from the end of the
    iteration, so [-k] leaves all but [k] of them. *)
Theorem generate_all_variants_negative_cap
    (unicode_lower : pystr → nat → N → pystr)
    (extract_domain_parts : pystr → DomainParts)
    (set_iter : gset pystr → list pystr)
    (seed : pystr) (max_variants : Z) :
  (∀ s, set_iter s ≡ₚ elements s) →
  max_variants < 0 →
  Z.of_nat (size (generate_all_variants unicode_lower extract_domain_parts
                    set_iter seed max_variants))
  = Z.max 0 (Z.of_nat (size (all_operators unicode_lower extract_domain_parts
                               seed)) + max_variants).
Proof.
  intros Hperm Hneg. rewrite generate_above_cap by lia.
  unfold slice_to. destruct (Z.ltb_spec max_variants 0); [|lia].
  assert (length (set_iter (all_operators unicode_lower extract_domain_parts seed))
          = size (all_operators unicode_lower extract_domain_parts seed)) as ->.
  { unfold size, set_size. cbn. by rewrite Hperm. }
  rewrite size_take_iter by done. lia.
Qed.

Lemma generate_all_variants_negative_cap_witness :
  (∀ s : gset pystr, elements s ≡ₚ elements s)
  ∧ -400 < 0
  ∧ Z.of_nat (size (generate_all_variants caseless (psl_extract COMMON_TLDS)
                      elements (lit "acmebank.com") (-400)))
    = Z.max 0 (Z.of_nat (size (all_operators caseless (psl_extract COMMON_TLDS)
                                 (lit "acmebank.com"))) + -400).
Proof.
  split; [done|]. split; [lia|].
  apply generate_all_variants_negative_cap; [done | lia].
Defined.

End OperatorFacts.

(** ** How many variants there can be *)
Module VariantCountFacts.
Import Typosquat TyposquatFacts.

Lemma length_flat_map_le {A B} (f : A → list B) (l : list A) (k : nat) :
  (∀ x, length (f x) ≤ k)%nat → (length (flat_map f l) ≤ k * length l)%nat.
Proof.
  intros Hf. induction l as [|x l IH]; cbn; [lia|].
  rewrite length_app. specialize (Hf x). lia.
Qed.

Lemma length_concat_imap_le {A B} (k : nat) (l : list A) :
  ∀ f : nat → A → list B,
  (∀ i x, length (f i x) ≤ k)%nat →
  (length (concat (imap f l)) ≤ k * length l)%nat.
Proof.
  induction l as [|x l IH]; intros f Hf; cbn; [lia|].
  rewrite length_app.
  assert (length (concat (imap (f ∘ S) l)) ≤ k * length l)%nat.
  { apply IH. intros i y. apply Hf. }
  specialize (Hf 0%nat x). lia.
Qed.

Lemma dict_get_In {V} (d : list (pystr * V)) (k : pystr) (v : V) :
  dict_get d k = Some v → ∃ key, (key, v) ∈ d.
Proof.
  unfold dict_get. destruct (find _ d) as [[key v']|] eqn:Hfind; [|done].
  intros [= <-]. exists key. apply find_some in Hfind as [Hin _].
  by apply list_elem_of_In.
Qed.

Section Count.
Variable unicode_lower : pystr → nat → N → pystr.

Lemma length_replacements (table : list (pystr * list pystr)) (k : nat)
    (domain tld : pystr) :
  Forall (λ kv, length kv.2 ≤ k)%nat table →
  (length (replacements unicode_lower table domain tld) ≤ k * length domain)%nat.
Proof.
  intros Htable. unfold replacements. apply length_concat_imap_le.
  intros i char. destruct (lookup_lower _ _ _) as [reps|] eqn:Hget; cbn; [|lia].
  rewrite length_map. apply dict_get_In in Hget as (key & Hin).
  rewrite Forall_forall in Htable. apply (Htable _ Hin).
Qed.

Lemma length_operator_outputs (domain tld : pystr) :
  (length (operator_outputs unicode_lower domain tld)
   ≤ 53 * length domain + 102)%nat.
Proof.
  unfold operator_outputs. rewrite !length_app.
  assert (length (omissions domain tld) ≤ length domain)%nat.
  { unfold omissions. etrans; [apply (length_flat_map_le _ _ 1)|].
    - intros i. cbv zeta. destruct (3 <=? _)%nat; cbn; lia.
    - rewrite length_seq. lia. }
  assert (length (repetitions domain tld) ≤ length domain)%nat.
  { unfold repetitions. etrans; [apply (length_flat_map_le _ _ 1)|].
    - intros i. destruct (domain !! i); cbn; lia.
    - rewrite length_seq. lia. }
  assert (length (replacements unicode_lower CHAR_SUBSTITUTIONS domain tld)
          ≤ 3 * length domain)%nat.
  { apply length_replacements.
    apply (bool_decide_unpack _). vm_compute. reflexivity. }
  assert (length (insertions domain tld) ≤ 36 * (length domain + 1))%nat.
  { unfold insertions. etrans; [apply (length_flat_map_le _ _ 36)|].
    - intros i. etrans; [apply (length_flat_map_le _ _ 1)|].
      + intros char. cbv zeta. destruct (_ <=? 63)%nat; cbn; lia.
      + change (length insertion_alphabet) with 36%nat. lia.
    - rewrite length_seq. lia. }
  assert (length (swaps domain tld) ≤ length domain)%nat.
  { unfold swaps. etrans; [apply (length_flat_map_le _ _ 1)|].
    - intros i. destruct (domain !! i), (domain !! (i + 1)%nat); cbn; lia.
    - rewrite length_seq. lia. }
  assert (length (replacements unicode_lower
                    (map (λ kv, (kv.1, map (λ c, [c]) kv.2)) KEYBOARD_ADJACENCY)
                    domain tld)
          ≤ 7 * length domain)%nat.
  { apply length_replacements.
    apply (bool_decide_unpack _). vm_compute. reflexivity. }
  assert (length (replacements unicode_lower homographs domain tld)
          ≤ 3 * length domain)%nat.
  { apply length_replacements.
    apply (bool_decide_unpack _). vm_compute. reflexivity. }
  assert (length (tld_variants domain) = 18%nat) by reflexivity.
  assert (length (hyphenations domain tld) ≤ length domain)%nat.
  { unfold hyphenations. rewrite length_map, length_seq. lia. }
  assert (length (affixed domain tld) = 48%nat) by reflexivity.
  lia.
Qed.

End Count.

(** X7: The ten operators together return a number of variants that is linear
    in the length [n] of the seed's label, at most [53 n + 102], whatever
    the case mapping and the public-suffix split are: no operator combines
    two edits. *)
Theorem all_operators_linear
    (unicode_lower : pystr → nat → N → pystr)
    (extract_domain_parts : pystr → DomainParts)
    (seed : pystr) :
  (size (all_operators unicode_lower extract_domain_parts seed)
   ≤ 53 * length (domain (extract_domain_parts seed)) + 102)%nat.
Proof.
  rewrite all_operators_added.
  etrans; [apply size_added_le | apply length_operator_outputs].
Qed.

End VariantCountFacts.

(** ** The IDN homograph generator *)
Module IDNGeneratorFacts.
Import Typosquat IDNGenerator SplitFacts.

(** X8: A name without a dot has no TLD to keep: [generate_idn_variants]
    returns the empty set for it, whatever the cap. *)
Theorem generate_idn_variants_no_dot
    (unicode_lower : pystr → nat → N → pystr)
    (domain : pystr) (max_variants : Z) :
  dot ∉ domain →
  generate_idn_variants unicode_lower domain max_variants = ∅.
Proof.
  intros Hdot. unfold generate_idn_variants.
  by rewrite (split_on_no_sep dot domain Hdot).
Qed.

Lemma generate_idn_variants_no_dot_witness :
  (dot ∉ lit "localhost")
  ∧ generate_idn_variants caseless (lit "localhost") 100 = ∅.
Proof.
  assert (dot ∉ lit "localhost") as Hdot.
  { apply (bool_decide_unpack _). vm_compute. reflexivity. }
  split; [exact Hdot|].
  exact (generate_idn_variants_no_dot caseless (lit "localhost") 100 Hdot).
Defined.

Lemma size_add_one (x : pystr) (variants : gset pystr) :
  (size ({[x]} ∪ variants) ≤ S (size variants))%nat.
Proof.
  etrans; [apply size_union_le|]. by rewrite size_singleton.
Qed.

(** The loop stops at the cap: when it starts below [max_variants] it
    ends with at most [max_variants] strings. *)
Lemma add_until_below (max_variants : Z) (xs : list pystr) :
  ∀ variants : gset pystr,
  Z.of_nat (size variants) < max_variants →
  Z.of_nat (size (add_until max_variants xs variants)) ≤ max_variants.
Proof.
  induction xs as [|x xs IH]; intros variants Hbelow; cbn; [lia|].
  pose proof (size_add_one x variants).
  destruct (Z.geb_spec (Z.of_nat (size ({[x]} ∪ variants))) max_variants);
    [lia|]. apply IH. lia.
Qed.

(** With a cap that is already reached, the loop returns after its first
    [add]. *)
Lemma add_until_reached (max_variants : Z) (xs : list pystr)
    (variants : gset pystr) :
  max_variants ≤ Z.of_nat (size variants) →
  (size (add_until max_variants xs variants) ≤ S (size variants))%nat.
Proof.
  intros Hreached. destruct xs as [|x xs]; cbn; [lia|].
  pose proof (size_add_one x variants).
  destruct (Z.geb_spec (Z.of_nat (size ({[x]} ∪ variants))) max_variants);
    [done|].
  assert (size variants ≤ size ({[x]} ∪ variants))%nat
    by (apply subseteq_size, union_subseteq_r).
  lia.
Qed.

(** X9: [generate_idn_variants] respects its cap: it returns at most
    [max_variants] strings, and a single string when the cap is zero or
    negative (the check comes after the first [add]). *)
Theorem generate_idn_variants_size
    (unicode_lower : pystr → nat → N → pystr)
    (domain : pystr) (max_variants : Z) :
  Z.of_nat (size (generate_idn_variants unicode_lower domain max_variants))
  ≤ Z.max 1 max_variants.
Proof.
  unfold generate_idn_variants. cbv zeta.
  destruct (_ <? 2)%nat; [rewrite size_empty; lia|].
  destruct (Z.le_gt_cases max_variants 0) as [Hnone|Hsome].
  - etrans; [apply inj_le, add_until_reached; rewrite size_empty; lia|].
    rewrite size_empty. lia.
  - etrans; [apply add_until_below; rewrite size_empty; lia | lia].
Qed.

End IDNGeneratorFacts.

(** ** The regular expression and the grammar it stands for *)
Module GrammarFacts.
Import Grammar SplitFacts.

Lemma nullable_lang (r : regex) : nullable r = true ↔ lang r [].
Proof.
  induction r as [| |ranges|r1 IH1 r2 IH2|r1 IH1 r2 IH2|r IH]; cbn.
  - done.
  - done.
  - split; [done|]. by intros (c & Hc & _).
  - rewrite andb_true_iff, IH1, IH2. split.
    + intros [H1 H2]. by exists [], [].
    + intros (s1 & s2 & Heq & H1 & H2). symmetry in Heq.
      by apply app_eq_nil in Heq as [-> ->].
  - by rewrite orb_true_iff, IH1, IH2.
  - split; [intros _; constructor | done].
Qed.

Lemma star_cons_inv (L : pystr → Prop) (c : N) (s : pystr) :
  star L (c :: s) → ∃ s1 s2, s = s1 ++ s2 ∧ L (c :: s1) ∧ star L s2.
Proof.
  intros H. remember (c :: s) as w eqn:Hw. revert c s Hw.
  induction H as [|s1 s2 H1 H2 IH]; intros c s Hw; [done|].
  destruct s1 as [|c1 s1]; cbn in Hw.
  - by apply IH.
  - injection Hw as -> <-. by exists s1, s2.
Qed.

Lemma deriv_lang (r : regex) :
  ∀ (c : N) (s : pystr), lang (deriv c r) s ↔ lang r (c :: s).
Proof.
  induction r as [| |ranges|r1 IH1 r2 IH2|r1 IH1 r2 IH2|r IH]; intros c s; cbn.
  - done.
  - done.
  - destruct (in_ranges c ranges) eqn:Hin; cbn.
    + split; [intros ->; by exists c|]. by intros (c' & [= -> ->] & _).
    + split; [done|]. intros (c' & [= -> ->] & Hc). congruence.
  - destruct (nullable r1) eqn:Hnull; cbn.
    + split.
      * intros [(s1 & s2 & -> & H1 & H2) | H].
        -- exists (c :: s1), s2. by rewrite <- IH1.
        -- exists [], (c :: s). split; [done|].
           split; [by apply nullable_lang | by apply IH2].
      * intros (t1 & t2 & Heq & H1 & H2). destruct t1 as [|c' t1]; cbn in Heq.
        -- right. subst t2. by apply IH2.
        -- injection Heq as <- ->. left. exists t1, t2. by rewrite IH1.
    + split.
      * intros (s1 & s2 & -> & H1 & H2). exists (c :: s1), s2. by rewrite <- IH1.
      * intros (t1 & t2 & Heq & H1 & H2). destruct t1 as [|c' t1]; cbn in Heq.
        -- apply nullable_lang in H1. congruence.
        -- injection Heq as <- ->. exists t1, t2. by rewrite IH1.
  - by rewrite IH1, IH2.
  - split.
    + intros (s1 & s2 & -> & H1 & H2). apply IH in H1.
      by apply (star_app _ (c :: s1) s2).
    + intros (s1 & s2 & -> & H1 & H2)%star_cons_inv.
      exists s1, s2. by rewrite IH.
Qed.

(** The derivative matcher accepts exactly the words of the regex. *)
Lemma fullmatch_lang (r : regex) (s : pystr) : fullmatch r s = true ↔ lang r s.
Proof.
  unfold fullmatch. revert r. induction s as [|c s IH]; intros r; cbn.
  - apply nullable_lang.
  - rewrite IH. apply deriv_lang.
Qed.

(** *** Repetitions of a character class *)

Lemma lang_Seq (r1 r2 : regex) (s : pystr) :
  lang (Seq r1 r2) s ↔ ∃ s1 s2, s = s1 ++ s2 ∧ lang r1 s1 ∧ lang r2 s2.
Proof. done. Qed.

Lemma lang_Cls (ranges : list (N * N)) (s : pystr) :
  lang (Cls ranges) s ↔ ∃ c, s = [c] ∧ in_ranges c ranges = true.
Proof. done. Qed.

Lemma lang_Times (ranges : list (N * N)) (n : nat) :
  ∀ s, lang (Times n (Cls ranges)) s ↔ length s = n ∧ word ranges s.
Proof.
  induction n as [|n IH]; intros s; cbn.
  - split; [intros ->; by split; [|constructor] | by intros [->%nil_length_inv _]].
  - split.
    + intros (s1 & s2 & -> & (c & -> & Hc) & H2).
      apply IH in H2 as [<- Hw]. split; [done | by constructor].
    + intros [Hlen Hw]. destruct s as [|c s]; [done|].
      apply Forall_cons in Hw as [Hc Hw]. exists [c], s.
      split; [done|]. split; [by exists c|].
      apply IH. split; [cbn in Hlen; lia | done].
Qed.

Lemma lang_UpTo (ranges : list (N * N)) (n : nat) :
  ∀ s, lang (UpTo n (Cls ranges)) s ↔ (length s ≤ n)%nat ∧ word ranges s.
Proof.
  induction n as [|n IH]; intros s; cbn.
  - split; [intros ->; by split; [|constructor]|].
    intros [Hlen _]. apply nil_length_inv. lia.
  - split.
    + intros [(s1 & s2 & -> & (c & -> & Hc) & H2) | ->].
      * apply IH in H2 as [Hlen Hw]. split; [cbn; lia | by constructor].
      * split; [cbn; lia | constructor].
    + intros [Hlen Hw]. destruct s as [|c s]; [by right|]. left.
      apply Forall_cons in Hw as [Hc Hw]. exists [c], s.
      split; [done|]. split; [by exists c|].
      apply IH. split; [cbn in Hlen; lia | done].
Qed.

Lemma lang_Between (ranges : list (N * N)) (lo hi : nat) (s : pystr) :
  (lo ≤ hi)%nat →
  lang (Between lo hi (Cls ranges)) s
  ↔ (lo ≤ length s ≤ hi)%nat ∧ word ranges s.
Proof.
  intros Hle. unfold Between. rewrite lang_Seq. split.
  - intros (s1 & s2 & -> & [Hlen1 Hw1]%lang_Times & [Hlen2 Hw2]%lang_UpTo).
    rewrite length_app. split; [lia | by apply Forall_app].
  - intros [Hlen Hw]. exists (take lo s), (drop lo s).
    split; [by rewrite take_drop|]. split.
    + apply lang_Times. split; [rewrite length_take; lia|].
      by apply Forall_take.
    + apply lang_UpTo. split; [rewrite length_drop; lia|].
      by apply Forall_drop.
Qed.

(** *** The character classes *)

Lemma in_alnum (c : N) :
  in_ranges c [(code "a", code "z"); (code "A", code "Z"); (code "0", code "9")]
  = is_letter c || is_digit c.
Proof.
  unfold in_ranges, is_letter, is_digit. cbn [existsb fst snd].
  by rewrite orb_false_r, orb_assoc.
Qed.

Lemma in_alnum_hyphen (c : N) :
  in_ranges c [(code "a", code "z"); (code "A", code "Z"); (code "0", code "9");
               (hyphen, hyphen)]
  = is_letter c || is_digit c || (c =? hyphen)%N.
Proof.
  unfold in_ranges, is_letter, is_digit. cbn [existsb fst snd].
  rewrite orb_false_r, !orb_assoc. f_equal.
  destruct (N.eqb_spec c hyphen) as [->|Hne]; [done|].
  destruct (N.leb_spec hyphen c), (N.leb_spec c hyphen); try done. lia.
Qed.

Lemma in_alpha (c : N) :
  in_ranges c [(code "a", code "z"); (code "A", code "Z")] = is_letter c.
Proof.
  unfold in_ranges, is_letter. cbn [existsb fst snd]. by rewrite orb_false_r.
Qed.

Lemma in_dot (c : N) : in_ranges c [(dot, dot)] = true ↔ c = dot.
Proof.
  unfold in_ranges. cbn [existsb fst snd].
  rewrite orb_false_r, andb_true_iff, !N.leb_le. lia.
Qed.

Lemma hyphen_not_alnum : is_letter hyphen || is_digit hyphen = false.
Proof. vm_compute. reflexivity. Qed.

Lemma dot_not_label_char :
  is_letter dot || is_digit dot || (dot =? hyphen)%N = false.
Proof. vm_compute. reflexivity. Qed.

Lemma dot_not_letter : is_letter dot = false.
Proof. vm_compute. reflexivity. Qed.

(** *** Labels *)

Lemma forallb_Forall (P : N → bool) (s : pystr) :
  forallb P s = true ↔ Forall (λ c, P c = true) s.
Proof.
  rewrite forallb_forall, Forall_forall.
  split; intros H c Hc; apply H; by apply list_elem_of_In.
Qed.

Lemma alnum_not_hyphen (c : N) :
  is_letter c || is_digit c = true → c ≠ hyphen.
Proof. intros Hc ->. by rewrite hyphen_not_alnum in Hc. Qed.

Lemma label_char_not_hyphen (c : N) :
  is_letter c || is_digit c || (c =? hyphen)%N = true → c ≠ hyphen →
  is_letter c || is_digit c = true.
Proof.
  intros Hc Hne. apply orb_true_iff in Hc as [Hc|Hc]; [done|].
  by apply N.eqb_eq in Hc.
Qed.

Lemma lang_label (s : pystr) : lang label_regex s ↔ is_label s = true.
Proof.
  unfold label_regex, Opt, alnum, alnum_hyphen, is_label.
  rewrite !andb_true_iff, !negb_true_iff, !bool_decide_eq_false,
    forallb_Forall, Nat.leb_le, Nat.leb_le.
  change (lang (Seq ?a (Alt ?b Eps)) s)
    with (∃ s1 s2, s = s1 ++ s2 ∧ lang a s1 ∧ (lang b s2 ∨ s2 = [])).
  split.
  - intros (s1 & s2 & -> & (a & -> & Ha) & Hrest). rewrite in_alnum in Ha.
    destruct Hrest as [(mid & s3 & -> & [Hlen Hmid]%lang_UpTo
                        & (b & -> & Hb))| ->].
    + rewrite in_alnum in Hb. cbn [app]. repeat split.
      * cbn. lia.
      * cbn. rewrite length_app. cbn. lia.
      * constructor; [by rewrite Ha|]. apply Forall_app. split.
        -- eapply Forall_impl; [exact Hmid|]. intros c Hc.
           cbv beta in Hc. by rewrite in_alnum_hyphen in Hc.
        -- constructor; [by rewrite Hb | constructor].
      * cbn. intros [= ->]. by rewrite hyphen_not_alnum in Ha.
      * change (a :: mid ++ [b]) with ((a :: mid) ++ [b]).
        rewrite last_snoc. intros [= ->]. by rewrite hyphen_not_alnum in Hb.
    + cbn. repeat split; try lia.
      * constructor; [by rewrite Ha | constructor].
      * intros [= ->]. by rewrite hyphen_not_alnum in Ha.
      * intros [= ->]. by rewrite hyphen_not_alnum in Ha.
  - intros ((((Hlo & Hhi) & Hchars) & Hhead) & Hlast).
    destruct s as [|a t]; [cbn in Hlo; lia|].
    apply Forall_cons in Hchars as [Ha Hchars].
    assert (is_letter a || is_digit a = true) as Ha'.
    { apply label_char_not_hyphen; [done|]. intros ->. by apply Hhead. }
    exists [a], t. split; [done|].
    split; [exists a; by rewrite in_alnum|].
    destruct (decide (t = [])) as [->|Hne]; [by right|]. left.
    destruct (exists_last Hne) as (mid & b & ->).
    apply Forall_app in Hchars as [Hmid Hb].
    apply Forall_cons in Hb as [Hb _].
    assert (is_letter b || is_digit b = true) as Hb'.
    { apply label_char_not_hyphen; [done|]. intros ->. apply Hlast.
      change (a :: mid ++ [hyphen]) with ((a :: mid) ++ [hyphen]).
      by rewrite last_snoc. }
    exists mid, [b]. split; [done|]. split.
    + apply lang_UpTo. split.
      * cbn in Hhi. rewrite length_app in Hhi. cbn in Hhi. lia.
      * eapply Forall_impl; [exact Hmid|]. intros c Hc.
        cbv beta. by rewrite in_alnum_hyphen.
    + exists b. by rewrite in_alnum.
Qed.

Lemma lang_tld (s : pystr) : lang (Between 2 63 alpha) s ↔ is_tld s = true.
Proof.
  unfold alpha, is_tld. rewrite lang_Between by lia.
  rewrite !andb_true_iff, forallb_Forall, !Nat.leb_le. unfold word. split.
  - intros [[Hlo Hhi] Hw]. repeat split; [done..|].
    eapply Forall_impl; [exact Hw|]. intros c Hc. cbv beta in Hc.
    by rewrite in_alpha in Hc.
  - intros [[Hlo Hhi] Hw]. repeat split; [done..|].
    eapply Forall_impl; [exact Hw|]. intros c Hc. cbv beta.
    by rewrite in_alpha.
Qed.

Lemma is_label_no_dot (label : pystr) : is_label label = true → dot ∉ label.
Proof.
  unfold is_label. rewrite !andb_true_iff, forallb_Forall.
  intros ((((_ & _) & Hchars) & _) & _) Hdot.
  rewrite Forall_forall in Hchars. apply Hchars in Hdot.
  by rewrite dot_not_label_char in Hdot.
Qed.

Lemma is_tld_no_dot (tld : pystr) : is_tld tld = true → dot ∉ tld.
Proof.
  unfold is_tld. rewrite !andb_true_iff, forallb_Forall.
  intros ((_ & _) & Hchars) Hdot.
  rewrite Forall_forall in Hchars. apply Hchars in Hdot.
  by rewrite dot_not_letter in Hdot.
Qed.

(** *** Dotted names *)

Lemma lang_labels (s : pystr) :
  star (lang (Seq label_regex escaped_dot)) s ↔
  ∃ labels, Forall (λ label, is_label label = true) labels
            ∧ s = dotted labels [].
Proof.
  unfold dotted. split.
  - induction 1 as [|s1 s2 H1 H2 (labels & Hlabels & ->)].
    + by exists [].
    + destruct H1 as (label & d & -> & Hlabel%lang_label & (c & -> & ->%in_dot)).
      exists (label :: labels). split; [by constructor|].
      cbn. by rewrite !app_nil_r.
  - intros (labels & Hlabels & ->). rewrite app_nil_r.
    induction Hlabels as [|label labels Hlabel Hlabels IH]; cbn; [constructor|].
    apply star_app; [|done].
    exists label, [dot]. split; [done|]. split; [by apply lang_label|].
    exists dot. split; [done | by apply in_dot].
Qed.

Lemma lang_domain_regex (s : pystr) :
  lang domain_regex s ↔
  ∃ labels tld,
    labels ≠ [] ∧ Forall (λ label, is_label label = true) labels
    ∧ is_tld tld = true ∧ s = dotted labels tld.
Proof.
  unfold domain_regex, Plus. fold label_regex. rewrite lang_Seq. split.
  - intros (s1 & tld & -> & (s0 & s2 & -> & H0 & (labels & Hlabels & ->)%lang_labels)
            & Htld%lang_tld).
    destruct H0 as (label & d & -> & Hlabel%lang_label & (c & -> & ->%in_dot)).
    exists (label :: labels), tld. repeat split; [done | by constructor | done |].
    unfold dotted. cbn. by rewrite !app_nil_r.
  - intros (labels & tld & Hne & Hlabels & Htld & ->).
    destruct labels as [|label labels]; [done|].
    apply Forall_cons in Hlabels as [Hlabel Hlabels].
    exists (dotted (label :: labels) []), tld.
    split; [unfold dotted; by rewrite !app_nil_r|].
    split; [|by apply lang_tld].
    exists (label ++ [dot]), (dotted labels []).
    split; [unfold dotted; cbn; by rewrite !app_nil_r|]. split.
    + exists label, [dot]. split; [done|]. split; [by apply lang_label|].
      exists dot. split; [done | by apply in_dot].
    + apply lang_labels. by exists labels.
Qed.

(** *** Splitting at the dots *)

Lemma split_on_dotted (labels : list pystr) (tld : pystr) :
  Forall (λ label, dot ∉ label) labels → dot ∉ tld →
  split_on dot (dotted labels tld) = labels ++ [tld].
Proof.
  intros Hlabels Htld. unfold dotted.
  induction Hlabels as [|label labels Hlabel Hlabels IH]; cbn.
  - by apply split_on_no_sep.
  - rewrite <- !(assoc_L (++)). cbn. rewrite split_on_app_sep by done.
    by rewrite IH.
Qed.

(** Splitting loses nothing: the parts, dotted together again, are the
    string. *)
Lemma dotted_split_on (s : pystr) :
  ∀ parts part, split_on dot s = parts ++ [part] → s = dotted parts part.
Proof.
  unfold dotted. induction s as [|c s IH]; intros parts part; cbn.
  - destruct parts as [|p [|q parts]]; by intros [= <-].
  - destruct (N.eqb_spec c dot) as [->|Hne].
    + destruct parts as [|p parts]; cbn.
      * intros [= Hnil Hsplit]. by destruct (split_on_not_nil dot s).
      * intros [= <- Hsplit]. cbn. f_equal. by apply IH.
    + destruct (split_on dot s) as [|w ws] eqn:Hsplit;
        [by destruct (split_on_not_nil dot s)|].
      destruct parts as [|p parts]; cbn.
      * intros [= <- ->]. f_equal. by apply (IH []).
      * intros [= <- ->]. cbn. f_equal. by apply (IH (w :: parts)).
Qed.

Lemma well_formed_dotted (s : pystr) :
  well_formed s = true ↔
  ∃ labels tld,
    labels ≠ [] ∧ Forall (λ label, is_label label = true) labels
    ∧ is_tld tld = true ∧ s = dotted labels tld.
Proof.
  unfold well_formed. cbv zeta.
  rewrite !andb_true_iff, Nat.leb_le. split.
  - intros [[Hlen Hlabels] Htld].
    destruct (split_on dot s) as [|p ps] eqn:Hsplit using rev_ind;
      [cbn in Hlen; lia|].
    clear IHps. rewrite length_app in Hlen, Hlabels. cbn in Hlen, Hlabels.
    rewrite last_snoc in Htld. cbn in Htld.
    replace (length ps + 1 - 1)%nat with (length ps) in Hlabels by lia.
    rewrite take_app_length in Hlabels.
    exists ps, p. repeat split.
    + intros ->. cbn in Hlen. lia.
    + apply Forall_forall. intros label Hin.
      rewrite forallb_forall in Hlabels. by apply Hlabels, list_elem_of_In.
    + done.
    + by apply dotted_split_on.
  - intros (labels & tld & Hne & Hlabels & Htld & ->).
    rewrite split_on_dotted.
    + rewrite length_app. cbn.
      replace (length labels + 1 - 1)%nat with (length labels) by lia.
      rewrite take_app_length, last_snoc. cbn. repeat split; [|  |done].
      * destruct labels; [done | cbn; lia].
      * apply forallb_forall. intros label Hin.
        rewrite Forall_forall in Hlabels. by apply Hlabels, list_elem_of_In.
    + eapply Forall_impl; [exact Hlabels|]. apply is_label_no_dot.
    + by apply is_tld_no_dot.
Qed.

(** The regex between the anchors accepts exactly the well-formed names. *)
Lemma fullmatch_domain_regex (s : pystr) :
  fullmatch domain_regex s = well_formed s.
Proof.
  apply eq_true_iff_eq.
  by rewrite fullmatch_lang, lang_domain_regex, well_formed_dotted.
Qed.

(** X10: [is_valid_domain] decides the grammar its comment describes: a name
    passes exactly when it is not empty, has at most 255 characters and is
    made of one or more labels and a TLD separated by dots (labels of 1 to
    63 letters, digits and hyphens with no hyphen first or last, a TLD of 2
    to 63 letters), or is such a name followed by one line feed, which
    [$] lets through. *)
Theorem is_valid_domain_spec (domain : pystr) :
  is_valid_domain domain
  = truthy domain && (length domain <=? 255)%nat
    && (well_formed domain
        || bool_decide (last domain = Some line_feed)
           && well_formed (take (length domain - 1) domain)).
Proof.
  unfold is_valid_domain, match_anchored.
  rewrite !fullmatch_domain_regex.
  destruct domain as [|c domain]; [done|]. cbn [truthy negb orb andb].
  destruct (Nat.ltb_spec 255 (length (c :: domain))) as [Hlong|Hfit].
  - by destruct (Nat.leb_spec (length (c :: domain)) 255); [lia|].
  - destruct (Nat.leb_spec (length (c :: domain)) 255); [|lia].
    cbn [andb]. f_equal.
    destruct (last (c :: domain)) as [l|] eqn:Hlast.
    + destruct (N.eqb_spec l line_feed) as [->|Hne].
      * by rewrite bool_decide_eq_true_2.
      * rewrite bool_decide_eq_false_2; [done|]. by intros [= ->].
    + by rewrite bool_decide_eq_false_2.
Qed.

End GrammarFacts.

(** ** Normalisation *)
Module NormalizeFacts.
Import ValidatorsFacts.

(** [lstrip] removes a run of spaces from the front, and nothing else. *)
Lemma lstrip_suffix (s : pystr) : ∃ spaces, s = spaces ++ lstrip s.
Proof.
  induction s as [|c s [spaces IH]]; [by exists []|]. cbn.
  destruct (is_space c); [|by exists []].
  exists (c :: spaces). cbn. by f_equal.
Qed.

Lemma rstrip_prefix (s : pystr) : ∃ spaces, s = rstrip s ++ spaces.
Proof.
  unfold rstrip. destruct (lstrip_suffix (reverse s)) as [spaces Hs].
  exists (reverse spaces). rewrite <- reverse_app, <- Hs.
  by rewrite reverse_involutive.
Qed.

Lemma lstrip_id (s : pystr) :
  (∀ c, head s = Some c → is_space c = false) → lstrip s = s.
Proof.
  destruct s as [|c s]; [done|]. intros Hhead. cbn.
  by rewrite (Hhead c eq_refl).
Qed.

Lemma rstrip_id (s : pystr) :
  (∀ c, last s = Some c → is_space c = false) → rstrip s = s.
Proof.
  intros Hlast. unfold rstrip. rewrite lstrip_id.
  - apply reverse_involutive.
  - intros c. rewrite head_reverse. apply Hlast.
Qed.

Lemma head_strip (s : pystr) (c : N) :
  head (strip s) = Some c → is_space c = false.
Proof.
  unfold strip. destruct (rstrip_prefix (lstrip s)) as [spaces Hs].
  intros Hhead. apply (head_lstrip s). rewrite Hs.
  destruct (rstrip (lstrip s)); [done|]. exact Hhead.
Qed.

(** Stripping twice is stripping once. *)
Lemma strip_strip (s : pystr) : strip (strip s) = strip s.
Proof.
  unfold strip at 1. rewrite lstrip_id by apply head_strip.
  apply rstrip_id, last_strip.
Qed.

Lemma Forall_strip (P : N → Prop) (s : pystr) :
  Forall P s → Forall P (strip s).
Proof.
  unfold strip. destruct (rstrip_prefix (lstrip s)) as [back Hback].
  destruct (lstrip_suffix s) as [front Hfront].
  rewrite Hfront at 1. rewrite Hback at 1.
  by intros [_ [? _]%Forall_app]%Forall_app.
Qed.

(** Spaces are not letters: lower-casing moves no character into or out
    of the set [strip] removes. *)
Lemma is_space_ascii_lower (c : N) : is_space (ascii_lower c) = is_space c.
Proof.
  unfold ascii_lower.
  destruct (N.leb_spec 65 c); [|done]. destruct (N.leb_spec c 90); [|done].
  cbn [andb].
  assert (∀ x : N, (65 ≤ x ≤ 122)%N → is_space x = false) as Hnot.
  { intros x Hx. unfold is_space.
    rewrite (proj2 (N.leb_gt x 13)), (proj2 (N.leb_gt x 32)),
      (proj2 (N.eqb_neq x 133)), (proj2 (N.eqb_neq x 160)),
      (proj2 (N.eqb_neq x 5760)), (proj2 (N.leb_gt 8192 x)),
      (proj2 (N.eqb_neq x 8232)), (proj2 (N.eqb_neq x 8233)),
      (proj2 (N.eqb_neq x 8239)), (proj2 (N.eqb_neq x 8287)),
      (proj2 (N.eqb_neq x 12288)) by lia.
    by rewrite !andb_false_r. }
  rewrite !Hnot by lia. done.
Qed.

Lemma ascii_lower_idemp (c : N) : ascii_lower (ascii_lower c) = ascii_lower c.
Proof.
  unfold ascii_lower. destruct ((65 <=? c) && (c <=? 90))%N eqn:Hup.
  - apply andb_true_iff in Hup as [Hlo%N.leb_le Hhi%N.leb_le].
    rewrite (proj2 (N.leb_gt (c + 32) 90)) by lia. by rewrite andb_false_r.
  - by rewrite Hup.
Qed.

Lemma is_ascii_lower (c : N) : is_ascii c = true → is_ascii (ascii_lower c) = true.
Proof.
  unfold is_ascii, ascii_lower. rewrite !N.ltb_lt.
  destruct (N.leb_spec 65 c); [|done]. destruct (N.leb_spec c 90); [|done].
  cbn [andb]. lia.
Qed.

Lemma lstrip_ascii_lower (s : pystr) :
  lstrip (ascii_lower <$> s) = ascii_lower <$> lstrip s.
Proof.
  induction s as [|c s IH]; [done|]. cbn.
  rewrite is_space_ascii_lower. by destruct (is_space c).
Qed.

Lemma strip_ascii_lower (s : pystr) :
  strip (ascii_lower <$> s) = ascii_lower <$> strip s.
Proof.
  unfold strip, rstrip.
  by rewrite lstrip_ascii_lower, <- fmap_reverse, lstrip_ascii_lower,
    fmap_reverse.
Qed.

Section Lower.
Variable unicode_lower : pystr → nat → N → pystr.

Lemma concat_imap_ascii (l : pystr) :
  ∀ f : nat → N → pystr,
  (∀ i c, is_ascii c = true → f i c = [ascii_lower c]) →
  Forall (λ c, is_ascii c = true) l →
  concat (imap f l) = ascii_lower <$> l.
Proof.
  induction l as [|c l IH]; intros f Hf Hl; [done|].
  apply Forall_cons in Hl as [Hc Hl]. cbn.
  rewrite (Hf 0%nat c Hc). cbn. f_equal. apply IH; [|done].
  intros i x Hx. by apply Hf.
Qed.

(** On an ASCII string [lower] is the character-wise mapping. *)
Lemma lower_ascii (s : pystr) :
  Forall (λ c, is_ascii c = true) s →
  lower unicode_lower s = ascii_lower <$> s.
Proof.
  intros Hs. unfold lower. apply concat_imap_ascii; [|done].
  intros i c Hc. by rewrite Hc.
Qed.

Lemma normalize_domain_unfold (domain : pystr) :
  normalize_domain unicode_lower domain = lower unicode_lower (strip domain).
Proof. by destruct domain. Qed.

Lemma normalize_domain_ascii (domain : pystr) :
  Forall (λ c, is_ascii c = true) domain →
  normalize_domain unicode_lower domain = ascii_lower <$> strip domain.
Proof.
  intros Hascii. rewrite normalize_domain_unfold. apply lower_ascii.
  by apply Forall_strip.
Qed.

End Lower.

(** X11: On ASCII input [normalize_domain] is idempotent: a name that has been
    normalised once is left as it is by a second pass, so the key under
    which [save_domain] stores a name is the key under which it is found
    again. *)
Theorem normalize_domain_idempotent
    (unicode_lower : pystr → nat → N → pystr) (domain : pystr) :
  Forall (λ c, is_ascii c = true) domain →
  normalize_domain unicode_lower (normalize_domain unicode_lower domain)
  = normalize_domain unicode_lower domain.
Proof.
  intros Hascii.
  assert (Forall (λ c, is_ascii c = true) (ascii_lower <$> strip domain))
    as Hlowered.
  { apply Forall_fmap. eapply Forall_impl; [by apply Forall_strip|].
    intros c. apply is_ascii_lower. }
  rewrite (normalize_domain_ascii _ domain Hascii).
  rewrite (normalize_domain_ascii _ _ Hlowered).
  rewrite strip_ascii_lower, strip_strip, <- list_fmap_compose.
  apply list_fmap_ext. intros i c _. apply ascii_lower_idemp.
Qed.

Lemma normalize_domain_idempotent_witness :
  Forall (λ c, is_ascii c = true) (lit " Example.COM ")
  ∧ normalize_domain caseless (lit " Example.COM ") = lit "example.com"
  ∧ normalize_domain caseless (normalize_domain caseless (lit " Example.COM "))
    = normalize_domain caseless (lit " Example.COM ").
Proof.
  assert (Forall (λ c, is_ascii c = true) (lit " Example.COM ")) as Hascii.
  { apply (bool_decide_unpack _). vm_compute. reflexivity. }
  split; [exact Hascii|]. split; [vm_compute; reflexivity|].
  exact (normalize_domain_idempotent caseless (lit " Example.COM ") Hascii).
Defined.

End NormalizeFacts.

(** ** The rate limiter over a whole run *)
Module SessionsFacts.
Import RateLimiter Sessions RateLimiterFacts.

Lemma __enter___None (self : t) (now woke : Z) :
  __enter__ self now woke = None
  ↔ calls self ≤ 0 ∧ in_window self now = [].
Proof.
  unfold __enter__.
  change (filter (λ t : Z, now - t < period self) (timestamps self))
    with (in_window self now).
  destruct (Z.geb_spec (Z.of_nat (length (in_window self now))) (calls self))
    as [Hfull|Hroom].
  - destruct (in_window self now) as [|oldest_call rest].
    + cbn in Hfull. split; [intros _; split; [lia | done] | done].
    + split; [|by intros [_ ?]]. by destruct (_ >? 0).
  - split; [done|]. intros [Hcalls Hwin]. rewrite Hwin in Hroom.
    cbn in Hroom. lia.
Qed.

(** X12: [__enter__] raises exactly when the limit leaves room for no call at
    all and no recorded entry is left in the window (the first entry of a
    [RateLimiter(calls=0)], for one): [self.timestamps[0]] is then read
    from an empty list. *)
Theorem __enter___raises_iff (self : t) (now woke : Z) :
  __enter__ self now woke = None
  ↔ calls self ≤ 0 ∧ in_window self now = [].
Proof. apply __enter___None. Qed.

Lemma filter_filter_later (p now x : Z) (ts : list Z) :
  now ≤ x →
  filter (λ u, x - u < p) (filter (λ u, now - u < p) ts)
  = filter (λ u, x - u < p) ts.
Proof.
  intros Hle. induction ts as [|u ts IH]; [done|].
  rewrite !filter_cons.
  destruct (decide (now - u < p)) as [Hin|Hout].
  - rewrite filter_cons. destruct (decide (x - u < p)); by rewrite IH.
  - rewrite IH. destruct (decide (x - u < p)); [lia | done].
Qed.

Lemma timestamps_entered (self : t) (now woke : Z) (e : entered) :
  __enter__ self now woke = Some e →
  timestamps (limiter e) = in_window self now ++ [entry_time e]
  ∧ calls (limiter e) = calls self ∧ period (limiter e) = period self
  ∧ (entry_time e = now ∧ slept e = None
     ∧ Z.of_nat (length (in_window self now)) < calls self
     ∨ entry_time e = woke
       ∧ ∃ oldest_call rest,
           in_window self now = oldest_call :: rest
           ∧ slept e = Some (period self - (now - oldest_call))).
Proof.
  unfold __enter__, entry_time.
  change (filter (λ t : Z, now - t < period self) (timestamps self))
    with (in_window self now).
  destruct (Z.geb_spec (Z.of_nat (length (in_window self now))) (calls self))
    as [Hfull|Hroom].
  - destruct (in_window self now) as [|oldest_call rest] eqn:Hkept; [done|].
    assert (now - oldest_call < period self) as Hold.
    { assert (oldest_call ∈ in_window self now) as Hin
        by (rewrite Hkept; apply list_elem_of_here).
      unfold in_window in Hin. by apply list_elem_of_filter in Hin as [? _]. }
    destruct (Z.gtb_spec (period self - (now - oldest_call)) 0); [|lia].
    intros [= <-]. cbv zeta beta. cbn [limiter timestamps calls period slept].
    change (oldest_call :: rest ++ [woke]) with ((oldest_call :: rest) ++ [woke]).
    rewrite last_snoc. cbn [default]. repeat split. right. split; [done|].
    by exists oldest_call, rest.
  - intros [= <-]. cbv zeta beta. cbn [limiter timestamps calls period slept].
    rewrite last_snoc. cbn [default]. repeat split. left. repeat split; lia.
Qed.

Lemma inv_entered (self : t) (history : list Z) (last_time now woke : Z)
    (e : entered) :
  inv self history last_time → last_time ≤ now →
  __enter__ self now woke = Some e →
  match slept e with
  | Some sleep_time => now + sleep_time ≤ woke
  | None => True
  end →
  inv (limiter e) (history ++ [entry_time e]) (entry_time e).
Proof.
  intros [Hhist Hlimit] Hclock Henter Hsleep.
  destruct (timestamps_entered self now woke e Henter)
    as (Hts & Hcalls & Hperiod & Hcases).
  pose proof (in_window_later self last_time now Hclock) as Hmono.
  unfold entries_within in *. fold (in_window self last_time) in Hlimit.
  assert (now ≤ entry_time e) as Hnow.
  { destruct Hcases as [(-> & _)|(Hwoke & oldest_call & rest & Hkept & Hslept)];
      [lia|].
    rewrite Hslept in Hsleep. rewrite Hwoke.
    assert (oldest_call ∈ in_window self now) as Hin
      by (rewrite Hkept; apply list_elem_of_here).
    unfold in_window in Hin. apply list_elem_of_filter in Hin as [? _]. lia. }
  split.
  - intros x Hx. rewrite Hts, Hperiod, !filter_app. f_equal.
    unfold in_window. rewrite filter_filter_later by lia.
    apply Hhist. lia.
  - rewrite Hts, Hperiod, Hcalls. unfold entries_within.
    destruct Hcases as [(Htime & _ & Hroom)
                       |(Hwoke & oldest_call & rest & Hkept & Hslept)].
    + pose proof (length_filter_snoc (λ u, entry_time e - u < period self)
                    (in_window self now) (entry_time e)) as Hsnoc.
      pose proof (length_filter (λ u, entry_time e - u < period self)
                    (in_window self now)) as Hkeep.
      lia.
    + rewrite Hslept in Hsleep. rewrite Hkept in *.
      pose proof (length_filter_snoc (λ u, entry_time e - u < period self)
                    (oldest_call :: rest) (entry_time e)) as Hsnoc.
      rewrite filter_cons in Hsnoc.
      destruct (decide (entry_time e - oldest_call < period self)); [lia|].
      pose proof (length_filter (λ u, entry_time e - u < period self) rest)
        as Hrest.
      cbn [length] in Hmono. lia.
Qed.

Lemma enter_each_inv (readings : list (Z * Z)) :
  ∀ (self : t) (history : list Z) (last_time : Z),
  1 ≤ calls self → inv self history last_time →
  honest self last_time readings →
  ∃ trace,
    enter_each self readings = Some trace
    ∧ length trace = length readings
    ∧ ∀ i t, (entry_time <$> trace) !! i = Some t →
        Z.of_nat (entries_within (period self)
                    (history ++ take (S i) (entry_time <$> trace)) t)
        ≤ calls self.
Proof.
  induction readings as [|[now woke] readings IH];
    intros self history last_time Hcalls Hinv Hhonest.
  { exists []. by repeat split. }
  cbn [honest] in Hhonest. destruct Hhonest as [Hclock Hrest]. cbn [enter_each].
  destruct (__enter__ self now woke) as [e|] eqn:Henter.
  2: { apply __enter___None in Henter as [? _]. lia. }
  destruct Hrest as [Hsleep Hrest].
  pose proof (inv_entered self history last_time now woke e
                Hinv Hclock Henter Hsleep) as Hinv'.
  destruct (timestamps_entered self now woke e Henter)
    as (_ & Hcalls' & Hperiod' & _).
  destruct (IH (limiter e) (history ++ [entry_time e]) (entry_time e))
    as (trace & Htrace & Hlen & Hwindow); [lia | done | done |].
  exists (e :: trace). cbn. rewrite Htrace. cbn.
  split; [done|]. split; [by rewrite Hlen|].
  intros [|i] t Ht; cbn in Ht.
  - injection Ht as <-. rewrite take_0.
    destruct Hinv' as [Hhist Hlimit]. unfold entries_within in *.
    rewrite <- Hperiod', (Hhist (entry_time e)) by lia.
    by rewrite <- Hcalls'.
  - specialize (Hwindow i t Ht). rewrite <- (assoc_L (++)) in Hwindow.
    by rewrite <- Hperiod', <- Hcalls'.
Qed.

(** X13: A limiter with room for at least one call, entered again and again
    from new, keeps the promise of its docstring over the whole run: every
    entry returns and, at the time it records, at most [calls] of the
    entries made so far (itself included) lie within the last [period]. *)
Theorem enter_each_keeps_limit (calls period start : Z)
    (readings : list (Z * Z)) :
  1 ≤ calls →
  honest (__init__ calls period) start readings →
  ∃ trace,
    enter_each (__init__ calls period) readings = Some trace
    ∧ length trace = length readings
    ∧ ∀ i t, (entry_time <$> trace) !! i = Some t →
        Z.of_nat (entries_within period
                    (take (S i) (entry_time <$> trace)) t) ≤ calls.
Proof.
  intros Hcalls Hhonest.
  apply (enter_each_inv readings (__init__ calls period) [] start);
    [done | | done].
  split; [done|]. cbn. lia.
Qed.

Lemma enter_each_keeps_limit_witness :
  let readings := [(0, 0); (10, 10); (20, 60); (61, 70)] in
  honest (__init__ 2 60) 0 readings
  ∧ entry_time <$> default [] (enter_each (__init__ 2 60) readings)
    = [0; 10; 60; 70]
  ∧ ∃ trace,
      enter_each (__init__ 2 60) readings = Some trace
      ∧ length trace = length readings
      ∧ ∀ i t, (entry_time <$> trace) !! i = Some t →
          Z.of_nat (entries_within 60
                      (take (S i) (entry_time <$> trace)) t) ≤ 2.
Proof.
  intros readings.
  assert (honest (__init__ 2 60) 0 readings) as Hhonest.
  { vm_compute. repeat split; discriminate. }
  split; [exact Hhonest|]. split; [vm_compute; reflexivity|].
  exact (enter_each_keeps_limit 2 60 0 readings ltac:(lia) Hhonest).
Defined.

End SessionsFacts.

(** ** The discovery phase *)
Module OrchestratorFacts.
Import BaseCrawler Models Appends AppendsFacts Orchestrator.

Section Discovery.
Variable unicode_lower : pystr → nat → N → pystr.

Lemma run_source_appended (targets : list Target.t) (source : Source)
    (database : Database) :
  let ran := run_source unicode_lower targets source database in
  ∃ rows,
    appended {| self := state source; db := database |}
      {| self := state ran.2.1; db := ran.2.2 |} rows
    ∧ match ran.1 with
      | Py.Ok summary =>
          summary_domains_found summary
          = (length (domains_found (state source)) + length rows)%nat
      | Py.Raise _ => True
      end.
Proof.
  cbv zeta. unfold run_source. cbn [fst snd state].
  set (w := {| self := state source; db := database |}).
  destruct (run_appended unicode_lower (crawl source) (clock source) targets w)
    as [rows Hrows].
  exists rows. split.
  - by destruct (run unicode_lower (crawl source) (clock source) targets w).2.
  - destruct (run _ _ _ _ w).1 as [summary|e] eqn:Hrun; [|done].
    rewrite (run_summary _ _ _ _ _ _ Hrun).
    destruct Hrows as (_ & -> & _). by rewrite length_app, length_map.
Qed.

(** The crawler names of the log rows, in insertion order. *)
Local Notation logged w := (map crawler_name (crawler_logs (db w))).

Lemma logged_update_first (w : World) (n : nat) (status : string)
    (errors : option (list pystr)) (logs : list CrawlerLog) :
  map crawler_name (update_first n (finalized w status errors) logs)
  = map crawler_name logs.
Proof.
  induction logs as [|l logs IH]; [done|]. cbn.
  destruct (id l =? n)%nat; cbn; by rewrite ?IH.
Qed.

Lemma logged_end_logging (status : string) (errors : option (list pystr))
    (w : World) :
  logged (end_logging status errors w) = logged w.
Proof.
  unfold end_logging. destruct (log_id (self w)) as [[|n]|]; try done.
  cbn. apply logged_update_first.
Qed.

Lemma logs_save_domain (domain_data : DomainData.t) (w : World) :
  crawler_logs (db (save_domain unicode_lower domain_data w).2)
  = crawler_logs (db w).
Proof.
  unfold save_domain. cbv zeta.
  destruct (negb _); [done|]. by destruct (find _ _).
Qed.

Lemma logs_save_all (discovered : list DomainData.t) :
  ∀ w, crawler_logs (db (save_all unicode_lower discovered w))
       = crawler_logs (db w).
Proof.
  induction discovered as [|domain_data discovered IH]; intros w; [done|].
  cbn. unfold save_all in IH. by rewrite IH, logs_save_domain.
Qed.

Lemma logs_crawl_one (crawl : Target.t → Py.result (list DomainData.t))
    (clock : nat → Z * Z) (i : nat) (cse : Target.t) (w : World) :
  crawler_logs (db (crawl_one unicode_lower crawl clock i cse w).2)
  = crawler_logs (db w).
Proof.
  unfold crawl_one. destruct (RateLimiter.__enter__ _ _ _); [|done].
  destruct (crawl cse); [|done]. cbn [snd]. by rewrite logs_save_all.
Qed.

Lemma logs_crawl_targets (crawl : Target.t → Py.result (list DomainData.t))
    (clock : nat → Z * Z) (cse_targets : list Target.t) :
  ∀ (i : nat) (errors : list pystr) (w : World),
  crawler_logs (db (crawl_targets unicode_lower crawl clock i cse_targets
                      errors w).2)
  = crawler_logs (db w).
Proof.
  induction cse_targets as [|cse rest IH]; intros i errors w; cbn; [done|].
  destruct (Py.getitem "name" (Target.name cse)); [|done].
  pose proof (logs_crawl_one crawl clock i cse w) as Hone.
  destruct (crawl_one unicode_lower crawl clock i cse w) as [[[]|e] w1];
    cbn [snd] in Hone; by rewrite IH.
Qed.

Lemma logged_run (crawl : Target.t → Py.result (list DomainData.t))
    (clock : nat → Z * Z) (targets : list Target.t) (w : World) :
  logged (run unicode_lower crawl clock targets w).2
  = logged w ++ [name (self w)].
Proof.
  unfold run.
  pose proof (logs_crawl_targets crawl clock targets 0 [] (start_logging w))
    as Hloop.
  destruct (crawl_targets _ _ _ _ _ _ _) as [[errors|e] w1];
    cbn [snd] in *; rewrite logged_end_logging, Hloop; cbn;
    by rewrite map_app.
Qed.

(** The names in a domain table. *)
Local Notation names database :=
  (map Models.domain_name (discovered_domains database)).

Lemma run_discovery_spec (targets : list Target.t) (crawlers : list Source) :
  ∀ (total_found : nat) (database : Database),
  let out := run_discovery unicode_lower targets crawlers total_found database in
  ∃ rows,
    discovered_domains out.2.2 = discovered_domains database ++ rows
    ∧ map crawler_name (crawler_logs out.2.2)
      = map crawler_name (crawler_logs database)
        ++ map (λ crawler, name (state crawler)) crawlers
    ∧ (NoDup (names database) → NoDup (names out.2.2))
    ∧ (Forall (λ crawler, domains_found (state crawler) = []) crawlers →
       (out.1 ≤ total_found + length rows)%nat).
Proof.
  induction crawlers as [|crawler rest IH]; intros total_found database.
  { exists []. cbn. rewrite !app_nil_r. repeat split; [done|lia]. }
  cbn [run_discovery]. cbv zeta.
  destruct (run_source_appended targets crawler database)
    as (rows1 & (Hdb1 & _ & _ & _ & Huniq1) & Hcount).
  cbn [db self] in Hdb1.
  pose proof (logged_run (crawl crawler) (clock crawler) targets
                {| self := state crawler; db := database |}) as Hlog1.
  set (ran := run_source unicode_lower targets crawler database) in *.
  set (total := match ran.1 with
                | Py.Ok summary =>
                    (total_found + summary_domains_found summary)%nat
                | Py.Raise _ => total_found
                end).
  destruct (IH total ran.2.2) as (rows2 & Hdb2 & Hlog2 & Huniq2 & Hcount2).
  exists (rows1 ++ rows2). cbn [fst snd]. repeat split.
  - by rewrite Hdb2, Hdb1, (assoc_L (++)).
  - rewrite Hlog2. change (crawler_logs ran.2.2)
      with (crawler_logs
              (db (run unicode_lower (crawl crawler) (clock crawler) targets
                     {| self := state crawler; db := database |}).2)).
    rewrite Hlog1. cbn. by rewrite <- (assoc_L (++)).
  - intros Huniq. apply Huniq2. by apply Huniq1.
  - intros [Hfresh Hrest]%Forall_cons. specialize (Hcount2 Hrest).
    rewrite length_app. unfold total in *. clear total.
    destruct ran.1 as [summary|e]; [|lia].
    rewrite Hcount, Hfresh in *. cbn [length] in *. lia.
Qed.

Lemma length_run_discovery (targets : list Target.t) (crawlers : list Source) :
  ∀ (total_found : nat) (database : Database),
  length (run_discovery unicode_lower targets crawlers total_found database).2.1
  = length crawlers.
Proof.
  induction crawlers as [|crawler rest IH]; intros total_found database;
    [done|]. cbn. by rewrite IH.
Qed.

End Discovery.

(** X17: [run_discovery] runs every crawler, in order, whatever the earlier
    ones did: each leaves its row in the log table, also after a crawler
    whose [run] raised; and the domain table only grows, the rows that were
    there staying in place. *)
Theorem run_discovery_runs_every_crawler
    (unicode_lower : pystr → nat → N → pystr)
    (targets : list Target.t) (crawlers : list Source)
    (total_found : nat) (database : Database) :
  let out := run_discovery unicode_lower targets crawlers total_found database in
  map crawler_name (crawler_logs out.2.2)
  = map crawler_name (crawler_logs database)
    ++ map (λ crawler, name (state crawler)) crawlers
  ∧ length out.2.1 = length crawlers
  ∧ ∃ rows, discovered_domains out.2.2 = discovered_domains database ++ rows.
Proof.
  cbv zeta.
  destruct (run_discovery_spec unicode_lower targets crawlers total_found
              database) as (rows & Hdb & Hlog & _ & _).
  split; [done|]. split; [apply length_run_discovery | by exists rows].
Qed.

(** X18: Names stay unique across the sources: if no name occurs twice in the
    domain table before the discovery phase, none does after it, so a
    domain found by several crawlers is stored once, for the crawler that
    found it first. *)
Theorem run_discovery_keeps_names_unique
    (unicode_lower : pystr → nat → N → pystr)
    (targets : list Target.t) (crawlers : list Source)
    (total_found : nat) (database : Database) :
  NoDup (map Models.domain_name (discovered_domains database)) →
  NoDup (map Models.domain_name
           (discovered_domains
              (run_discovery unicode_lower targets crawlers total_found
                 database).2.2)).
Proof.
  destruct (run_discovery_spec unicode_lower targets crawlers total_found
              database) as (rows & _ & _ & Huniq & _).
  exact Huniq.
Qed.

Lemma run_discovery_keeps_names_unique_witness :
  let out :=
    run_discovery caseless [Examples.acme] Examples.both_find 0
      Examples.empty_tables in
  NoDup (map Models.domain_name
           (discovered_domains Examples.empty_tables))
  ∧ map Models.domain_name (discovered_domains out.2.2)
    = [lit "acmebank-login.com"]
  ∧ map source_of_detection (discovered_domains out.2.2)
    = [lit "cert_transparency"]
  ∧ NoDup (map Models.domain_name (discovered_domains out.2.2)).
Proof.
  intros out.
  assert (NoDup (map Models.domain_name
                   (discovered_domains Examples.empty_tables))) as Huniq
    by constructor.
  split; [exact Huniq|]. split; [vm_compute; reflexivity|].
  split; [vm_compute; reflexivity|].
  exact (run_discovery_keeps_names_unique caseless [Examples.acme]
           Examples.both_find 0 Examples.empty_tables Huniq).
Defined.

(** X19: The total [run_discovery] returns never exceeds the number of rows the
    phase added, when it starts from crawlers that have found nothing yet
    (as [_initialize_crawlers] builds them); the rows of a crawler whose
    [run] raised are not counted. *)
Theorem run_discovery_total
    (unicode_lower : pystr → nat → N → pystr)
    (targets : list Target.t) (crawlers : list Source) (database : Database) :
  Forall (λ crawler, domains_found (state crawler) = []) crawlers →
  let out := run_discovery unicode_lower targets crawlers 0 database in
  (out.1 + length (discovered_domains database)
   ≤ length (discovered_domains out.2.2))%nat.
Proof.
  intros Hfresh. cbv zeta.
  destruct (run_discovery_spec unicode_lower targets crawlers 0 database)
    as (rows & Hdb & _ & _ & Hcount).
  specialize (Hcount Hfresh). rewrite Hdb, length_app. lia.
Qed.

Lemma run_discovery_total_witness :
  let out :=
    run_discovery caseless [Examples.acme] Examples.both_find 0
      Examples.empty_tables in
  Forall (λ crawler, domains_found (state crawler) = []) Examples.both_find
  ∧ out.1 = 1%nat
  ∧ (out.1 + length (discovered_domains Examples.empty_tables)
     ≤ length (discovered_domains out.2.2))%nat.
Proof.
  intros out.
  assert (Forall (λ crawler, domains_found (state crawler) = [])
            Examples.both_find) as Hfresh
    by (repeat constructor).
  split; [exact Hfresh|]. split; [vm_compute; reflexivity|].
  exact (run_discovery_total caseless [Examples.acme] Examples.both_find
           Examples.empty_tables Hfresh).
Defined.

End OrchestratorFacts.

(** ** The legitimate-domain filter *)
Module LegitimateFacts.
Import Legitimate.

Lemma endswith_spec (s p : pystr) :
  endswith s p = true ↔ ∃ front, s = front ++ p.
Proof.
  unfold endswith. rewrite andb_true_iff, Nat.leb_le, str_eqb_eq. split.
  - intros [Hlen Hdrop]. exists (take (length s - length p) s).
    rewrite <- (take_drop (length s - length p) s) at 1. by f_equal.
  - intros [front ->]. rewrite length_app. split; [lia|].
    replace (length front + length p - length p)%nat with (length front) by lia.
    by rewrite drop_app_length.
Qed.

Lemma matches_legit_spec (domain legit : pystr) :
  matches_legit domain legit = true
  ↔ domain = legit ∨ ∃ sub, domain = sub ++ dot :: legit.
Proof.
  unfold matches_legit. by rewrite orb_true_iff, str_eqb_eq, endswith_spec.
Qed.

(** X20: [_is_legitimate_domain] accepts exactly the listed domains and the
    names that end with a dot followed by one of them.  The comparison is
    made on the strings as they are: nothing is lower-cased or stripped,
    and the subdomain part may be anything, the empty string included. *)
Theorem _is_legitimate_domain_spec (domain primary_domain : pystr)
    (target_cse : Target.t) :
  Target.primary_domain target_cse = Some primary_domain →
  ∃ legitimate,
    _is_legitimate_domain domain target_cse = Py.Ok legitimate
    ∧ (legitimate = true ↔
       ∃ legit, legit ∈ primary_domain :: Target.additional_domains target_cse
                ∧ (domain = legit ∨ ∃ sub, domain = sub ++ dot :: legit)).
Proof.
  intros Hprimary. unfold _is_legitimate_domain. rewrite Hprimary.
  exists (existsb (matches_legit domain)
            (legitimate_domains primary_domain target_cse)).
  split; [reflexivity|].
  rewrite existsb_exists. unfold legitimate_domains. cbn [app]. split.
  - intros (legit & Hin & Hlegit%matches_legit_spec).
    exists legit. split; [by apply list_elem_of_In | done].
  - intros (legit & Hin & Hlegit). exists legit.
    split; [by apply list_elem_of_In | by apply matches_legit_spec].
Qed.

Lemma _is_legitimate_domain_listed (domain primary_domain : pystr)
    (target_cse : Target.t) :
  Target.primary_domain target_cse = Some primary_domain →
  _is_legitimate_domain domain target_cse
  = Py.Ok (existsb (matches_legit domain)
             (legitimate_domains primary_domain target_cse)).
Proof. intros Hprimary. unfold _is_legitimate_domain. by rewrite Hprimary. Qed.

Lemma _is_legitimate_domain_spec_witness :
  Target.primary_domain Examples.acme = Some (lit "acmebank.com")
  ∧ _is_legitimate_domain (lit "secure.acmebank.com") Examples.acme = Py.Ok true
  ∧ _is_legitimate_domain (lit "ACMEBANK.com") Examples.acme = Py.Ok false
  ∧ ∃ legitimate,
      _is_legitimate_domain (lit "secure.acmebank.com") Examples.acme
      = Py.Ok legitimate
      ∧ (legitimate = true ↔
         ∃ legit, legit ∈ lit "acmebank.com"
                          :: Target.additional_domains Examples.acme
                  ∧ (lit "secure.acmebank.com" = legit
                     ∨ ∃ sub, lit "secure.acmebank.com" = sub ++ dot :: legit)).
Proof.
  split; [reflexivity|]. split; [vm_compute; reflexivity|].
  split; [vm_compute; reflexivity|].
  exact (_is_legitimate_domain_spec (lit "secure.acmebank.com")
           (lit "acmebank.com") Examples.acme eq_refl).
Defined.

End LegitimateFacts.

(** ** The certificate-stream consumer *)
Module CertStreamFacts.
Import Legitimate CertStream LegitimateFacts.

Section Crawl.
Variable unicode_lower : pystr → nat → N → pystr.

Local Notation scan_keywords := (scan_keywords unicode_lower).
Local Notation scan_domains := (scan_domains unicode_lower).
Local Notation consume := (consume unicode_lower).
Local Notation matches_keyword := (matches_keyword unicode_lower).

(** The record [crawl] builds for a name of a certificate. *)
Local Notation record cert_data name primary_domain domain :=
  {| DomainData.domain_name := domain;
     DomainData.url := lit "https://" ++ domain;
     DomainData.target_cse_name := name;
     DomainData.target_cse_domain := primary_domain;
     DomainData.discovery_method := lit "certificate_transparency";
     DomainData.raw_data := raw cert_data;
     DomainData.is_idn := Some (_is_idn_domain domain);
     DomainData.idn_original := None |}.

(** The keyword loop on a complete target: one record when a keyword
    occurs in the name and the name is not legitimate, none otherwise. *)
Lemma scan_keywords_complete (cert_data : Certificate) (target_cse : Target.t)
    (name primary_domain domain : pystr) (keywords : list pystr) :
  Target.name target_cse = Some name →
  Target.primary_domain target_cse = Some primary_domain →
  scan_keywords cert_data target_cse domain (lower unicode_lower domain) keywords
  = Py.Ok
      (if matches_keyword keywords domain
          && negb (existsb (matches_legit domain)
                     (legitimate_domains primary_domain target_cse))
       then Some (record cert_data name primary_domain domain)
       else None).
Proof.
  intros Hname Hprimary. unfold CertStream.matches_keyword.
  induction keywords as [|keyword keywords IH]; [done|].
  cbn [CertStream.scan_keywords existsb].
  destruct (contains _ _); cbn [orb andb]; [|exact IH].
  rewrite (_is_legitimate_domain_listed domain primary_domain) by done.
  rewrite Hname, Hprimary.
  set (legitimate := existsb (matches_legit domain) _) in *.
  destruct legitimate; cbn; [|done].
  rewrite IH. by rewrite andb_false_r.
Qed.

(** The keyword loop on any target: what it returns is a record for the
    name in hand, which is not legitimate and contains a keyword. *)
Lemma scan_keywords_sound (cert_data : Certificate) (target_cse : Target.t)
    (domain : pystr) (keywords : list pystr) (found : DomainData.t) :
  scan_keywords cert_data target_cse domain (lower unicode_lower domain) keywords
  = Py.Ok (Some found) →
  DomainData.domain_name found = domain
  ∧ _is_legitimate_domain domain target_cse = Py.Ok false
  ∧ matches_keyword keywords domain = true
  ∧ DomainData.is_idn found = Some (_is_idn_domain domain).
Proof.
  unfold CertStream.matches_keyword.
  induction keywords as [|keyword keywords IH]; [done|].
  cbn [CertStream.scan_keywords existsb].
  destruct (contains _ _) eqn:Hkw; cbn [orb].
  - destruct (_is_legitimate_domain domain target_cse) as [[]|e] eqn:Hlegit;
      cbn; [|  |done].
    + intros Hfound. destruct (IH Hfound) as (? & ? & ? & ?). done.
    + destruct (Py.getitem "name" _); cbn; [|done].
      destruct (Py.getitem "primary_domain" _); cbn; [|done].
      by intros [= <-].
  - exact IH.
Qed.

Lemma scan_domains_sound (cert_data : Certificate) (target_cse : Target.t)
    (keywords : list pystr) (domains : list pystr) :
  Forall (λ found,
            DomainData.domain_name found ∈ domains
            ∧ _is_legitimate_domain (DomainData.domain_name found) target_cse
              = Py.Ok false
            ∧ matches_keyword keywords (DomainData.domain_name found) = true
            ∧ DomainData.is_idn found
              = Some (_is_idn_domain (DomainData.domain_name found)))
         (scan_domains cert_data target_cse keywords domains).1.
Proof.
  induction domains as [|domain domains IH]; cbn; [done|].
  destruct (scan_keywords cert_data target_cse domain _ keywords)
    as [found|e] eqn:Hscan; cbn; [|done].
  apply Forall_app. split.
  - destruct found as [record|]; cbn; [|done].
    destruct (scan_keywords_sound _ _ _ _ _ Hscan) as (<- & ? & ? & ?).
    repeat constructor; done.
  - eapply Forall_impl; [exact IH|]. intros record (? & ? & ? & ?).
    repeat split; [by right | done..].
Qed.

Lemma scan_domains_complete (cert_data : Certificate) (target_cse : Target.t)
    (name primary_domain : pystr) (keywords : list pystr)
    (domains : list pystr) :
  Target.name target_cse = Some name →
  Target.primary_domain target_cse = Some primary_domain →
  scan_domains cert_data target_cse keywords domains
  = (map (λ domain, record cert_data name primary_domain domain)
       (List.filter
          (λ domain,
             matches_keyword keywords domain
             && negb (existsb (matches_legit domain)
                        (legitimate_domains primary_domain target_cse)))
          domains),
     None).
Proof.
  intros Hname Hprimary.
  induction domains as [|domain domains IH]; [done|].
  cbn [CertStream.scan_domains List.filter].
  rewrite (scan_keywords_complete cert_data target_cse name primary_domain)
    by done.
  rewrite IH. cbn [fst snd]. by destruct (_ && _).
Qed.

(** Without a primary domain no record is ever built: the first name that
    contains a keyword raises the [KeyError] of the legitimacy check. *)
Lemma scan_keywords_unlisted (cert_data : Certificate) (target_cse : Target.t)
    (domain domain_lower : pystr) (keywords : list pystr) :
  Target.primary_domain target_cse = None →
  scan_keywords cert_data target_cse domain domain_lower keywords = Py.Ok None
  ∨ ∃ e, scan_keywords cert_data target_cse domain domain_lower keywords
         = Py.Raise e.
Proof.
  intros Hprimary. induction keywords as [|keyword keywords IH]; [by left|].
  cbn [CertStream.scan_keywords]. destruct (contains _ _); [|exact IH].
  right. unfold _is_legitimate_domain. rewrite Hprimary. cbn. by eexists.
Qed.

Lemma scan_domains_unlisted (cert_data : Certificate) (target_cse : Target.t)
    (keywords : list pystr) (domains : list pystr) :
  Target.primary_domain target_cse = None →
  (scan_domains cert_data target_cse keywords domains).1 = [].
Proof.
  intros Hprimary. induction domains as [|domain domains IH]; [done|].
  cbn [CertStream.scan_domains].
  destruct (scan_keywords_unlisted cert_data target_cse domain
              (lower unicode_lower domain) keywords Hprimary) as [->|[e ->]];
    [|done].
  cbn. exact IH.
Qed.

End Crawl.

(** X21: The certificate source never emits a legitimate domain of its target,
    and reports nothing it has not seen: every record it returns names a
    domain of one of the certificates it processed, that contains one of
    the target's keywords (case-insensitively) and that the legitimacy
    check rejects; its [is_idn] flag says whether the name has a non-ASCII
    character.  It raises only for a target without a name. *)
Theorem crawl_emits_suspicious_names
    (unicode_lower : pystr → nat → N → pystr)
    (events : list QueueEvent) (target_cse : Target.t) :
  match crawl unicode_lower events target_cse with
  | Py.Ok discovered =>
      Forall (λ found,
                (∃ cert_data, cert_data ∈ processed events
                              ∧ DomainData.domain_name found
                                ∈ all_domains cert_data)
                ∧ _is_legitimate_domain (DomainData.domain_name found) target_cse
                  = Py.Ok false
                ∧ matches_keyword unicode_lower (Target.keywords target_cse)
                    (DomainData.domain_name found) = true
                ∧ DomainData.is_idn found
                  = Some (_is_idn_domain (DomainData.domain_name found)))
             discovered
  | Py.Raise _ => Target.name target_cse = None
  end.
Proof.
  unfold crawl. destruct (Target.name target_cse) as [name|]; cbn; [|done].
  induction events as [|[cert_data|[]] events IH]; cbn; [done| |done|exact IH].
  apply Forall_app. split.
  - eapply Forall_impl; [apply scan_domains_sound|].
    intros found (Hin & ? & ? & ?). repeat split; [|done..].
    exists cert_data. split; [apply list_elem_of_here | done].
  - eapply Forall_impl; [exact IH|].
    intros found ((cert & Hcert & Hin) & ? & ? & ?). repeat split; [|done..].
    exists cert. split; [by apply list_elem_of_further | done].
Qed.

(** X22: For a target with a name and a primary domain the certificate source
    reports exactly the suspicious names: one record for every name of
    every certificate processed, in order of arrival, that contains a
    keyword and is not legitimate.  A name is reported once per
    certificate even when several keywords occur in it, and again for each
    later certificate that carries it. *)
Theorem crawl_reports_every_suspicious_name
    (unicode_lower : pystr → nat → N → pystr)
    (events : list QueueEvent) (target_cse : Target.t)
    (name primary_domain : pystr) :
  Target.name target_cse = Some name →
  Target.primary_domain target_cse = Some primary_domain →
  ∃ discovered,
    crawl unicode_lower events target_cse = Py.Ok discovered
    ∧ map DomainData.domain_name discovered
      = flat_map
          (λ cert_data,
             List.filter
               (λ domain,
                  matches_keyword unicode_lower (Target.keywords target_cse)
                    domain
                  && negb (existsb (matches_legit domain)
                             (legitimate_domains primary_domain target_cse)))
               (all_domains cert_data))
          (processed events).
Proof.
  intros Hname Hprimary. unfold crawl. rewrite Hname. cbn.
  eexists. split; [reflexivity|].
  induction events as [|[cert_data|[]] events IH]; cbn; [done| |done|exact IH].
  rewrite map_app, IH. f_equal.
  rewrite (scan_domains_complete unicode_lower cert_data target_cse name
             primary_domain) by done.
  cbn [fst]. rewrite map_map. cbn. apply map_id.
Qed.

Lemma crawl_reports_every_suspicious_name_witness :
  let events :=
    [Got {| all_domains := [lit "acmebank.com"; lit "ACME-login.net";
                            lit "www.acmebank.com"; lit "example.org"];
            raw := JEmpty |};
     Empty false;
     Got {| all_domains := [lit "acme-login.net"]; raw := JEmpty |};
     Empty true;
     Got {| all_domains := [lit "acme-late.net"]; raw := JEmpty |}] in
  Target.name Examples.acme = Some (lit "Acme Bank")
  ∧ Target.primary_domain Examples.acme = Some (lit "acmebank.com")
  ∧ (map DomainData.domain_name <$>
       match crawl caseless events Examples.acme with
       | Py.Ok discovered => Some discovered
       | Py.Raise _ => None
       end)
    = Some [lit "ACME-login.net"; lit "acme-login.net"]
  ∧ ∃ discovered,
      crawl caseless events Examples.acme = Py.Ok discovered
      ∧ map DomainData.domain_name discovered
        = flat_map
            (λ cert_data,
               List.filter
                 (λ domain,
                    matches_keyword caseless (Target.keywords Examples.acme)
                      domain
                    && negb (existsb (matches_legit domain)
                               (legitimate_domains (lit "acmebank.com")
                                  Examples.acme)))
                 (all_domains cert_data))
            (processed events).
Proof.
  intros events. split; [reflexivity|]. split; [reflexivity|].
  split; [vm_compute; reflexivity|].
  exact (crawl_reports_every_suspicious_name caseless events Examples.acme
           (lit "Acme Bank") (lit "acmebank.com") eq_refl eq_refl).
Defined.

(** X23: A target without a primary domain makes the certificate source blind
    rather than failing: the [KeyError] of the legitimacy check is caught
    for each certificate, and [crawl] returns the empty list whatever the
    stream delivers. *)
Theorem crawl_without_primary_domain
    (unicode_lower : pystr → nat → N → pystr)
    (events : list QueueEvent) (target_cse : Target.t) (name : pystr) :
  Target.name target_cse = Some name →
  Target.primary_domain target_cse = None →
  crawl unicode_lower events target_cse = Py.Ok [].
Proof.
  intros Hname Hprimary. unfold crawl. rewrite Hname. cbn. f_equal.
  induction events as [|[cert_data|[]] events IH]; cbn; [done| |done|exact IH].
  by rewrite scan_domains_unlisted, IH.
Qed.

Lemma crawl_without_primary_domain_witness :
  Target.name Examples.unlisted = Some (lit "Unlisted")
  ∧ Target.primary_domain Examples.unlisted = None
  ∧ crawl caseless
      [Got {| all_domains := [lit "unlisted-login.net"]; raw := JEmpty |}]
      Examples.unlisted = Py.Ok [].
Proof.
  split; [reflexivity|]. split; [reflexivity|].
  exact (crawl_without_primary_domain caseless _ Examples.unlisted
           (lit "Unlisted") eq_refl eq_refl).
Defined.

End CertStreamFacts.

(** ** The WHOIS source as a whole *)
Module WHOISSourceFacts.
Import WHOISCrawler Typosquat WHOISCrawlerFacts.

(** X24: The WHOIS-typosquat source discovers nothing.  whois_crawler.py never
    imports [time], so the [time.sleep(1.2)] that opens the [try] block of
    [_get_whois_data] raises [NameError]; the [except] turns it into
    [None] and every variant is skipped.  Whatever DNS and WHOIS answer,
    [crawl] returns the empty list, or raises the [KeyError] of a target
    without a primary domain. *)
Theorem crawl_returns_no_record
    (unicode_lower : pystr → nat → N → pystr)
    (extract_domain_parts : pystr → DomainParts)
    (set_iter : gset pystr → list pystr)
    (resolve : pystr → DnsOutcome)
    (whois_query : pystr → Py.result WhoisData)
    (age_days : pystr → option Z)
    (target_cse : Target.t) :
  match crawl unicode_lower extract_domain_parts set_iter resolve
          whois_query age_days target_cse with
  | Py.Ok discovered => discovered = []
  | Py.Raise e =>
      Target.primary_domain target_cse = None
      ∧ e = Py.Exc "KeyError" (lit "'primary_domain'")
  end.
Proof.
  destruct (Target.primary_domain target_cse) as [primary_domain|] eqn:Hprimary.
  - by rewrite (crawl_discovers_nothing unicode_lower extract_domain_parts
                  set_iter resolve whois_query age_days target_cse
                  primary_domain Hprimary).
  - unfold crawl. rewrite Hprimary. by cbn.
Qed.

End WHOISSourceFacts.

(** ** The subscriber's retries *)
Module RetryFacts.
Import CertTransparencyCrawler.

Lemma backs_off_after (k : nat) :
  ∀ (feed : list Connection) (self : t),
    stop_monitoring self = false →
    0 ≤ retry_count self →
    max_retries self - retry_count self = Z.of_nat (S k) →
    (S k ≤ length feed)%nat →
    Forall failed (take (S k) feed) →
    sleeps (_monitor_ct_logs feed self)
    = map (λ j, 5 * (retry_count self + Z.of_nat j)) (seq 1 k).
Proof.
  induction k as [|k IH]; intros feed self Hstop Hcount Hleft Hlen Hfailed;
    (destruct feed as [|c feed]; [simpl in Hlen; lia|]);
    apply Forall_cons in Hfailed as [(Hraised & Hdelivered & Hconsumer) Hfailed];
    simpl; rewrite Hstop, Hdelivered, Hraised, Hconsumer; simpl;
    (destruct (Z.ltb_spec (retry_count self) (max_retries self)); [|lia]); simpl.
  - by destruct (Z.ltb_spec (retry_count self + 1) (max_retries self)); [lia|].
  - destruct (Z.ltb_spec (retry_count self + 1) (max_retries self)); [|lia].
    simpl. f_equal.
    rewrite (IH feed {| stop_monitoring := false;
                        max_retries := max_retries self;
                        retry_count := retry_count self + 1 |});
      simpl; try done; try lia.
    + rewrite <- (seq_shift k 1), map_map. apply map_ext. intros j. lia.
    + simpl in Hlen. lia.
Qed.

(** X25: The delays between failed attempts grow linearly, not exponentially:
    after the [j]-th failure in a row the subscriber sleeps [5 j] seconds
    (5, 10, 15, ...), up to the failure that makes it give up. *)
Theorem subscriber_backs_off_linearly (feed : list Connection) (self : t) :
  stop_monitoring self = false →
  retry_count self = 0 →
  1 ≤ max_retries self →
  (Z.to_nat (max_retries self) ≤ length feed)%nat →
  Forall failed (take (Z.to_nat (max_retries self)) feed) →
  sleeps (_monitor_ct_logs feed self)
  = map (λ j, 5 * Z.of_nat j) (seq 1 (Z.to_nat (max_retries self) - 1)).
Proof.
  intros Hstop Hcount Hmax Hlen Hfailed.
  destruct (Z.to_nat (max_retries self)) as [|k] eqn:Hk; [lia|].
  rewrite (backs_off_after k feed self); try done; try lia.
  replace (S k - 1)%nat with k by lia.
  apply map_ext. intros j. lia.
Qed.

Lemma subscriber_backs_off_linearly_witness :
  let self := {| stop_monitoring := false; max_retries := 5;
                 retry_count := 0 |} in
  let feed := replicate 5 Examples.refused in
  Forall failed (take (Z.to_nat (max_retries self)) feed)
  ∧ sleeps (_monitor_ct_logs feed self) = [5; 10; 15; 20]
  ∧ sleeps (_monitor_ct_logs feed self)
    = map (λ j, 5 * Z.of_nat j) (seq 1 (Z.to_nat (max_retries self) - 1)).
Proof.
  intros self feed.
  assert (Forall failed (take (Z.to_nat (max_retries self)) feed)) as Hfailed.
  { vm_compute. repeat constructor. }
  split; [exact Hfailed|]. split; [vm_compute; reflexivity|].
  apply (subscriber_backs_off_linearly feed self).
  - reflexivity.
  - reflexivity.
  - simpl. lia.
  - vm_compute. lia.
  - exact Hfailed.
Defined.

Lemma keeps_retrying (feed : list Connection) :
  ∀ self : t,
    stop_monitoring self = false →
    retry_count self < max_retries self →
    2 ≤ max_retries self →
    Forall (λ c, delivered c = true ∧ raised c = true
                 ∧ stopped_by_consumer c = false) feed →
    attempts (_monitor_ct_logs feed self) = length feed
    ∧ sleeps (_monitor_ct_logs feed self) = replicate (length feed) 5
    ∧ stop_monitoring (final (_monitor_ct_logs feed self)) = false.
Proof.
  induction feed as [|c feed IH]; intros self Hstop Hcount Hmax Hfeed; [done|].
  apply Forall_cons in Hfeed as [(Hdelivered & Hraised & Hconsumer) Hfeed].
  simpl. rewrite Hstop, Hdelivered, Hraised, Hconsumer. simpl.
  destruct (Z.ltb_spec (retry_count self) (max_retries self)); [|lia]. simpl.
  destruct (Z.ltb_spec (0 + 1) (max_retries self)); [|lia]. simpl.
  destruct (IH {| stop_monitoring := false;
                  max_retries := max_retries self;
                  retry_count := 0 + 1 |}) as (Hattempts & Hsleeps & Hflag);
    simpl; try done; try lia.
  by rewrite Hattempts, Hsleeps.
Qed.

(** X26: [max_retries] bounds the failures in a row, not the retries of a run:
    as long as every connection delivers a certificate before it breaks,
    the subscriber reconnects every time, 5 seconds later, and never sets
    the stop flag, however many connections break. *)
Theorem subscriber_never_gives_up_on_dropped_connections
    (feed : list Connection) (self : t) :
  stop_monitoring self = false →
  retry_count self < max_retries self →
  2 ≤ max_retries self →
  Forall (λ c, delivered c = true ∧ raised c = true
               ∧ stopped_by_consumer c = false) feed →
  let trace := _monitor_ct_logs feed self in
  attempts trace = length feed
  ∧ sleeps trace = replicate (length feed) 5
  ∧ stop_monitoring (final trace) = false.
Proof.
  intros Hstop Hcount Hmax Hfeed. cbv zeta. by apply keeps_retrying.
Qed.

Lemma subscriber_never_gives_up_on_dropped_connections_witness :
  let feed := replicate 100 Examples.dropped in
  Forall (λ c, delivered c = true ∧ raised c = true
               ∧ stopped_by_consumer c = false) feed
  ∧ let trace := _monitor_ct_logs feed __init__ in
    attempts trace = length feed
    ∧ sleeps trace = replicate (length feed) 5
    ∧ stop_monitoring (final trace) = false.
Proof.
  intros feed.
  assert (Forall (λ c, delivered c = true ∧ raised c = true
                       ∧ stopped_by_consumer c = false) feed) as Hfeed.
  { apply Forall_replicate. by repeat split. }
  split; [exact Hfeed|].
  apply (subscriber_never_gives_up_on_dropped_connections feed __init__).
  - reflexivity.
  - simpl. lia.
  - simpl. lia.
  - exact Hfeed.
Defined.

End RetryFacts.

(** ** Variants that are not host names *)
Module UnusableFacts.
Import Typosquat TyposquatFacts ValidatorsFacts Unusable.

(** A string with a character outside the grammar is not valid. *)
Lemma is_valid_domain_rejects (s : pystr) (c : N) :
  c ∈ s → grammar_char c = false → c ≠ line_feed →
  is_valid_domain s = false.
Proof.
  intros Hin Hbad Hlf. destruct (is_valid_domain s) eqn:Hvalid; [|done].
  apply is_valid_domain_inv in Hvalid as [Hall|(body & -> & Hall)].
  - rewrite Forall_forall in Hall. apply Hall in Hin. congruence.
  - apply elem_of_app in Hin as [Hin|Hin%list_elem_of_singleton]; [|done].
    rewrite Forall_forall in Hall. apply Hall in Hin. congruence.
Qed.

Lemma ascii_lower_is_ascii (c : N) :
  is_ascii (ascii_lower c) = true → is_ascii c = true.
Proof.
  unfold is_ascii, ascii_lower. rewrite !N.ltb_lt.
  destruct (N.leb_spec 65 c); [|done]. destruct (N.leb_spec c 90); [|done].
  cbn [andb]. lia.
Qed.

Section Tables.
Variable unicode_lower : pystr → nat → N → pystr.

Lemma lower_ascii_char (c : N) :
  is_ascii c = true → lower unicode_lower [c] = [ascii_lower c].
Proof. intros Hc. unfold lower. cbn. by rewrite Hc. Qed.

Lemma elem_of_replacements (table : list (pystr * list pystr))
    (domain tld : pystr) (i : nat) (c : N) (reps : list pystr)
    (replacement : pystr) :
  domain !! i = Some c →
  lookup_lower unicode_lower table c = Some reps →
  replacement ∈ reps →
  fqdn (take i domain ++ replacement ++ drop (i + 1) domain) tld
    ∈ replacements unicode_lower table domain tld.
Proof.
  intros Hi Hget Hin. unfold replacements.
  apply list_elem_of_In, in_concat. eexists. split.
  - apply list_elem_of_In.
    apply (elem_of_lookup_imap_2 _ domain c i Hi).
  - cbv beta. rewrite Hget. apply in_map_iff. exists replacement.
    split; [done | by apply list_elem_of_In].
Qed.

Lemma unusable_listed (domain tld : pystr) (i : nat) (c bad : N) :
  domain !! i = Some c →
  (ascii_lower c, bad) ∈ unusable →
  fqdn (take i domain ++ [bad] ++ drop (i + 1) domain) tld
    ∈ operator_outputs unicode_lower domain tld.
Proof.
  intros Hi Hbad. unfold operator_outputs.
  assert (is_ascii c = true) as Hascii.
  { apply ascii_lower_is_ascii.
    unfold unusable in Hbad.
    repeat (apply elem_of_cons in Hbad as [[= -> _]|Hbad]; [done|]).
    by apply elem_of_nil in Hbad. }
  unfold unusable in Hbad.
  apply elem_of_cons in Hbad as [[= Hc ->]|Hbad];
    [|apply elem_of_cons in Hbad as [[= Hc ->]|Hbad];
      [|apply elem_of_cons in Hbad as [[= Hc ->]|Hbad];
        [|apply elem_of_cons in Hbad as [[= Hc ->]|Hbad];
          [|by apply elem_of_nil in Hbad]]]].
  1-3: do 2 (apply elem_of_app; right); apply elem_of_app; left;
       eapply (elem_of_replacements CHAR_SUBSTITUTIONS); [done| |];
       [unfold lookup_lower; rewrite lower_ascii_char, Hc by done;
        vm_compute; reflexivity
       |apply str_in_elem_of; vm_compute; reflexivity].
  do 5 (apply elem_of_app; right). apply elem_of_app. left.
  eapply elem_of_replacements; [done| |].
  - unfold lookup_lower. rewrite lower_ascii_char, Hc by done.
    vm_compute. reflexivity.
  - apply str_in_elem_of. vm_compute. reflexivity.
Qed.

End Tables.

(** X27: The generator hands out names that are not host names.  Whenever the
    seed's label has an [a], [i], [s] or [r] (in either case), the
    variants include the label with that character replaced by [@], [!],
    [$] or a space, as the substitution and keyboard tables list them, and
    [is_valid_domain] rejects each of these names. *)
Theorem all_operators_emit_invalid_names
    (unicode_lower : pystr → nat → N → pystr)
    (extract_domain_parts : pystr → DomainParts)
    (seed : pystr) (i : nat) (c bad : N) :
  let parts := extract_domain_parts seed in
  domain parts !! i = Some c →
  (ascii_lower c, bad) ∈ unusable →
  let variant :=
    fqdn (take i (domain parts) ++ [bad] ++ drop (i + 1) (domain parts))
         (suffix parts) in
  variant ∈ all_operators unicode_lower extract_domain_parts seed
  ∧ is_valid_domain variant = false.
Proof.
  intros parts Hi Hbad variant. split.
  - rewrite all_operators_added. unfold added.
    apply elem_of_list_to_set. by apply (unusable_listed _ _ _ i c bad).
  - apply (is_valid_domain_rejects _ bad).
    + unfold variant, fqdn. rewrite !elem_of_app. left. right. left.
      apply list_elem_of_here.
    + unfold unusable in Hbad.
      repeat (apply elem_of_cons in Hbad as [[= _ ->]|Hbad];
              [vm_compute; reflexivity|]).
      by apply elem_of_nil in Hbad.
    + unfold unusable in Hbad.
      repeat (apply elem_of_cons in Hbad as [[= _ ->]|Hbad]; [done|]).
      by apply elem_of_nil in Hbad.
Qed.

Lemma all_operators_emit_invalid_names_witness :
  let parts := psl_extract COMMON_TLDS (lit "acmebank.com") in
  domain parts !! 0%nat = Some (code "a")
  ∧ (ascii_lower (code "a"), code "@") ∈ unusable
  ∧ let variant :=
      fqdn (take 0 (domain parts) ++ [code "@"] ++ drop (0 + 1) (domain parts))
           (suffix parts) in
    variant = lit "@cmebank.com"
    ∧ variant ∈ all_operators caseless (psl_extract COMMON_TLDS)
                  (lit "acmebank.com")
    ∧ is_valid_domain variant = false.
Proof.
  cbv zeta.
  assert (domain (psl_extract COMMON_TLDS (lit "acmebank.com")) !! 0%nat
          = Some (code "a")) as Hi by (vm_compute; reflexivity).
  assert ((ascii_lower (code "a"), code "@") ∈ unusable) as Hbad
    by (apply list_elem_of_here).
  split; [exact Hi|]. split; [exact Hbad|]. split; [vm_compute; reflexivity|].
  exact (all_operators_emit_invalid_names caseless (psl_extract COMMON_TLDS)
           (lit "acmebank.com") 0 (code "a") (code "@") Hi Hbad).
Defined.

End UnusableFacts.
